(** * A shallow embedding of the MLIR kernel analyses

    The development follows the C++ sources:
    - [lib/Analysis/LoopAnalysis.cpp]: trip counts, access invariance,
      contiguity, vectorizability of a loop body, validity of
      operation-wise shifts;
    - [lib/Analysis/Dominance.cpp]: dominance queries across regions;
    - [include/mlir/IR/Operation.h] and [include/mlir/IR/OpDefinition.h]:
      operation properties and the composition of trait verifiers;
    - [include/mlir/IR/OpImplementation.h]: the helpers of the custom
      printers and parsers.

    Pointers ([Operation *], [Block *], [Region *], [Value *]) are handles
    (natural numbers) into an arena; the fields the code reads through a
    pointer are the functions of that arena.  Machine integers are
    integers of [Z] with the wrap-around written out. *)

From Stdlib Require Import ZArith List Lia Bool Arith String.
From stdpp Require Import base option list gmap.

Import ListNotations.

(** ** Machine integers and [mlir/Support/MathExtras.h] *)

Module MathExtras.
Local Open Scope Z_scope.

Definition INT64_MIN : Z := - 2 ^ 63.
Definition INT64_MAX : Z := 2 ^ 63 - 1.
Definition UINT64_MAX : Z := 2 ^ 64 - 1.
Definition INT_MAX : Z := 2 ^ 31 - 1.

Definition in_int64 (z : Z) : Prop := INT64_MIN <= z <= INT64_MAX.
Definition in_uint64 (z : Z) : Prop := 0 <= z <= UINT64_MAX.

(** Two's complement wrap-around of a mathematical integer into
    [int64_t]. *)
Definition wrap64 (z : Z) : Z := (z + 2 ^ 63) mod 2 ^ 64 - 2 ^ 63.

(** Conversion to [uint64_t]. *)
Definition to_uint64 (z : Z) : Z := z mod 2 ^ 64.

(** Conversions to [unsigned] and to [int] (32 bits). *)
Definition to_unsigned (z : Z) : Z := z mod 2 ^ 32.
Definition to_int (z : Z) : Z := (z + 2 ^ 31) mod 2 ^ 32 - 2 ^ 31.

(** Modelled from the spec: [ceilDiv] of [mlir/Support/MathExtras.h], the
    ceiling of the quotient of two [int64_t] values, which the header
    computes with the truncating division and remainder of C++:
    [lhs % rhs > 0 ? lhs / rhs + 1 : lhs / rhs], under
    [assert(rhs >= 1)].  [None] is the failed assertion. *)
Definition ceilDiv (lhs rhs : Z) : option Z :=
  if rhs <? 1 then None
  else if 0 <? Z.rem lhs rhs then Some (wrap64 (Z.quot lhs rhs + 1))
       else Some (Z.quot lhs rhs).

(** Modelled from the spec: [llvm::GreatestCommonDivisor64], the greatest
    common divisor of two [uint64_t] values by Euclid's algorithm,
    [while (B) { T = B; B = A % B; A = T; } return A;].  The loop is run
    on a bounded number of iterations. *)
Fixpoint gcd_loop (fuel : nat) (A B : Z) : option Z :=
  match fuel with
  | O => None
  | S fuel' => if B =? 0 then Some A else gcd_loop fuel' B (A mod B)
  end.

Definition GreatestCommonDivisor64 (A B : Z) : option Z :=
  gcd_loop 130 A B.

(** [q] is the ceiling of [x / y]. *)
Definition is_ceil (x y q : Z) : Prop := y * (q - 1) < x <= y * q.

Lemma wrap64_id z : in_int64 z -> wrap64 z = z.
Proof.
  unfold in_int64, INT64_MIN, INT64_MAX, wrap64. intros H.
  rewrite Z.mod_small; lia.
Qed.

Lemma to_uint64_id z : in_uint64 z -> to_uint64 z = z.
Proof.
  unfold in_uint64, UINT64_MAX, to_uint64. intros H.
  apply Z.mod_small. lia.
Qed.

Lemma to_uint64_range z : in_uint64 (to_uint64 z).
Proof.
  unfold in_uint64, UINT64_MAX, to_uint64.
  pose proof (Z.mod_pos_bound z (2 ^ 64) ltac:(lia)). lia.
Qed.

Lemma to_int_id z : - 2 ^ 31 <= z <= INT_MAX -> to_int z = z.
Proof.
  unfold INT_MAX, to_int. intros H. rewrite Z.mod_small; lia.
Qed.

Lemma to_unsigned_id z : 0 <= z < 2 ^ 32 -> to_unsigned z = z.
Proof. unfold to_unsigned. intros H. apply Z.mod_small. lia. Qed.

(** On a non-negative numerator the truncating quotient of C++ rounds
    down, and [ceilDiv] rounds up without overflowing. *)
Lemma ceilDiv_is_ceil lhs rhs :
  0 <= lhs <= INT64_MAX -> 1 <= rhs ->
  exists q, ceilDiv lhs rhs = Some q /\ is_ceil lhs rhs q /\ 0 <= q <= lhs.
Proof.
  intros Hl Hr. unfold ceilDiv, is_ceil.
  destruct (Z.ltb_spec rhs 1) as [?|_]; [lia|].
  rewrite Z.rem_mod_nonneg, Z.quot_div_nonneg by lia.
  pose proof (Z.div_mod lhs rhs ltac:(lia)) as Hdm.
  pose proof (Z.mod_pos_bound lhs rhs ltac:(lia)) as Hm.
  assert (0 <= lhs / rhs) as Hq by (apply Z.div_pos; lia).
  assert (lhs / rhs <= lhs) as Hq' by (apply Z.div_le_upper_bound; nia).
  destruct (Z.ltb_spec 0 (lhs mod rhs)) as [Hpos|Hzero].
  - assert (lhs / rhs + 1 <= lhs) by nia.
    exists (lhs / rhs + 1). rewrite wrap64_id.
    + repeat split; try nia.
    + unfold in_int64, INT64_MIN, INT64_MAX in *. lia.
  - exists (lhs / rhs). repeat split; try nia.
Qed.

Lemma gcd_loop_spec k : forall n A B,
  (k < n)%nat -> 0 <= B <= A -> B * A < 2 ^ Z.of_nat k ->
  gcd_loop n A B = Some (Z.gcd A B).
Proof.
  induction k as [|k IH]; intros n A B Hn HB Hk.
  - destruct n as [|n]; [lia|]. simpl.
    assert (B = 0) as -> by nia.
    simpl. rewrite Z.gcd_0_r, Z.abs_eq by lia. reflexivity.
  - destruct n as [|n]; [lia|]. simpl.
    destruct (Z.eqb_spec B 0) as [->|HB0].
    + rewrite Z.gcd_0_r, Z.abs_eq by lia. reflexivity.
    + pose proof (Z.mod_pos_bound A B ltac:(lia)) as Hm.
      pose proof (Z.div_mod A B ltac:(lia)) as Hdm.
      assert (1 <= A / B) by (apply Z.div_le_lower_bound; lia).
      rewrite IH.
      * f_equal. rewrite Z.gcd_comm, Z.gcd_mod by lia. apply Z.gcd_comm.
      * lia.
      * lia.
      * rewrite Nat2Z.inj_succ, Z.pow_succ_r in Hk by lia. nia.
Qed.

Lemma gcd_loop_any_order k n A B :
  (S k < n)%nat -> 0 <= A -> 0 <= B -> A * B < 2 ^ Z.of_nat k ->
  gcd_loop n A B = Some (Z.gcd A B).
Proof.
  intros Hn HA HB Hk.
  destruct (Z.le_gt_cases B A) as [Hle|Hgt].
  - apply (gcd_loop_spec k); lia.
  - destruct n as [|n]; [lia|]. simpl.
    destruct (Z.eqb_spec B 0) as [->|_]; [lia|].
    rewrite Z.mod_small by lia.
    rewrite (gcd_loop_spec k); [|lia|lia|lia].
    f_equal. apply Z.gcd_comm.
Qed.

(** Euclid's loop terminates within its budget on every pair of
    [uint64_t] values and returns their greatest common divisor. *)
Lemma GreatestCommonDivisor64_gcd A B :
  in_uint64 A -> in_uint64 B ->
  GreatestCommonDivisor64 A B = Some (Z.gcd A B).
Proof.
  unfold in_uint64, UINT64_MAX, GreatestCommonDivisor64. intros HA HB.
  apply (gcd_loop_any_order 128); [lia|lia|lia|].
  replace (2 ^ Z.of_nat 128) with (2 ^ 64 * 2 ^ 64) by reflexivity.
  generalize dependent (2 ^ 64). intros. nia.
Qed.

End MathExtras.

(** ** Handles, affine expressions and affine maps *)

(** [Value *], [Operation *], [Block *] and [Region *] are compared by
    address only. *)
Abbreviation Value := nat (only parsing).
Abbreviation Op := nat (only parsing).
Abbreviation Block := nat (only parsing).
Abbreviation Region := nat (only parsing).
Abbreviation Location := nat (only parsing).

Module Affine.
Import MathExtras.
Local Open Scope Z_scope.

Inductive AffineExprKind := Add | Mul | Mod | FloorDiv | CeilDiv.

Inductive AffineExpr :=
| AffineDimExpr (position : nat)
| AffineSymbolExpr (position : nat)
| AffineConstantExpr (value : Z)
| AffineBinaryOpExpr (kind : AffineExprKind) (lhs rhs : AffineExpr).

(** An [AffineMap] is a nullable handle; [AffineMap()] is the null map. *)
Inductive AffineMap :=
| NullMap
| Map (numDims numSymbols : nat) (results : list AffineExpr).

#[global] Instance AffineExprKind_eq_dec : EqDecision AffineExprKind.
Proof. solve_decision. Defined.

#[global] Instance AffineExpr_eq_dec : EqDecision AffineExpr.
Proof. solve_decision. Defined.

#[global] Instance AffineMap_eq_dec : EqDecision AffineMap.
Proof. solve_decision. Defined.

(** [explicit operator bool] of [AffineMap]. *)
Definition isNonNull (map : AffineMap) : bool :=
  match map with NullMap => false | Map _ _ _ => true end.

Definition getNumResults (map : AffineMap) : nat :=
  match map with NullMap => O | Map _ _ rs => length rs end.

Definition getResults (map : AffineMap) : list AffineExpr :=
  match map with NullMap => [] | Map _ _ rs => rs end.

Definition getNumDims (map : AffineMap) : nat :=
  match map with NullMap => O | Map d _ _ => d end.

Definition getNumSymbols (map : AffineMap) : nat :=
  match map with NullMap => O | Map _ s _ => s end.

(** Modelled from the spec: [AffineMap::isSingleConstant] and
    [getSingleConstantResult] of [AffineMap.cpp], "bounds are compile-time
    constants": the map has one result and it is a constant. *)
Definition isSingleConstant (map : AffineMap) : bool :=
  match getResults map with
  | [AffineConstantExpr _] => true
  | _ => false
  end.

Definition getSingleConstantResult (map : AffineMap) : option Z :=
  match getResults map with
  | [AffineConstantExpr v] => Some v
  | _ => None
  end.

(** Modelled from the spec: the [Builder] entry points the analyses call,
    of [Builders.cpp]; each builds the map or the expression it is named
    after. *)
Definition getConstantAffineMap (val : Z) : AffineMap :=
  Map 0 0 [AffineConstantExpr val].

Definition getAffineMap (dimCount symbolCount : nat)
    (results : list AffineExpr) : AffineMap :=
  Map dimCount symbolCount results.

Definition getAffineDimExpr (position : nat) : AffineExpr :=
  AffineDimExpr position.

Definition getMultiDimIdentityMap (rank : nat) : AffineMap :=
  Map rank 0 (map AffineDimExpr (seq 0 rank)).

(** Modelled from the spec: [lhs - rhs] and [e.ceilDiv(v)] on affine
    expressions, of [AffineExpr.cpp], without their local
    simplifications. *)
Definition affine_sub (lhs rhs : AffineExpr) : AffineExpr :=
  AffineBinaryOpExpr Add lhs
    (AffineBinaryOpExpr Mul rhs (AffineConstantExpr (-1))).

Definition affine_ceilDiv (e : AffineExpr) (v : Z) : AffineExpr :=
  AffineBinaryOpExpr CeilDiv e (AffineConstantExpr v).

End Affine.

(** ** A state and failure monad

    The analyses thread a state (the IR they may edit, or the diagnostics
    they emit) and stop on a failed [assert]: a computation maps a state to
    [None] (assertion failure) or to a result and a new state. *)

Definition M (S A : Type) : Type := S -> option (A * S).

Definition ret {S A} (a : A) : M S A := fun s => Some (a, s).

Definition bind {S A B} (c : M S A) (k : A -> M S B) : M S B :=
  fun s => match c s with
           | None => None
           | Some (a, s') => k a s'
           end.

Definition assert_ {S} (b : bool) : M S unit :=
  fun s => if b then Some (tt, s) else None.

Definition lift_option {S A} (o : option A) : M S A :=
  fun s => match o with Some a => Some (a, s) | None => None end.

Definition modify {S} (f : S -> S) : M S unit := fun s => Some (tt, f s).

Notation "'do' x <- c ; k" := (bind c (fun x => k))
  (at level 10, x pattern, c at level 100, k at level 200, only parsing).
Notation "'do_' c ; k" := (bind c (fun _ => k))
  (at level 10, c at level 100, k at level 200, only parsing).

Lemma bind_Some {S A B} (c : M S A) (k : A -> M S B) s a s' :
  c s = Some (a, s') -> bind c k s = k a s'.
Proof. unfold bind. intros ->. reflexivity. Qed.

(** [empty()] of a container. *)
Definition isEmpty {A} (l : list A) : bool :=
  match l with [] => true | _ => false end.

(** Monadic iteration over a list, in order. *)
Fixpoint mapM {S A B} (f : A -> M S B) (l : list A) : M S (list B) :=
  match l with
  | [] => ret []
  | a :: l' => do b <- f a; do bs <- mapM f l'; ret (b :: bs)
  end.

Fixpoint forM_ {S A} (l : list A) (f : A -> M S unit) : M S unit :=
  match l with
  | [] => ret tt
  | a :: l' => do_ f a; forM_ l' f
  end.

(** ** [lib/Analysis/LoopAnalysis.cpp]: trip counts *)

Module TripCount.
Import MathExtras Affine.
Local Open Scope Z_scope.

(** The part of [AffineForOp] the analyses read. *)
Record AffineForOp := {
  getOperation : Op;
  getLoc : Location;
  getStep : Z;
  getLowerBoundMap : AffineMap;
  getUpperBoundMap : AffineMap;
  getLowerBoundOperands : list Value;
  getUpperBoundOperands : list Value;
  getInductionVar : Value;
  getBody : Block
}.

(** Modelled from the spec: the accessors of the constant bounds, of
    [AffineOps.cpp], which read the bound maps. *)
Definition hasConstantLowerBound (forOp : AffineForOp) : bool :=
  isSingleConstant (getLowerBoundMap forOp).
Definition hasConstantUpperBound (forOp : AffineForOp) : bool :=
  isSingleConstant (getUpperBoundMap forOp).
Definition hasConstantBounds (forOp : AffineForOp) : bool :=
  hasConstantLowerBound forOp && hasConstantUpperBound forOp.
Definition getConstantLowerBound (forOp : AffineForOp) : option Z :=
  getSingleConstantResult (getLowerBoundMap forOp).
Definition getConstantUpperBound (forOp : AffineForOp) : option Z :=
  getSingleConstantResult (getUpperBoundMap forOp).

(** The IR the trip-count computation edits through its [OpBuilder], and
    the affine utilities of [AffineAnalysis] and [AffineOps] it calls:
    they are not part of the analysed sources and are taken as an
    interface. *)
Class AffineIR (IR : Type) := {
  createAffineApply : Location -> AffineMap -> list Value -> IR -> Value * IR;
  fullyComposeAffineMapAndOperands :
    AffineMap * list Value -> IR -> AffineMap * list Value;
  simplifyAffineMap : AffineMap -> AffineMap;
  canonicalizeMapAndOperands : AffineMap * list Value -> AffineMap * list Value;
  use_empty : Value -> IR -> bool;
  eraseDefiningOp : Value -> IR -> IR;
  getLargestKnownDivisor : AffineExpr -> Z
}.

Section TripCount.
Context {IR : Type} `{AffineIR IR}.

Definition create (loc : Location) (map : AffineMap) (operands : list Value)
  : M IR Value :=
  fun ir => Some (createAffineApply loc map operands ir).

Definition eraseIfDead (v : Value) : M IR unit :=
  fun ir => if use_empty v ir then Some (tt, eraseDefiningOp v ir)
            else Some (tt, ir).

(** [buildTripCountMapAndOperands]: the two out-parameters [map] and
    [tripCountOperands] are returned; [tripCountOperands] is the vector the
    caller passed in. *)
Definition buildTripCountMapAndOperands (forOp : AffineForOp)
    (tripCountOperands : list Value) : M IR (AffineMap * list Value) :=
  let step := getStep forOp in
  if hasConstantBounds forOp then
    do lb <- lift_option (getConstantLowerBound forOp);
    do ub <- lift_option (getConstantUpperBound forOp);
    let loopSpan := wrap64 (ub - lb) in
    let loopSpan := if loopSpan <? 0 then 0 else loopSpan in
    do tripCount <- lift_option (ceilDiv loopSpan step);
    ret (getConstantAffineMap tripCount, [])
  else
    let lbMap := getLowerBoundMap forOp in
    let ubMap := getUpperBoundMap forOp in
    if negb (Nat.eqb (getNumResults lbMap) 1) then
      ret (NullMap, tripCountOperands)
    else
      let lbOperands := getLowerBoundOperands forOp in
      let ubOperands := getUpperBoundOperands forOp in
      do lb <- create (getLoc forOp) lbMap lbOperands;
      do ubs <- mapM (fun ubExpr =>
                        create (getLoc forOp)
                          (getAffineMap (getNumDims ubMap)
                             (getNumSymbols ubMap) [ubExpr])
                          ubOperands)
                     (getResults ubMap);
      let tripCountOperands := lb :: ubs in
      let tripCountExprs :=
        map (fun i => affine_ceilDiv
                        (affine_sub (getAffineDimExpr (1 + i))
                                    (getAffineDimExpr 0)) step)
            (seq 0 (length ubs)) in
      let map := getAffineMap (1 + length ubs) 0 tripCountExprs in
      do composed <- (fun ir => Some (fullyComposeAffineMapAndOperands
                                        (map, tripCountOperands) ir, ir));
      let map := simplifyAffineMap (fst composed) in
      let canon := canonicalizeMapAndOperands (map, snd composed) in
      do_ forM_ ubs eraseIfDead;
      do_ eraseIfDead lb;
      ret canon.

(** The body of the loop of [getLargestDivisorOfTripCount] for one result
    expression. *)
Definition thisGcd (resultExpr : AffineExpr) : Z :=
  match resultExpr with
  | AffineConstantExpr value =>
      let tripCount := to_uint64 value in
      if tripCount =? 0 then UINT64_MAX else tripCount
  | _ => getLargestKnownDivisor resultExpr
  end.

Fixpoint divisorLoop (results : list AffineExpr) (gcd : option Z)
  : option (option Z) :=
  match results with
  | [] => Some gcd
  | resultExpr :: rest =>
      match gcd with
      | Some g =>
          match GreatestCommonDivisor64 g (thisGcd resultExpr) with
          | Some g' => divisorLoop rest (Some g')
          | None => None
          end
      | None => divisorLoop rest (Some (thisGcd resultExpr))
      end
  end.

Definition getLargestDivisorOfTripCount (forOp : AffineForOp) : M IR Z :=
  do built <- buildTripCountMapAndOperands forOp [];
  let map := fst built in
  if negb (isNonNull map) then ret 1
  else
    do_ assert_ (Nat.leb 1 (getNumResults map));
    do gcd <- lift_option (divisorLoop (getResults map) None);
    lift_option gcd.

(** [getConstantTripCount]: the minimum over the results when all of them
    are constants. *)
Fixpoint constantLoop (results : list AffineExpr) (tripCount : option Z)
  : option (option Z) :=
  match results with
  | [] => Some tripCount
  | AffineConstantExpr value :: rest =>
      match tripCount with
      | Some t => constantLoop rest (Some (Z.min t (to_uint64 value)))
      | None => constantLoop rest (Some (to_uint64 value))
      end
  | _ :: _ => None
  end.

Definition getConstantTripCount (forOp : AffineForOp) : M IR (option Z) :=
  do built <- buildTripCountMapAndOperands forOp [];
  let map := fst built in
  if negb (isNonNull map) then ret None
  else ret (match constantLoop (getResults map) None with
            | Some t => t
            | None => None
            end).

End TripCount.

(** The divisor of one result expression, as the specification gives it. *)
Inductive ResultDivisor `{AffineIR} : AffineExpr -> Z -> Prop :=
| divisor_zero_trip value :
    to_uint64 value = 0 -> ResultDivisor (AffineConstantExpr value) UINT64_MAX
| divisor_constant value :
    to_uint64 value <> 0 ->
    ResultDivisor (AffineConstantExpr value) (to_uint64 value)
| divisor_dim p :
    ResultDivisor (AffineDimExpr p) (getLargestKnownDivisor (AffineDimExpr p))
| divisor_symbol p :
    ResultDivisor (AffineSymbolExpr p)
                  (getLargestKnownDivisor (AffineSymbolExpr p))
| divisor_binary k l r :
    ResultDivisor (AffineBinaryOpExpr k l r)
                  (getLargestKnownDivisor (AffineBinaryOpExpr k l r)).

(** The greatest common divisor of a list of numbers. *)
Definition gcd_list (l : list Z) : Z := fold_right Z.gcd 0 l.

(** A small concrete IR: the [affine.apply] operations the builder has
    inserted, each with the value it defines; nothing uses them. *)
Definition ListIR := list (Value * AffineMap * list Value).

#[global] Instance ListIR_AffineIR : AffineIR ListIR := {|
  createAffineApply := fun _ map operands ir =>
    (length ir, ir ++ [(length ir, map, operands)]);
  fullyComposeAffineMapAndOperands := fun mo _ => mo;
  simplifyAffineMap := fun map => map;
  canonicalizeMapAndOperands := fun mo => mo;
  use_empty := fun _ _ => true;
  eraseDefiningOp := fun v ir =>
    List.filter (fun entry => negb (Nat.eqb (fst (fst entry)) v)) ir;
  getLargestKnownDivisor := fun _ => 1
|}.

Definition constantLoop_example (lb ub step : Z) : AffineForOp := {|
  getOperation := 0%nat; getLoc := 0%nat; getStep := step;
  getLowerBoundMap := getConstantAffineMap lb;
  getUpperBoundMap := getConstantAffineMap ub;
  getLowerBoundOperands := []; getUpperBoundOperands := [];
  getInductionVar := 1%nat; getBody := 0%nat
|}.

(** *** Constant bounds *)

Lemma thisGcd_range `{AffineIR} e :
  (forall e', in_uint64 (getLargestKnownDivisor e')) -> in_uint64 (thisGcd e).
Proof.
  intros Hdiv. destruct e; simpl; auto.
  destruct (Z.eqb_spec (to_uint64 value) 0).
  - unfold in_uint64, UINT64_MAX. lia.
  - apply to_uint64_range.
Qed.


Lemma gcd_in_uint64 a b : in_uint64 a -> in_uint64 b -> in_uint64 (Z.gcd a b).
Proof.
  unfold in_uint64. intros Ha Hb. split; [apply Z.gcd_nonneg|].
  destruct (Z.eq_dec a 0) as [->|Hne].
  - rewrite Z.gcd_0_l, Z.abs_eq; lia.
  - assert (Z.gcd a b <= a); [|lia].
    apply Z.divide_pos_le; [lia|apply Z.gcd_divide_l].
Qed.

Lemma gcd_list_in_uint64 l : Forall in_uint64 l -> in_uint64 (gcd_list l).
Proof.
  induction 1 as [|x l Hx Hl IH]; simpl.
  - unfold in_uint64, UINT64_MAX. lia.
  - apply gcd_in_uint64; assumption.
Qed.

Lemma divisorLoop_Some `{AffineIR} results : forall g,
  (forall e, in_uint64 (getLargestKnownDivisor e)) -> in_uint64 g ->
  divisorLoop results (Some g)
  = Some (Some (Z.gcd g (gcd_list (map thisGcd results)))).
Proof.
  induction results as [|e rest IH]; intros g Hdiv Hg; simpl.
  - rewrite Z.gcd_0_r, Z.abs_eq by (destruct Hg; lia). reflexivity.
  - pose proof (thisGcd_range e Hdiv) as He.
    rewrite GreatestCommonDivisor64_gcd by assumption.
    rewrite IH by (auto using gcd_in_uint64).
    rewrite Z.gcd_assoc. reflexivity.
Qed.

(** C1, as amended: for a loop whose bounds are the constants [lb] and
    [ub] and whose step is positive, when [ub - lb] is representable as an
    [int64_t] the trip-count computation returns the constant map of
    [ceil((ub - lb) / step)], clamped to zero, clears the operands and
    leaves the IR as it was: no operation is created. *)
Theorem constant_bounds_trip_count {IR} `{AffineIR IR}
    (forOp : AffineForOp) (lb ub : Z) (operands : list Value) (ir : IR) :
  hasConstantBounds forOp = true ->
  getConstantLowerBound forOp = Some lb ->
  getConstantUpperBound forOp = Some ub ->
  1 <= getStep forOp <= INT64_MAX ->
  in_int64 (ub - lb) ->
  exists c, is_ceil (ub - lb) (getStep forOp) c /\
    buildTripCountMapAndOperands forOp operands ir
    = Some ((getConstantAffineMap (Z.max 0 c), []), ir).
Proof.
  intros Hconst Hlb Hub Hstep Hspan.
  unfold buildTripCountMapAndOperands. rewrite Hconst.
  unfold bind, lift_option, ret. rewrite Hlb, Hub.
  rewrite (wrap64_id _ Hspan).
  destruct (Z.ltb_spec (ub - lb) 0) as [Hneg|Hpos].
  - exists (- ((lb - ub) / getStep forOp)).
    assert (ceilDiv 0 (getStep forOp) = Some 0) as ->.
    { unfold ceilDiv. destruct (Z.ltb_spec (getStep forOp) 1); [lia|].
      rewrite Z.rem_0_l, Z.quot_0_l by lia. reflexivity. }
    pose proof (Z.div_mod (lb - ub) (getStep forOp) ltac:(lia)) as Hdm.
    pose proof (Z.mod_pos_bound (lb - ub) (getStep forOp) ltac:(lia)) as Hm.
    assert (0 <= (lb - ub) / getStep forOp) by (apply Z.div_pos; lia).
    split; [unfold is_ceil; nia|].
    rewrite Z.max_l by lia. reflexivity.
  - destruct (ceilDiv_is_ceil (ub - lb) (getStep forOp)) as (q & -> & Hq & Hq0).
    + unfold in_int64 in Hspan. lia.
    + lia.
    + exists q. split; [assumption|]. rewrite Z.max_r by lia. reflexivity.
Qed.

Lemma constant_bounds_trip_count_witness :
  buildTripCountMapAndOperands (constantLoop_example 0 10 1) [] ([] : ListIR)
  = Some ((getConstantAffineMap 10, []), []).
Proof.
  destruct (constant_bounds_trip_count (constantLoop_example 0 10 1) 0 10 []
              ([] : ListIR)) as (c & Hc & Heq).
  - reflexivity.
  - reflexivity.
  - reflexivity.
  - simpl. unfold INT64_MAX. lia.
  - unfold in_int64, INT64_MIN, INT64_MAX. lia.
  - rewrite Heq. unfold is_ceil in Hc. simpl in Hc.
    replace (Z.max 0 c) with 10 by lia. reflexivity.
Defined.

(** The two loops of the specification's example. *)
Example trip_count_0_10_1 :
  buildTripCountMapAndOperands (constantLoop_example 0 10 1) [] ([] : ListIR)
  = Some ((getConstantAffineMap 10, []), []).
Proof. reflexivity. Qed.

Example trip_count_10_4_1 :
  buildTripCountMapAndOperands (constantLoop_example 10 4 1) [] ([] : ListIR)
  = Some ((getConstantAffineMap 0, []), []).
Proof. reflexivity. Qed.

(** C1, as stated, fails where [ub - lb] leaves [int64_t]: with lower bound
    [1] and upper bound [INT64_MIN] the difference wraps around to
    [INT64_MAX], which is not clamped, and the trip count is [INT64_MAX]
    instead of zero. *)
Lemma constant_bounds_trip_count_overflow :
  ~ (forall (forOp : AffineForOp) (lb ub : Z),
       hasConstantBounds forOp = true ->
       getConstantLowerBound forOp = Some lb ->
       getConstantUpperBound forOp = Some ub ->
       in_int64 lb -> in_int64 ub ->
       1 <= getStep forOp <= INT64_MAX ->
       exists c, is_ceil (ub - lb) (getStep forOp) c /\
         buildTripCountMapAndOperands forOp [] ([] : ListIR)
         = Some ((getConstantAffineMap (Z.max 0 c), []), [])).
Proof.
  intros Hclaim.
  destruct (Hclaim (constantLoop_example 1 INT64_MIN 1) 1 INT64_MIN)
    as (c & Hc & Heq); try reflexivity.
  - unfold in_int64, INT64_MIN, INT64_MAX. lia.
  - unfold in_int64, INT64_MIN, INT64_MAX. lia.
  - simpl. unfold INT64_MAX. lia.
  - unfold is_ceil, INT64_MIN in Hc. simpl getStep in Hc.
    assert (Z.max 0 c = 0) as Hmax by lia. rewrite Hmax in Heq.
    vm_compute in Heq. discriminate Heq.
Qed.

(** *** The largest divisor of the trip count *)



End TripCount.

(** ** Diagnostics *)

Inductive Severity := Error | Warning | Remark.

Record Diagnostic := {
  severity : Severity;
  diagOp : Op;
  message : string
}.

Definition emitError (op : Op) (msg : string) : Diagnostic :=
  {| severity := Error; diagOp := op; message := msg |}.
Definition emitRemark (op : Op) (msg : string) : Diagnostic :=
  {| severity := Remark; diagOp := op; message := msg |}.

(** ** [include/mlir/IR/Operation.h]: property queries *)

Module OperationSupport.
Local Open Scope Z_scope.

Inductive OperationProperty :=
| Commutative | NoSideEffect | Terminator | IsolatedFromAbove.

(** Modelled from the spec: the enumerators of [OperationProperty] in
    [OperationSupport.h], one bit each of the "small bitset of declarative
    properties (commutative, no-side-effect, terminator,
    isolated-from-above)". *)
Definition propertyBit (p : OperationProperty) : Z :=
  match p with
  | Commutative => 1
  | NoSideEffect => 2
  | Terminator => 4
  | IsolatedFromAbove => 8
  end.

(** The registered description of an operation kind. *)
Record AbstractOperation := {
  absName : string;
  opProperties : Z
}.

(** Modelled from the spec: [AbstractOperation::hasProperty], the bit test
    [opProperties & property]. *)
Definition hasProperty (absOp : AbstractOperation) (property : OperationProperty)
  : bool :=
  negb (Z.land (opProperties absOp) (propertyBit property) =? 0).

(** An [OperationName] refers to the registered description of its kind, or
    only to an identifier when the kind is not registered. *)
Inductive OperationName :=
| Registered (absOp : AbstractOperation)
| Unregistered (identifier : string).

Definition OperationName_getAbstractOperation (name : OperationName)
  : option AbstractOperation :=
  match name with
  | Registered absOp => Some absOp
  | Unregistered _ => None
  end.

(** The fields of [Operation] that the queries read. *)
Record Operation := {
  getName : OperationName;
  numResults : nat;
  numSuccs : nat;
  numRegions : nat
}.

Definition getAbstractOperation (op : Operation) : option AbstractOperation :=
  OperationName_getAbstractOperation (getName op).

Definition isRegistered (op : Operation) : bool :=
  match getAbstractOperation op with Some _ => true | None => false end.

Definition isCommutative (op : Operation) : bool :=
  match getAbstractOperation op with
  | Some absOp => hasProperty absOp Commutative
  | None => false
  end.

Definition hasNoSideEffect (op : Operation) : bool :=
  match getAbstractOperation op with
  | Some absOp => hasProperty absOp NoSideEffect
  | None => false
  end.

(** [enum class TerminatorStatus]. *)
Module TerminatorStatus.
Inductive t := Terminator | NonTerminator | Unknown.

Definition eqb (a b : t) : bool :=
  match a, b with
  | Terminator, Terminator | NonTerminator, NonTerminator
  | Unknown, Unknown => true
  | _, _ => false
  end.
End TerminatorStatus.

Definition getTerminatorStatus (op : Operation) : TerminatorStatus.t :=
  match getAbstractOperation op with
  | Some absOp =>
      if hasProperty absOp Terminator
      then TerminatorStatus.Terminator
      else TerminatorStatus.NonTerminator
  | None => TerminatorStatus.Unknown
  end.

Definition isKnownTerminator (op : Operation) : bool :=
  TerminatorStatus.eqb (getTerminatorStatus op) TerminatorStatus.Terminator.

Definition isKnownNonTerminator (op : Operation) : bool :=
  TerminatorStatus.eqb (getTerminatorStatus op) TerminatorStatus.NonTerminator.

Definition isKnownIsolatedFromAbove (op : Operation) : bool :=
  match getAbstractOperation op with
  | Some absOp => hasProperty absOp IsolatedFromAbove
  | None => false
  end.

Definition unregistered_example : Operation := {|
  getName := Unregistered "foo.bar";
  numResults := 1; numSuccs := 0; numRegions := 0
|}.

(** C10: an operation whose kind has no registered description answers
    every property query with the conservative default. *)
Theorem unregistered_defaults (op : Operation) :
  getAbstractOperation op = None ->
  isCommutative op = false /\
  hasNoSideEffect op = false /\
  isKnownIsolatedFromAbove op = false /\
  getTerminatorStatus op = TerminatorStatus.Unknown /\
  isKnownTerminator op = false /\
  isKnownNonTerminator op = false.
Proof.
  intros Hnone.
  unfold isCommutative, hasNoSideEffect, isKnownIsolatedFromAbove,
    isKnownTerminator, isKnownNonTerminator, getTerminatorStatus.
  rewrite Hnone. repeat split.
Qed.

Lemma unregistered_defaults_witness :
  isCommutative unregistered_example = false /\
  hasNoSideEffect unregistered_example = false /\
  isKnownIsolatedFromAbove unregistered_example = false /\
  getTerminatorStatus unregistered_example = TerminatorStatus.Unknown /\
  isKnownTerminator unregistered_example = false /\
  isKnownNonTerminator unregistered_example = false.
Proof. apply (unregistered_defaults unregistered_example). reflexivity. Defined.

End OperationSupport.

(** ** [include/mlir/IR/OpDefinition.h]: traits and their verifiers *)

Module OpDefinition.
Import OperationSupport.
Local Open Scope Z_scope.

Inductive LogicalResult := Success | Failure.

Definition success : LogicalResult := Success.
Definition failure (isFailure : bool) : LogicalResult :=
  if isFailure then Failure else Success.
Definition failed (result : LogicalResult) : bool :=
  match result with Failure => true | Success => false end.
Definition succeeded (result : LogicalResult) : bool :=
  match result with Success => true | Failure => false end.

(** The vocabulary of traits of namespace [OpTrait]. *)
Inductive Trait :=
| ZeroOperands | OneOperand | NOperands (N : nat) | AtLeastNOperands (N : nat)
| VariadicOperands
| ZeroResult | OneResult | NResults (N : nat) | AtLeastNResults (N : nat)
| VariadicResults
| SameOperandsAndResultShape | SameOperandsAndResultElementType
| SameOperandsAndResultType
| ResultsAreBoolLike | ResultsAreFloatLike | ResultsAreIntegerLike
| IsCommutative | HasNoSideEffect
| OperandsAreFloatLike | OperandsAreIntegerLike | SameTypeOperands
| IsTerminator | IsIsolatedFromAbove.

(** [getTraitProperties]: zero in [TraitBase], overridden by four traits. *)
Definition getTraitProperties (trait : Trait) : Z :=
  match trait with
  | IsCommutative => propertyBit Commutative
  | HasNoSideEffect => propertyBit NoSideEffect
  | IsTerminator => propertyBit Terminator
  | IsIsolatedFromAbove => propertyBit IsolatedFromAbove
  | _ => 0
  end.

(** [BaseProperties<Traits...>::getTraitProperties] and
    [Op::getOperationProperties]. *)
Fixpoint BaseProperties (traits : list Trait) : Z :=
  match traits with
  | [] => 0
  | First :: Rest => Z.lor (getTraitProperties First) (BaseProperties Rest)
  end.

Definition getOperationProperties (traits : list Trait) : Z :=
  BaseProperties traits.

Section Verifier.

(** The state a verifier runs in: the IR graph it inspects through
    [Operation *], and the diagnostics emitted so far. *)
Context {IR : Type}.

Record VerifierState := {
  irGraph : IR;
  diagnostics : list Diagnostic
}.

Definition Verifier := Op -> VerifierState -> LogicalResult * VerifierState.

(** The out-of-line checks of namespace [OpTrait::impl], defined in
    [Operation.cpp], and the accessors [IsIsolatedFromAbove] uses. *)
Record TraitImpl := {
  verifyZeroOperands : Verifier;
  verifyOneOperand : Verifier;
  verifyNOperands : nat -> Verifier;
  verifyAtLeastNOperands : nat -> Verifier;
  verifyOperandsAreFloatLike : Verifier;
  verifyOperandsAreIntegerLike : Verifier;
  verifySameTypeOperands : Verifier;
  verifyZeroResult : Verifier;
  verifyOneResult : Verifier;
  verifyNResults : nat -> Verifier;
  verifyAtLeastNResults : nat -> Verifier;
  verifySameOperandsAndResultShape : Verifier;
  verifySameOperandsAndResultElementType : Verifier;
  verifySameOperandsAndResultType : Verifier;
  verifyResultsAreBoolLike : Verifier;
  verifyResultsAreFloatLike : Verifier;
  verifyResultsAreIntegerLike : Verifier;
  verifyIsTerminator : Verifier;
  getRegions : Op -> IR -> list Region;
  getLoc : Op -> IR -> Location;
  isIsolatedFromAbove : Region -> Location -> VerifierState -> bool * VerifierState
}.

Variable impl : TraitImpl.

(** [IsIsolatedFromAbove::verifyTrait]: the first region that is not
    isolated ends the loop with a failure. *)
Fixpoint verifyRegionsIsolated (regions : list Region) (loc : Location)
    (st : VerifierState) : LogicalResult * VerifierState :=
  match regions with
  | [] => (success, st)
  | region :: rest =>
      let (isolated, st1) := isIsolatedFromAbove impl region loc st in
      if negb isolated then (failure true, st1)
      else verifyRegionsIsolated rest loc st1
  end.

(** [Trait::verifyTrait]: the default of [TraitBase] accepts everything. *)
Definition verifyTrait (trait : Trait) : Verifier :=
  match trait with
  | ZeroOperands => verifyZeroOperands impl
  | OneOperand => verifyOneOperand impl
  | NOperands N => verifyNOperands impl N
  | AtLeastNOperands N => verifyAtLeastNOperands impl N
  | VariadicOperands => fun _ st => (success, st)
  | ZeroResult => verifyZeroResult impl
  | OneResult => verifyOneResult impl
  | NResults N => verifyNResults impl N
  | AtLeastNResults N => verifyAtLeastNResults impl N
  | VariadicResults => fun _ st => (success, st)
  | SameOperandsAndResultShape => verifySameOperandsAndResultShape impl
  | SameOperandsAndResultElementType =>
      verifySameOperandsAndResultElementType impl
  | SameOperandsAndResultType => verifySameOperandsAndResultType impl
  | ResultsAreBoolLike => verifyResultsAreBoolLike impl
  | ResultsAreFloatLike => verifyResultsAreFloatLike impl
  | ResultsAreIntegerLike => verifyResultsAreIntegerLike impl
  | IsCommutative => fun _ st => (success, st)
  | HasNoSideEffect => fun _ st => (success, st)
  | OperandsAreFloatLike => verifyOperandsAreFloatLike impl
  | OperandsAreIntegerLike => verifyOperandsAreIntegerLike impl
  | SameTypeOperands => verifySameTypeOperands impl
  | IsTerminator => verifyIsTerminator impl
  | IsIsolatedFromAbove => fun op st =>
      verifyRegionsIsolated (getRegions impl op (irGraph st))
                            (getLoc impl op (irGraph st)) st
  end.

(** [BaseVerifier<First, Rest...>::verifyTrait]:
    [failure(failed(First::verifyTrait(op)) ||
             failed(BaseVerifier<Rest...>::verifyTrait(op)))];
    the right operand of [||] is evaluated only when the left one is
    false. *)
Fixpoint BaseVerifier (traits : list Trait) : Verifier :=
  match traits with
  | [] => fun _ st => (success, st)
  | First :: Rest => fun op st =>
      let (r1, st1) := verifyTrait First op st in
      if failed r1 then (failure true, st1)
      else let (r2, st2) := BaseVerifier Rest op st1 in
           (failure (failed r2), st2)
  end.

(** [Op<ConcreteType, Traits...>::verifyInvariants]; [verify] is the
    [verify()] method of the concrete type. *)
Definition verifyInvariants (traits : list Trait) (verify : Verifier)
  : Verifier :=
  fun op st =>
    let (r1, st1) := BaseVerifier traits op st in
    if failed r1 then (failure true, st1)
    else let (r2, st2) := verify op st1 in
         (failure (failed r2), st2).

(** The fallback [OpState::verify]. *)
Definition OpState_verify : Verifier := fun _ st => (success, st).

(** Running the checks of [traits] one after the other from [st], all of
    them succeed and leave the state [st']. *)
Inductive AllSucceed (op : Op) : list Trait -> VerifierState -> VerifierState -> Prop :=
| AllSucceed_nil st : AllSucceed op [] st st
| AllSucceed_cons trait traits st st1 st2 :
    verifyTrait trait op st = (Success, st1) ->
    AllSucceed op traits st1 st2 ->
    AllSucceed op (trait :: traits) st st2.

(** A verifier that reads the IR but does not change it. *)
Definition ReadOnly (v : Verifier) : Prop :=
  forall op st, irGraph (snd (v op st)) = irGraph st.

(** The checks taken from [Operation.cpp] do not change the IR. *)
Record ImplReadOnly : Prop := {
  ro_ZeroOperands : ReadOnly (verifyZeroOperands impl);
  ro_OneOperand : ReadOnly (verifyOneOperand impl);
  ro_NOperands : forall N, ReadOnly (verifyNOperands impl N);
  ro_AtLeastNOperands : forall N, ReadOnly (verifyAtLeastNOperands impl N);
  ro_OperandsAreFloatLike : ReadOnly (verifyOperandsAreFloatLike impl);
  ro_OperandsAreIntegerLike : ReadOnly (verifyOperandsAreIntegerLike impl);
  ro_SameTypeOperands : ReadOnly (verifySameTypeOperands impl);
  ro_ZeroResult : ReadOnly (verifyZeroResult impl);
  ro_OneResult : ReadOnly (verifyOneResult impl);
  ro_NResults : forall N, ReadOnly (verifyNResults impl N);
  ro_AtLeastNResults : forall N, ReadOnly (verifyAtLeastNResults impl N);
  ro_SameShape : ReadOnly (verifySameOperandsAndResultShape impl);
  ro_SameElementType : ReadOnly (verifySameOperandsAndResultElementType impl);
  ro_SameType : ReadOnly (verifySameOperandsAndResultType impl);
  ro_BoolLike : ReadOnly (verifyResultsAreBoolLike impl);
  ro_FloatLike : ReadOnly (verifyResultsAreFloatLike impl);
  ro_IntegerLike : ReadOnly (verifyResultsAreIntegerLike impl);
  ro_IsTerminator : ReadOnly (verifyIsTerminator impl);
  ro_isIsolatedFromAbove : forall region loc st,
    irGraph (snd (isIsolatedFromAbove impl region loc st)) = irGraph st
}.

Lemma verifyRegionsIsolated_ReadOnly regions loc :
  ImplReadOnly ->
  forall st, irGraph (snd (verifyRegionsIsolated regions loc st)) = irGraph st.
Proof.
  intros Hro. induction regions as [|region rest IH]; intros st; simpl.
  - reflexivity.
  - pose proof (ro_isIsolatedFromAbove Hro region loc st) as Hiso.
    destruct (isIsolatedFromAbove impl region loc st) as [isolated st1].
    simpl in Hiso. destruct isolated; simpl.
    + rewrite IH. assumption.
    + assumption.
Qed.

Lemma verifyTrait_ReadOnly trait : ImplReadOnly -> ReadOnly (verifyTrait trait).
Proof.
  intros Hro. destruct trait; simpl; try (apply Hro);
    try (intros op st; reflexivity).
  intros op st. apply verifyRegionsIsolated_ReadOnly. assumption.
Qed.

Lemma BaseVerifier_ReadOnly traits : ImplReadOnly -> ReadOnly (BaseVerifier traits).
Proof.
  intros Hro. induction traits as [|First Rest IH]; intros op st; simpl.
  - reflexivity.
  - pose proof (verifyTrait_ReadOnly First Hro op st) as H1.
    destruct (verifyTrait First op st) as [r1 st1]. simpl in H1.
    destruct (failed r1); simpl; [assumption|].
    pose proof (IH op st1) as H2.
    destruct (BaseVerifier Rest op st1) as [r2 st2]. simpl in *. congruence.
Qed.

Lemma BaseVerifier_AllSucceed op traits : forall st st1,
  AllSucceed op traits st st1 <-> BaseVerifier traits op st = (Success, st1).
Proof.
  induction traits as [|First Rest IH]; intros st st1; simpl.
  - split.
    + inversion 1. reflexivity.
    + intros [= <-]. constructor.
  - split.
    + inversion 1 as [|? ? ? st' ? Hfirst Hrest]; subst.
      rewrite Hfirst. simpl. apply IH in Hrest. rewrite Hrest. reflexivity.
    + destruct (verifyTrait First op st) as [r1 st'] eqn:Hfirst.
      destruct r1; simpl; [|discriminate].
      destruct (BaseVerifier Rest op st') as [r2 st2] eqn:Hrest.
      destruct r2; simpl; [|discriminate].
      intros [= <-]. econstructor; [eassumption|]. apply IH. assumption.
Qed.

Lemma BaseVerifier_first_failure op : forall pre trait post st st1 st2,
  AllSucceed op pre st st1 ->
  verifyTrait trait op st1 = (Failure, st2) ->
  BaseVerifier (pre ++ trait :: post) op st = (Failure, st2).
Proof.
  induction pre as [|t pre IH]; intros trait post st st1 st2 Hpre Hfail.
  - inversion Hpre; subst. simpl. rewrite Hfail. reflexivity.
  - inversion Hpre as [|? ? ? st' ? Hfirst Hrest]; subst. simpl.
    rewrite Hfirst. simpl. rewrite (IH _ _ _ _ _ Hrest Hfail). reflexivity.
Qed.

End Verifier.

Arguments VerifierState : clear implicits.
Arguments Verifier : clear implicits.
Arguments TraitImpl : clear implicits.

(** C9: the trait checks run in declaration order; the first check that
    fails ends the verification with a failure, in the state that check
    left, whatever the later traits and the custom verifier are; the custom
    verifier runs after all traits have succeeded, in the state they left;
    the result is a success exactly when all of them succeed; and when the
    component checks do not change the IR, neither does
    [verifyInvariants]. *)
Theorem verifyInvariants_in_order {IR} (impl : TraitImpl IR)
    (traits : list Trait) (verify : Verifier IR) (op : Op)
    (st : VerifierState IR) :
  (forall pre trait post st1 st2,
      traits = pre ++ trait :: post ->
      AllSucceed impl op pre st st1 ->
      verifyTrait impl trait op st1 = (Failure, st2) ->
      verifyInvariants impl traits verify op st = (Failure, st2)) /\
  (forall st1,
      AllSucceed impl op traits st st1 ->
      verifyInvariants impl traits verify op st
      = (failure (failed (fst (verify op st1))), snd (verify op st1))) /\
  (fst (verifyInvariants impl traits verify op st) = Success <->
   exists st1, AllSucceed impl op traits st st1 /\
               fst (verify op st1) = Success) /\
  (ImplReadOnly impl -> ReadOnly verify ->
   irGraph (snd (verifyInvariants impl traits verify op st)) = irGraph st).
Proof.
  split; [|split; [|split]].
  - intros pre trait post st1 st2 -> Hpre Hfail.
    unfold verifyInvariants.
    rewrite (BaseVerifier_first_failure impl op _ _ _ _ _ _ Hpre Hfail).
    reflexivity.
  - intros st1 Hall. apply BaseVerifier_AllSucceed in Hall.
    unfold verifyInvariants. rewrite Hall. simpl.
    destruct (verify op st1). reflexivity.
  - unfold verifyInvariants. split.
    + destruct (BaseVerifier impl traits op st) as [r1 st1] eqn:Hbase.
      destruct r1; simpl; [|discriminate].
      intros Hok. exists st1. split.
      * apply BaseVerifier_AllSucceed. assumption.
      * destruct (verify op st1) as [r2 st2]. destruct r2; [reflexivity|].
        discriminate.
    + intros (st1 & Hall & Hok). apply BaseVerifier_AllSucceed in Hall.
      rewrite Hall. simpl. destruct (verify op st1) as [r2 st2].
      simpl in Hok. subst r2. reflexivity.
  - intros Hro Hverify. unfold verifyInvariants.
    pose proof (BaseVerifier_ReadOnly impl traits Hro op st) as Hbase.
    destruct (BaseVerifier impl traits op st) as [r1 st1]. simpl in Hbase.
    destruct (failed r1); simpl; [assumption|].
    pose proof (Hverify op st1) as Hv.
    destruct (verify op st1) as [r2 st2]. simpl in *. congruence.
Qed.

(** A concrete instance: an operation is described by its numbers of
    operands and results; the arity checks report an error on a mismatch,
    the terminator check always reports one, the others accept. *)
Definition ArityIR := Op -> nat * nat.

Definition arityCheck (ok : nat * nat -> bool) (msg : string) : Verifier ArityIR :=
  fun op st =>
    if ok (irGraph st op) then (success, st)
    else (failure true,
          {| irGraph := irGraph st;
             diagnostics := diagnostics st ++ [emitError op msg] |}).

Definition accept : Verifier ArityIR := fun _ st => (success, st).

Definition arityImpl : TraitImpl ArityIR := {|
  verifyZeroOperands := arityCheck (fun a => Nat.eqb (fst a) 0) "requires zero operands";
  verifyOneOperand := arityCheck (fun a => Nat.eqb (fst a) 1) "requires a single operand";
  verifyNOperands := fun N => arityCheck (fun a => Nat.eqb (fst a) N) "incorrect number of operands";
  verifyAtLeastNOperands := fun N => arityCheck (fun a => Nat.leb N (fst a)) "too few operands";
  verifyOperandsAreFloatLike := accept;
  verifyOperandsAreIntegerLike := accept;
  verifySameTypeOperands := accept;
  verifyZeroResult := arityCheck (fun a => Nat.eqb (snd a) 0) "requires zero results";
  verifyOneResult := arityCheck (fun a => Nat.eqb (snd a) 1) "requires one result";
  verifyNResults := fun N => arityCheck (fun a => Nat.eqb (snd a) N) "incorrect number of results";
  verifyAtLeastNResults := fun N => arityCheck (fun a => Nat.leb N (snd a)) "too few results";
  verifySameOperandsAndResultShape := accept;
  verifySameOperandsAndResultElementType := accept;
  verifySameOperandsAndResultType := accept;
  verifyResultsAreBoolLike := accept;
  verifyResultsAreFloatLike := accept;
  verifyResultsAreIntegerLike := accept;
  verifyIsTerminator := arityCheck (fun _ => false) "must be the last operation";
  getRegions := fun _ _ => [];
  getLoc := fun op _ => op;
  isIsolatedFromAbove := fun _ _ st => (true, st)
|}.

Definition arityState : VerifierState ArityIR :=
  {| irGraph := fun _ => (1%nat, 1%nat); diagnostics := [] |}.

Lemma arityCheck_ReadOnly ok msg : ReadOnly (arityCheck ok msg).
Proof.
  intros op st. unfold arityCheck. destruct (ok (irGraph st op)); reflexivity.
Qed.

Lemma arityImpl_ReadOnly : ImplReadOnly arityImpl.
Proof.
  constructor; simpl; intros;
    first [apply arityCheck_ReadOnly | intros ? ?; reflexivity | reflexivity].
Qed.

(** On an operation with one operand and one result, declared with the
    traits [OneOperand], [ZeroResult], [IsTerminator]: the second check
    fails, and the terminator check, which would report an error of its
    own, does not run. *)
Lemma verifyInvariants_in_order_witness :
  verifyInvariants arityImpl [OneOperand; ZeroResult; IsTerminator]
                   OpState_verify 7%nat arityState
  = (Failure,
     {| irGraph := irGraph arityState;
        diagnostics := [emitError 7%nat "requires zero results"] |})
  /\ irGraph (snd (verifyInvariants arityImpl
                     [OneOperand; ZeroResult; IsTerminator]
                     OpState_verify 7%nat arityState))
     = irGraph arityState.
Proof.
  pose proof (verifyInvariants_in_order arityImpl
                [OneOperand; ZeroResult; IsTerminator] OpState_verify 7%nat
                arityState) as (Hfirst & _ & _ & Hro).
  split.
  - apply (Hfirst [OneOperand] ZeroResult [IsTerminator] arityState).
    + reflexivity.
    + econstructor; [reflexivity|constructor].
    + reflexivity.
  - apply Hro.
    + exact arityImpl_ReadOnly.
    + intros op st. reflexivity.
Defined.

End OpDefinition.

(** ** [lib/Analysis/LoopAnalysis.cpp]: invariance, contiguity,
       vectorizability *)

Module LoopAnalysis.
Import MathExtras Affine TripCount.
Local Open Scope Z_scope.

Inductive Type_ :=
| IndexType
| IntegerType (width : nat)
| FloatType
| VectorType (elementType : Type_)
| OtherType.

Definition isaIndexType (t : Type_) : bool :=
  match t with IndexType => true | _ => false end.
Definition isaVectorType (t : Type_) : bool :=
  match t with VectorType _ => true | _ => false end.

Record MemRefType := {
  getAffineMaps : list AffineMap;
  getElementType : Type_
}.

(** The operation classes the analysis distinguishes with [isa<...>]. *)
Inductive OpClass :=
| AffineIfOp | AffineForOp_ | AffineApplyOp | LoadOp | StoreOp
| VectorTransferReadOp | VectorTransferWriteOp | OtherOp.

Definition OpClass_eqb (a b : OpClass) : bool :=
  match a, b with
  | AffineIfOp, AffineIfOp | AffineForOp_, AffineForOp_
  | AffineApplyOp, AffineApplyOp | LoadOp, LoadOp | StoreOp, StoreOp
  | VectorTransferReadOp, VectorTransferReadOp
  | VectorTransferWriteOp, VectorTransferWriteOp | OtherOp, OtherOp => true
  | _, _ => false
  end.

(** What the analysis reads from the IR and from the affine utilities that
    are not part of the analysed sources:
    - [getReachableAffineApplyOps] of [AffineAnalysis],
    - [AffineValueMap(composeOp).isFunctionOf(idx, iv)],
    - [isForInductionVar],
    - [Operation::walk], the operations nested under an operation in
      post-order, the operation itself last. *)
Class LoopIR := {
  getType : Value -> Type_;
  isForInductionVar : Value -> bool;
  getReachableAffineApplyOps : list Value -> list Op;
  isFunctionOf : Op -> nat -> Value -> bool;
  classof : Op -> OpClass;
  getNumRegions : Op -> nat;
  walk : Op -> list Op;
  getMemRefType : Op -> MemRefType;
  getIndices : Op -> list Value
}.

Definition isa `{LoopIR} (c : OpClass) (op : Op) : bool :=
  OpClass_eqb (classof op) c.

Definition Diags := list Diagnostic.

Definition emit (d : Diagnostic) : M Diags unit :=
  modify (fun diags => diags ++ [d]).

Section Access.
Context `{LoopIR}.

Definition isAccessInvariant (iv index : Value) : M Diags bool :=
  do_ assert_ (isForInductionVar iv);
  do_ assert_ (isaIndexType (getType index));
  let affineApplyOps := getReachableAffineApplyOps [index] in
  match affineApplyOps with
  | [] => ret (negb (Nat.eqb index iv))
  | first :: _ =>
      if Nat.ltb 1 (length affineApplyOps) then
        do_ emit (emitRemark first
              "CompositionAffineMapsPass must have been run: there should be at most one AffineApplyOp, returning false conservatively.");
        ret false
      else
        let composeOp := first in
        ret (negb (isFunctionOf composeOp 0 iv))
  end.

(** [getInvariantAccesses]: the indices that are invariant, as a set. *)
Fixpoint getInvariantAccesses (iv : Value) (indices : list Value)
  : M Diags (gset Value) :=
  match indices with
  | [] => ret ∅
  | val :: rest =>
      do inv <- isAccessInvariant iv val;
      do res <- getInvariantAccesses iv rest;
      ret (if inv then {[ val ]} ∪ res else res)
  end.

(** The test on the layout of the memref in [isContiguousAccess]. *)
Definition nonTrivialLayout (layoutMap : list AffineMap) : bool :=
  Nat.leb 2 (length layoutMap) ||
  match layoutMap with
  | [m] => negb (bool_decide (m = getMultiDimIdentityMap (getNumDims m)))
  | _ => false
  end.

(** The loop over the indices of [isContiguousAccess]; [None] is the early
    [return false], otherwise the final [uniqueVaryingIndexAlongIv]. *)
Fixpoint indicesLoop (iv : Value) (indices : list Value)
    (dim uniqueVaryingIndexAlongIv : Z) : M Diags (option Z) :=
  match indices with
  | [] => ret (Some uniqueVaryingIndexAlongIv)
  | index :: rest =>
      do inv <- isAccessInvariant iv index;
      if negb inv then
        if negb (uniqueVaryingIndexAlongIv =? -1) then ret None
        else indicesLoop iv rest (to_unsigned (dim + 1)) (to_int dim)
      else indicesLoop iv rest (to_unsigned (dim + 1))
                       uniqueVaryingIndexAlongIv
  end.

(** [isContiguousAccess]: returns the boolean and the contents of
    [*memRefDim] on exit. *)
Definition isContiguousAccess (iv : Value) (memoryOp : Op) (memRefDim : Z)
  : M Diags (bool * Z) :=
  let memRefType := getMemRefType memoryOp in
  let layoutMap := getAffineMaps memRefType in
  if nonTrivialLayout layoutMap then
    do_ emit (emitError memoryOp "NYI: non-trivial layoutMap");
    ret (false, memRefDim)
  else
    let indices := getIndices memoryOp in
    let numIndices := to_unsigned (Z.of_nat (length indices)) in
    do unique <- indicesLoop iv indices 0 (-1);
    match unique with
    | None => ret (false, memRefDim)
    | Some uniqueVaryingIndexAlongIv =>
        if uniqueVaryingIndexAlongIv =? -1 then ret (true, -1)
        else ret (true,
                  to_int (to_unsigned
                            (numIndices
                             - to_unsigned
                                 (to_int (uniqueVaryingIndexAlongIv + 1)))))
    end.

Definition isVectorElement (memoryOp : Op) : bool :=
  isaVectorType (getElementType (getMemRefType memoryOp)).

Definition isVectorTransferReadOrWrite (op : Op) : bool :=
  isa VectorTransferReadOp op || isa VectorTransferWriteOp op.

(** Modelled from the spec: [NestedPattern::match] for a pattern without
    nested patterns, the operations of the walk that pass the filter
    ("the body contains any ..."). *)
Definition match_ (filter : Op -> bool) (op : Op) : list Op :=
  List.filter filter (walk op).

Definition isLoadOrStore (op : Op) : bool := isa LoadOp op || isa StoreOp op.

Definition VectorizableOpFun := AffineForOp -> Op -> Z -> M Diags (bool * Z).

(** The loop over the matched loads and stores; the callback may write
    [*memRefDim], whose contents are threaded through. *)
Fixpoint loadAndStoresLoop (loop : AffineForOp)
    (isVectorizableOp : option VectorizableOpFun)
    (loadAndStoresMatched : list Op) (memRefDim : Z) : M Diags (bool * Z) :=
  match loadAndStoresMatched with
  | [] => ret (true, memRefDim)
  | op :: rest =>
      let vector := isVectorElement op in
      if vector then ret (false, memRefDim)
      else
        match isVectorizableOp with
        | Some f =>
            do r <- f loop op memRefDim;
            if negb (fst r) then ret (false, snd r)
            else loadAndStoresLoop loop isVectorizableOp rest (snd r)
        | None => loadAndStoresLoop loop isVectorizableOp rest memRefDim
        end
  end.

Definition isVectorizableLoopBodyWithOpCond (loop : AffineForOp)
    (isVectorizableOp : option VectorizableOpFun) (memRefDim : Z)
  : M Diags (bool * Z) :=
  let forOp := getOperation loop in
  let conditionalsMatched := match_ (isa AffineIfOp) forOp in
  if negb (isEmpty conditionalsMatched) then ret (false, memRefDim)
  else
    let regionsMatched :=
      match_ (fun op => negb (Nat.eqb (getNumRegions op) 0) &&
                        negb (isa AffineIfOp op || isa AffineForOp_ op))
             forOp in
    if negb (isEmpty regionsMatched) then ret (false, memRefDim)
    else
      let vectorTransfersMatched := match_ isVectorTransferReadOrWrite forOp in
      if negb (isEmpty vectorTransfersMatched) then ret (false, memRefDim)
      else
        let loadAndStoresMatched := match_ isLoadOrStore forOp in
        loadAndStoresLoop loop isVectorizableOp loadAndStoresMatched memRefDim.

(** [isVectorizableLoopBody(loop, memRefDim)]. *)
Definition isVectorizableLoopBody_dim (loop : AffineForOp) (memRefDim : Z)
  : M Diags (bool * Z) :=
  let fun_ : VectorizableOpFun := fun loop op memRefDim =>
    isContiguousAccess (getInductionVar loop) op memRefDim in
  isVectorizableLoopBodyWithOpCond loop (Some fun_) memRefDim.

(** [isVectorizableLoopBody(loop)]. *)
Definition isVectorizableLoopBody (loop : AffineForOp) : M Diags bool :=
  do r <- isVectorizableLoopBodyWithOpCond loop None 0;
  ret (fst r).

End Access.
(** *** Access invariance *)

(** An index is invariant (resp. varies) along [iv] when
    [isAccessInvariant] answers true (resp. false), whatever diagnostics
    were emitted before. *)
Definition Invariant `{LoopIR} (iv index : Value) : Prop :=
  forall diags, exists diags',
    isAccessInvariant iv index diags = Some (true, diags').

Definition Varies `{LoopIR} (iv index : Value) : Prop :=
  forall diags, exists diags',
    isAccessInvariant iv index diags = Some (false, diags').

Definition IndexTyped `{LoopIR} (index : Value) : Prop :=
  isaIndexType (getType index) = true.

Lemma Invariant_or_Varies `{LoopIR} iv index :
  isForInductionVar iv = true -> IndexTyped index ->
  Invariant iv index \/ Varies iv index.
Proof.
  intros Hiv Hty. unfold Invariant, Varies, isAccessInvariant, IndexTyped in *.
  unfold bind, assert_, emit, modify, ret. rewrite Hiv, Hty.
  destruct (getReachableAffineApplyOps [index]) as [|first rest].
  - destruct (negb (Nat.eqb index iv)); [left|right]; eauto.
  - destruct (Nat.ltb 1 (length (first :: rest))).
    + right. eauto.
    + destruct (negb (isFunctionOf first 0 iv)); [left|right]; eauto.
Qed.

(** C5: with no reachable [affine.apply] the index is invariant exactly
    when it is not the induction variable; with exactly one, exactly when
    the value map of that operation is not a function of the induction
    variable; with more than one the answer is false and a remark is
    emitted on the first of them. *)
Theorem isAccessInvariant_cases `{LoopIR} (iv index : Value) (diags : Diags) :
  isForInductionVar iv = true ->
  isaIndexType (getType index) = true ->
  (getReachableAffineApplyOps [index] = [] ->
   exists b, isAccessInvariant iv index diags = Some (b, diags) /\
             (b = true <-> index <> iv)) /\
  (forall composeOp,
      getReachableAffineApplyOps [index] = [composeOp] ->
      exists b, isAccessInvariant iv index diags = Some (b, diags) /\
                (b = true <-> isFunctionOf composeOp 0 iv = false)) /\
  (forall first second rest,
      getReachableAffineApplyOps [index] = first :: second :: rest ->
      exists remark,
        severity remark = Remark /\ diagOp remark = first /\
        isAccessInvariant iv index diags = Some (false, diags ++ [remark])).
Proof.
  intros Hiv Hty. unfold isAccessInvariant, bind, assert_, emit, modify, ret.
  rewrite Hiv, Hty. split; [|split].
  - intros ->. eexists. split; [reflexivity|].
    rewrite negb_true_iff, Nat.eqb_neq. reflexivity.
  - intros composeOp ->. simpl. eexists. split; [reflexivity|].
    apply negb_true_iff.
  - intros first second rest ->. simpl. eexists.
    split; [|split]; cycle 2; reflexivity.
Qed.

(** *** Contiguity *)

Definition TrivialLayout (layoutMap : list AffineMap) : Prop :=
  layoutMap = [] \/
  exists m, layoutMap = [m] /\ m = getMultiDimIdentityMap (getNumDims m).

Lemma nonTrivialLayout_false layoutMap :
  nonTrivialLayout layoutMap = false <-> TrivialLayout layoutMap.
Proof.
  unfold nonTrivialLayout, TrivialLayout.
  destruct layoutMap as [|m [|m' rest]]; simpl.
  - split; auto.
  - rewrite negb_false_iff, bool_decide_eq_true. split.
    + intros Hm. right. exists m. auto.
    + intros [Hnil|(m0 & [= <-] & Hm)]; [discriminate|assumption].
  - split; [discriminate|].
    intros [Hnil|(m0 & Hm & _)]; discriminate.
Qed.

Section IndicesLoop.
Context `{LoopIR}.
Variable iv : Value.

Lemma indicesLoop_invariant indices :
  Forall (Invariant iv) indices ->
  forall dim unique diags, exists diags',
    indicesLoop iv indices dim unique diags = Some (Some unique, diags').
Proof.
  induction 1 as [|index rest Hinv _ IH]; intros dim unique diags; simpl.
  - unfold ret. eauto.
  - destruct (Hinv diags) as [diags1 Hrun].
    rewrite (bind_Some _ _ _ _ _ Hrun). simpl. apply IH.
Qed.

Lemma indicesLoop_second indices : forall y unique,
  unique <> -1 ->
  Forall (fun index => Invariant iv index \/ Varies iv index) indices ->
  In y indices -> Varies iv y ->
  forall dim diags, exists diags',
    indicesLoop iv indices dim unique diags = Some (None, diags').
Proof.
  induction indices as [|index rest IH];
    intros y unique Hu Hcls Hin Hy dim diags; [destruct Hin|].
  inversion Hcls as [|? ? Hhead Hrest]; subst. simpl.
  assert (Hvar : Varies iv index ->
                 exists diags',
                   indicesLoop iv (index :: rest) dim unique diags
                   = Some (None, diags')).
  { intros Hv. destruct (Hv diags) as [diags1 Hrun]. simpl.
    rewrite (bind_Some _ _ _ _ _ Hrun). simpl.
    destruct (Z.eqb_spec unique (-1)); [contradiction|]. simpl.
    unfold ret. eauto. }
  destruct Hhead as [Hinv|Hv]; [|exact (Hvar Hv)].
  destruct Hin as [->|Hin].
  - exact (Hvar Hy).
  - destruct (Hinv diags) as [diags1 Hrun].
    rewrite (bind_Some _ _ _ _ _ Hrun). simpl. eapply IH; eassumption.
Qed.

Lemma indicesLoop_unique pre : forall index post dim diags,
  Forall (Invariant iv) pre -> Varies iv index -> Forall (Invariant iv) post ->
  0 <= dim -> dim + Z.of_nat (length pre) <= INT_MAX ->
  exists diags',
    indicesLoop iv (pre ++ index :: post) dim (-1) diags
    = Some (Some (dim + Z.of_nat (length pre)), diags').
Proof.
  induction pre as [|p pre IH];
    intros index post dim diags Hpre Hv Hpost Hdim Hbound.
  - simpl. destruct (Hv diags) as [diags1 Hrun].
    rewrite (bind_Some _ _ _ _ _ Hrun). simpl.
    rewrite to_int_id by (unfold INT_MAX in *; simpl in Hbound; lia).
    rewrite Z.add_0_r. apply indicesLoop_invariant. assumption.
  - inversion Hpre as [|? ? Hp Hpre']; subst. simpl length in *. simpl app.
    simpl indicesLoop. destruct (Hp diags) as [diags1 Hrun].
    rewrite (bind_Some _ _ _ _ _ Hrun). cbn [negb].
    rewrite to_unsigned_id by (unfold INT_MAX in *; lia).
    destruct (IH index post (dim + 1) diags1) as [diags' Hloop];
      try assumption; try lia.
    exists diags'. rewrite Hloop. do 3 f_equal. lia.
Qed.

Lemma indicesLoop_two l1 : forall x l2 y l3 dim diags,
  Forall (fun index => Invariant iv index \/ Varies iv index)
         (l1 ++ x :: l2 ++ y :: l3) ->
  Varies iv x -> Varies iv y ->
  0 <= dim -> dim + Z.of_nat (length l1) <= INT_MAX ->
  exists diags',
    indicesLoop iv (l1 ++ x :: l2 ++ y :: l3) dim (-1) diags
    = Some (None, diags').
Proof.
  induction l1 as [|h l1 IH]; intros x l2 y l3 dim diags Hcls Hx Hy Hdim Hbound.
  - simpl. destruct (Hx diags) as [diags1 Hrun].
    rewrite (bind_Some _ _ _ _ _ Hrun). simpl.
    inversion Hcls; subst.
    apply (indicesLoop_second _ y); try assumption.
    + rewrite to_int_id by (unfold INT_MAX in *; simpl in Hbound; lia). lia.
    + apply in_or_app. right. left. reflexivity.
  - simpl length in *. simpl app. simpl indicesLoop.
    inversion Hcls as [|? ? Hhead Hrest]; subst.
    destruct Hhead as [Hinv|Hv].
    + destruct (Hinv diags) as [diags1 Hrun].
      rewrite (bind_Some _ _ _ _ _ Hrun). cbn [negb].
      rewrite to_unsigned_id by (unfold INT_MAX in *; lia).
      apply IH; try assumption; lia.
    + destruct (Hv diags) as [diags1 Hrun].
      rewrite (bind_Some _ _ _ _ _ Hrun). simpl.
      apply (indicesLoop_second _ x); try assumption.
      * rewrite to_int_id by (unfold INT_MAX in *; lia). lia.
      * apply in_or_app. right. left. reflexivity.
Qed.

End IndicesLoop.

(** C2: for an access whose layout is absent or the identity,
    [isContiguousAccess] answers true with [dim = -1] when no index varies
    with the induction variable, true with [dim] the distance of the
    varying index from the last one when exactly one varies, and false when
    two or more vary; an access with another layout is rejected.  On a
    false answer [*memRefDim] keeps its contents. *)
Theorem isContiguousAccess_cases `{LoopIR} (iv : Value) (memoryOp : Op)
    (memRefDim : Z) (diags : Diags) :
  let indices := getIndices memoryOp in
  let layoutMap := getAffineMaps (getMemRefType memoryOp) in
  isForInductionVar iv = true ->
  Forall IndexTyped indices ->
  Z.of_nat (length indices) <= INT_MAX ->
  (~ TrivialLayout layoutMap ->
   exists diags',
     isContiguousAccess iv memoryOp memRefDim diags
     = Some ((false, memRefDim), diags')) /\
  (TrivialLayout layoutMap ->
   (Forall (Invariant iv) indices ->
    exists diags',
      isContiguousAccess iv memoryOp memRefDim diags
      = Some ((true, -1), diags')) /\
   (forall pre index post,
       indices = pre ++ index :: post ->
       Forall (Invariant iv) pre -> Varies iv index ->
       Forall (Invariant iv) post ->
       exists diags',
         isContiguousAccess iv memoryOp memRefDim diags
         = Some ((true, Z.of_nat (length indices)
                        - Z.of_nat (length pre) - 1), diags')) /\
   (forall l1 x l2 y l3,
       indices = l1 ++ x :: l2 ++ y :: l3 ->
       Varies iv x -> Varies iv y ->
       exists diags',
         isContiguousAccess iv memoryOp memRefDim diags
         = Some ((false, memRefDim), diags'))).
Proof.
  intros indices layoutMap Hiv Hty Hlen. unfold isContiguousAccess.
  fold indices. fold layoutMap. split.
  - intros Hlayout.
    destruct (nonTrivialLayout layoutMap) eqn:Hnt.
    + unfold bind, emit, modify, ret. eauto.
    + apply nonTrivialLayout_false in Hnt. contradiction.
  - intros Hlayout. apply nonTrivialLayout_false in Hlayout. rewrite Hlayout.
    split; [|split].
    + intros Hinv.
      destruct (indicesLoop_invariant iv indices Hinv 0 (-1) diags)
        as [diags' Hloop].
      rewrite (bind_Some _ _ _ _ _ Hloop). simpl. unfold ret. eauto.
    + intros pre index post Heq Hpre Hv Hpost.
      assert (Hlen' : Z.of_nat (length indices)
                      = Z.of_nat (length pre) + 1 + Z.of_nat (length post)).
      { rewrite Heq, length_app. simpl. lia. }
      destruct (indicesLoop_unique iv pre index post 0 diags)
        as [diags' Hloop]; try assumption; try lia.
      rewrite <- Heq, Z.add_0_l in Hloop.
      rewrite (bind_Some _ _ _ _ _ Hloop).
      destruct (Z.eqb_spec (Z.of_nat (length pre)) (-1)); [lia|].
      unfold ret. exists diags'. do 3 f_equal.
      unfold INT_MAX in Hlen.
      rewrite (to_unsigned_id (Z.of_nat (length indices))) by lia.
      rewrite (to_int_id (Z.of_nat (length pre) + 1))
        by (unfold INT_MAX; lia).
      rewrite (to_unsigned_id (Z.of_nat (length pre) + 1)) by lia.
      rewrite to_unsigned_id by lia.
      rewrite to_int_id by (unfold INT_MAX; lia). lia.
    + intros l1 x l2 y l3 Heq Hx Hy.
      assert (Hcls : Forall (fun index => Invariant iv index \/ Varies iv index)
                            indices).
      { eapply Forall_impl; [exact Hty|]. intros index Hindex.
        apply Invariant_or_Varies; assumption. }
      rewrite Heq in Hcls.
      destruct (indicesLoop_two iv l1 x l2 y l3 0 diags Hcls Hx Hy)
        as [diags' Hloop]; [lia| |].
      * assert (Z.of_nat (length l1) < Z.of_nat (length indices)); [|lia].
        rewrite Heq, length_app. simpl. lia.
      * rewrite <- Heq in Hloop.
        rewrite (bind_Some _ _ _ _ _ Hloop). unfold ret. eauto.
Qed.

(** *** Vectorizability of a loop body *)

Lemma match_nonempty `{LoopIR} filter op c :
  In c (walk op) -> filter c = true -> isEmpty (match_ filter op) = false.
Proof.
  intros Hin Hf. unfold match_.
  assert (In c (List.filter filter (walk op))) as Hc
    by (apply filter_In; auto).
  destruct (List.filter filter (walk op)); [destruct Hc|reflexivity].
Qed.

(** An operation that vetoes the vectorization of the loop around it: a
    conditional, an operation of an unrecognized kind that holds regions,
    or a vector transfer. *)
Definition Veto `{LoopIR} (c : Op) : Prop :=
  isa AffineIfOp c = true \/
  (getNumRegions c <> O /\
   isa AffineIfOp c = false /\ isa AffineForOp_ c = false) \/
  isa VectorTransferReadOp c = true \/
  isa VectorTransferWriteOp c = true.

(** C3: one vetoing operation anywhere under the loop makes the loop body
    not vectorizable, whatever its loads and stores are and whatever the
    additional per-operation condition is. *)
Theorem vectorizable_veto `{LoopIR} (loop : AffineForOp) (c : Op) :
  In c (walk (getOperation loop)) ->
  Veto c ->
  forall (memRefDim : Z) (diags : Diags),
    isVectorizableLoopBody_dim loop memRefDim diags
    = Some ((false, memRefDim), diags) /\
    isVectorizableLoopBody loop diags = Some (false, diags) /\
    (forall isVectorizableOp,
        isVectorizableLoopBodyWithOpCond loop isVectorizableOp memRefDim diags
        = Some ((false, memRefDim), diags)).
Proof.
  intros Hin Hveto memRefDim diags.
  assert (Hcond : forall isVectorizableOp dim,
             isVectorizableLoopBodyWithOpCond loop isVectorizableOp dim diags
             = Some ((false, dim), diags)).
  { intros isVectorizableOp dim. unfold isVectorizableLoopBodyWithOpCond.
    destruct (isEmpty (match_ (isa AffineIfOp) (getOperation loop)))
      eqn:Hif; [|reflexivity].
    simpl negb. cbv iota.
    match goal with
    | |- context [isEmpty (match_ ?f (getOperation loop))] =>
        destruct (isEmpty (match_ f (getOperation loop))) eqn:Hreg
    end; [|reflexivity].
    simpl negb. cbv iota.
    destruct (isEmpty (match_ isVectorTransferReadOrWrite (getOperation loop)))
      eqn:Hvt; [|reflexivity].
    exfalso. destruct Hveto as [Hc|[(Hn & Hnif & Hnfor)|[Hc|Hc]]].
    - rewrite (match_nonempty _ _ c Hin Hc) in Hif. discriminate.
    - rewrite (match_nonempty _ _ c Hin) in Hreg; [discriminate|].
      rewrite Hnif, Hnfor. simpl.
      destruct (Nat.eqb_spec (getNumRegions c) 0); [contradiction|reflexivity].
    - rewrite (match_nonempty _ _ c Hin) in Hvt; [discriminate|].
      unfold isVectorTransferReadOrWrite. rewrite Hc. reflexivity.
    - rewrite (match_nonempty _ _ c Hin) in Hvt; [discriminate|].
      unfold isVectorTransferReadOrWrite. rewrite Hc. apply orb_true_r. }
  split; [|split].
  - apply Hcond.
  - unfold isVectorizableLoopBody. rewrite (bind_Some _ _ _ _ _ (Hcond None 0)).
    reflexivity.
  - intros isVectorizableOp. apply Hcond.
Qed.

(** *** A concrete IR

    The induction variable is the value [0].  The values [0] and [1] have
    no [affine.apply] above them; [2] is computed by the [affine.apply]
    [20], a function of the induction variable; [3] by [30], which is not;
    [4] by two of them.  The loop [100] holds the load [101], of indices
    [1; 0], and the store [102], of indices [0; 0]; the loop [200] holds
    the load [101] under the conditional [103]. *)
#[global] Instance exampleIR : LoopIR := {|
  getType := fun _ => IndexType;
  isForInductionVar := fun v => Nat.eqb v 0;
  getReachableAffineApplyOps := fun values =>
    match values with
    | [2%nat] => [20%nat]
    | [3%nat] => [30%nat]
    | [4%nat] => [40%nat; 41%nat]
    | _ => []
    end;
  isFunctionOf := fun op _ _ => Nat.eqb op 20;
  classof := fun op =>
    match op with
    | 100%nat | 200%nat => AffineForOp_
    | 101%nat => LoadOp
    | 102%nat => StoreOp
    | 103%nat => AffineIfOp
    | 20%nat | 30%nat | 40%nat | 41%nat => AffineApplyOp
    | _ => OtherOp
    end;
  getNumRegions := fun op =>
    match op with
    | 100%nat | 200%nat => 1%nat
    | 103%nat => 2%nat
    | _ => 0%nat
    end;
  walk := fun op =>
    match op with
    | 100%nat => [101; 102; 100]%nat
    | 200%nat => [101; 103; 200]%nat
    | 103%nat => [101; 103]%nat
    | _ => [op]
    end;
  getMemRefType := fun _ => {| getAffineMaps := []; getElementType := FloatType |};
  getIndices := fun op =>
    match op with
    | 101%nat => [1; 0]%nat
    | 102%nat => [0; 0]%nat
    | _ => []
    end
|}.

Definition loop_example (op : Op) : AffineForOp := {|
  getOperation := op; getLoc := 0%nat; getStep := 1;
  getLowerBoundMap := getConstantAffineMap 0;
  getUpperBoundMap := getConstantAffineMap 10;
  getLowerBoundOperands := []; getUpperBoundOperands := [];
  getInductionVar := 0%nat; getBody := 0%nat
|}.

Lemma isAccessInvariant_cases_witness :
  exists remark,
    severity remark = Remark /\ diagOp remark = 40%nat /\
    isAccessInvariant 0%nat 4%nat [] = Some (false, [] ++ [remark]).
Proof.
  destruct (isAccessInvariant_cases (H:=exampleIR) 0%nat 4%nat [])
    as (_ & _ & Hmany); [reflexivity|reflexivity|].
  exact (Hmany 40%nat 41%nat [] eq_refl).
Defined.

(** The load whose innermost index alone varies is contiguous along
    dimension [0]. *)
Lemma isContiguousAccess_cases_witness :
  exists diags',
    isContiguousAccess 0%nat 101%nat 5 [] = Some ((true, 0), diags').
Proof.
  destruct (isContiguousAccess_cases (H:=exampleIR) 0%nat 101%nat 5 [])
    as (_ & Htrivial).
  - reflexivity.
  - repeat constructor.
  - simpl. unfold INT_MAX. lia.
  - destruct Htrivial as (_ & Hone & _); [left; reflexivity|].
    apply (Hone [1%nat] 0%nat []).
    + reflexivity.
    + constructor; [|constructor]. intros diags. eexists. vm_compute.
      reflexivity.
    + intros diags. eexists. vm_compute. reflexivity.
    + constructor.
Defined.

Example both_indices_vary :
  isContiguousAccess 0%nat 102%nat 5 [] = Some ((false, 5), []).
Proof. reflexivity. Qed.

Lemma vectorizable_veto_witness :
  isVectorizableLoopBody (loop_example 200%nat) [] = Some (false, []).
Proof.
  apply (vectorizable_veto (H:=exampleIR) (loop_example 200%nat) 103%nat).
  - simpl. auto.
  - left. reflexivity.
  - exact 0.
Defined.

Example loop_100_body :
  isVectorizableLoopBody (loop_example 100%nat) [] = Some (true, []).
Proof. reflexivity. Qed.

End LoopAnalysis.

(** ** [llvm::DenseMap] keyed by pointers *)

Module DenseMap.

(** [DenseMap::try_emplace]: the entry is added only when the key is
    absent. *)
Definition try_emplace {V} (key : nat) (value : V) (m : gmap nat V)
  : gmap nat V :=
  match m !! key with
  | Some _ => m
  | None => <[key := value]> m
  end.

Lemma try_emplace_keeps {V} key (value : V) (m : gmap nat V) k v :
  m !! k = Some v -> try_emplace key value m !! k = Some v.
Proof.
  intros Hk. unfold try_emplace. destruct (m !! key) eqn:Hkey; [assumption|].
  rewrite lookup_insert_ne; [assumption|]. intros ->. congruence.
Qed.

Lemma try_emplace_present {V} key (value : V) (m : gmap nat V) :
  is_Some (try_emplace key value m !! key).
Proof.
  unfold try_emplace. destruct (m !! key) eqn:Hkey.
  - rewrite Hkey. eauto.
  - rewrite lookup_insert_eq. eauto.
Qed.

Lemma try_emplace_absent {V} key (value : V) (m : gmap nat V) :
  m !! key = None -> try_emplace key value m = <[key := value]> m.
Proof. unfold try_emplace. intros ->. reflexivity. Qed.

End DenseMap.

(** ** The IR graph

    Operations, blocks and regions form an ownership tree; the code moves
    in it through the parent pointers.  The arena gives, for each handle,
    the fields the analyses read. *)

Module IRGraph.

Record Graph := {
  (** [Operation::getBlock]: the block that holds the operation. *)
  op_block : Op -> Block;
  (** [Operation::orderIndex], valid for the block. *)
  op_orderIndex : Op -> nat;
  (** [Operation::getResult(i)] for [i < getNumResults()]. *)
  op_results : Op -> list Value;
  (** [Operation::getRegions]. *)
  op_regions : Op -> list Region;
  (** [Block::getParent]: the region that holds the block. *)
  block_parent : Block -> Region;
  (** [Block::getOperations], in program order. *)
  block_operations : Block -> list Op;
  (** [Region::getContainingOp]: null for the body of a function. *)
  region_containingOp : Region -> option Op;
  (** The blocks of a region; [Region::empty] tests this list. *)
  region_blocks : Region -> list Block;
  (** [Value::getUsers]. *)
  value_users : Value -> list Op;
  (** The successors of the terminator of a block,
      [getSuccessor(i)] for [i < getNumSuccessors()]. *)
  block_successors : Block -> list Block
}.

Section Graph.
Variable G : Graph.

(** Modelled from the spec: [Operation::getParentOp], "the closest
    surrounding operation that contains this operation or nullptr if this
    is a top-level operation". *)
Definition getParentOp (op : Op) : option Op :=
  region_containingOp G (block_parent G (op_block G op)).

(** Modelled from the spec: [Operation::isBeforeInBlock], for two
    operations of one block, the comparison of their order indices. *)
Definition isBeforeInBlock (op other : Op) : bool :=
  Nat.ltb (op_orderIndex G op) (op_orderIndex G other).

(** Modelled from the spec: [Block::findAncestorInstInBlock], the "nearest
    containing operation" of [op] that lies in [block], found by going up
    through the parent operations; the inner [None] is the null pointer
    returned when the top is reached.  The outer [None]: the number of
    steps allowed is exhausted. *)
Fixpoint findAncestorInstInBlock (fuel : nat) (block : Block) (op : Op)
  : option (option Op) :=
  match fuel with
  | O => None
  | S fuel' =>
      if Nat.eqb (op_block G op) block then Some (Some op)
      else match getParentOp op with
           | None => Some None
           | Some currInst => findAncestorInstInBlock fuel' block currInst
           end
  end.

(** The ancestor of [op] in [block], as a relation. *)
Inductive AncestorInBlock (block : Block) : Op -> Op -> Prop :=
| ancestor_here op :
    op_block G op = block -> AncestorInBlock block op op
| ancestor_up op parent anc :
    op_block G op <> block ->
    getParentOp op = Some parent ->
    AncestorInBlock block parent anc ->
    AncestorInBlock block op anc.

(** The nesting of regions is well founded: a measure on regions
    decreases from a region to the region around its containing
    operation. *)
Definition Nesting (depth : Region -> nat) : Prop :=
  forall region op,
    region_containingOp G region = Some op ->
    depth (block_parent G (op_block G op)) < depth region.

Definition op_region (op : Op) : Region := block_parent G (op_block G op).

Lemma AncestorInBlock_block block op anc :
  AncestorInBlock block op anc -> op_block G anc = block.
Proof. induction 1; assumption. Qed.

Lemma AncestorInBlock_functional block op anc anc' :
  AncestorInBlock block op anc -> AncestorInBlock block op anc' -> anc = anc'.
Proof.
  intros Hanc. revert anc'.
  induction Hanc as [op Hop|op parent anc Hop Hparent _ IH]; intros anc' Hanc'.
  - inversion Hanc'; subst; [reflexivity|contradiction].
  - inversion Hanc' as [|? parent' ? _ Hparent' Hrec]; subst; [contradiction|].
    rewrite Hparent in Hparent'. injection Hparent' as <-. apply IH, Hrec.
Qed.

Lemma AncestorInBlock_depth depth block op anc :
  Nesting depth ->
  AncestorInBlock block op anc ->
  anc = op \/ depth (op_region anc) < depth (op_region op).
Proof.
  intros Hnest. induction 1 as [op Hop|op parent anc Hop Hparent _ IH].
  - left. reflexivity.
  - right. apply Hnest in Hparent. fold (op_region parent) in Hparent.
    fold (op_region op) in Hparent. destruct IH as [->|IH]; lia.
Qed.

(** With enough fuel the search returns, and it returns the ancestor when
    there is one and null when there is none. *)
Lemma findAncestorInstInBlock_spec depth block :
  Nesting depth ->
  forall fuel op,
    depth (op_region op) < fuel ->
    (exists anc, findAncestorInstInBlock fuel block op = Some (Some anc) /\
                 AncestorInBlock block op anc) \/
    (findAncestorInstInBlock fuel block op = Some None /\
     forall anc, ~ AncestorInBlock block op anc).
Proof.
  intros Hnest. induction fuel as [|fuel IH]; intros op Hfuel; [lia|].
  simpl. destruct (Nat.eqb_spec (op_block G op) block) as [Heq|Hne].
  - left. exists op. split; [reflexivity|]. constructor. assumption.
  - destruct (getParentOp op) as [parent|] eqn:Hparent.
    + pose proof (Hnest _ _ Hparent) as Hlt.
      fold (op_region parent) in Hlt. fold (op_region op) in Hlt.
      destruct (IH parent ltac:(lia)) as [(anc & Hfind & Hanc)|(Hfind & Hnone)].
      * left. exists anc. split; [assumption|].
        econstructor; eassumption.
      * right. split; [assumption|]. intros anc Hanc.
        inversion Hanc as [|? parent' ? _ Hparent' Hrec]; subst;
          [contradiction|].
        rewrite Hparent in Hparent'. injection Hparent' as <-.
        exact (Hnone _ Hrec).
    + right. split; [reflexivity|]. intros anc Hanc.
      inversion Hanc; subst; [contradiction|congruence].
Qed.

(** *** Control flow within a region

    Modelled from the spec: "block A dominates B if every control-flow
    path reaching B passes through A; properly excludes A = B".  A path
    starts at the entry block of the region, the first of its blocks, and
    follows successors; it is recorded with the blocks it visits. *)
Inductive Path (entry : Block) : list Block -> Block -> Prop :=
| path_entry : Path entry [entry] entry
| path_step visited b succ :
    Path entry visited b ->
    In succ (block_successors G b) ->
    Path entry (visited ++ [succ]) succ.

Definition Reachable (entry b : Block) : Prop :=
  exists visited, Path entry visited b.

Definition ProperlyDominatesSpec (entry a b : Block) : Prop :=
  a <> b /\ forall visited, Path entry visited b -> In a visited.

Lemma Path_last entry visited b : Path entry visited b -> In b visited.
Proof.
  destruct 1; [left; reflexivity|]. apply in_or_app. right. left. reflexivity.
Qed.

(** A block visited before the end of a path is reached by a shorter
    path. *)
Lemma Path_prefix entry visited b :
  Path entry visited b ->
  forall c, In c visited -> c <> b ->
  exists visited', Path entry visited' c /\ length visited' < length visited.
Proof.
  induction 1 as [|visited b succ Hpath IH Hsucc]; intros c Hin Hne.
  - destruct Hin as [->|[]]. contradiction.
  - apply in_app_or in Hin. destruct Hin as [Hin|[->|[]]]; [|contradiction].
    rewrite length_app. simpl.
    destruct (Nat.eq_dec c b) as [->|Hcb].
    + exists visited. split; [assumption|lia].
    + destruct (IH c Hin Hcb) as (visited' & Hpath' & Hlt).
      exists visited'. split; [assumption|lia].
Qed.

(** Two distinct blocks of which one is reachable do not properly dominate
    each other. *)
Lemma ProperlyDominatesSpec_asymmetric entry a b :
  Reachable entry a \/ Reachable entry b ->
  ProperlyDominatesSpec entry a b ->
  ProperlyDominatesSpec entry b a ->
  False.
Proof.
  intros Hreach [Hne Hab] [_ Hba].
  assert (Hboth : forall n visited,
             length visited <= n ->
             (Path entry visited a -> False) /\
             (Path entry visited b -> False)).
  { induction n as [|n IH]; intros visited Hlen.
    - split; intros Hpath; apply Path_last in Hpath;
        destruct visited; [destruct Hpath|simpl in Hlen; lia
                          |destruct Hpath|simpl in Hlen; lia].
    - split; intros Hpath.
      + destruct (Path_prefix _ _ _ Hpath b (Hba _ Hpath) ltac:(congruence))
          as (visited' & Hpath' & Hlt).
        destruct (IH visited' ltac:(lia)) as [Ha Hb]; auto.
      + destruct (Path_prefix _ _ _ Hpath a (Hab _ Hpath) Hne)
          as (visited' & Hpath' & Hlt).
        destruct (IH visited' ltac:(lia)) as [Ha Hb]; auto. }
  destruct Hreach as [[visited Hpath]|[visited Hpath]];
    destruct (Hboth (length visited) visited ltac:(lia)) as [Ha Hb]; auto.
Qed.

(** From an entry block without successors no other block is reached. *)
Lemma Path_no_successors entry visited b :
  block_successors G entry = [] ->
  Path entry visited b -> visited = [entry] /\ b = entry.
Proof.
  intros Hnone. induction 1 as [|visited b succ _ IH Hsucc]; [auto|].
  destruct IH as [_ ->]. rewrite Hnone in Hsucc. destruct Hsucc.
Qed.

End Graph.
End IRGraph.

(** ** [lib/Analysis/Dominance.cpp] *)

Module Dominance.
Import IRGraph DenseMap.

(** The dominator tree of one region, [llvm::DominatorTreeBase<Block,
    IsPostDom>]: its construction from a region and its
    [properlyDominates] query belong to LLVM and are taken as an
    interface. *)
Class DominatorTreeBase (Tree : Type) := {
  tree_recalculate : bool -> Region -> Tree;
  tree_properlyDominates : Tree -> Block -> Block -> bool
}.

Section DominanceInfoBase.
Context {Tree : Type} `{DominatorTreeBase Tree}.
Variable G : Graph.

(** The template parameter of [DominanceInfoBase]. *)
Variable IsPostDom : bool.

(** A function: its body and [Function::walk], the operations under the
    body in post-order. *)
Record Function := {
  fn_body : Region;
  fn_walk : list Op
}.

(** The body of the loop over the regions of an operation: no tree is
    computed for an empty region. *)
Definition recalculateRegion (dominanceInfos : gmap Region Tree)
    (region : Region) : gmap Region Tree :=
  if isEmpty (region_blocks G region) then dominanceInfos
  else try_emplace region (tree_recalculate IsPostDom region) dominanceInfos.

(** The callback of the walk in [recalculate]. *)
Definition recalculateOp (dominanceInfos : gmap Region Tree) (op : Op)
  : gmap Region Tree :=
  fold_left recalculateRegion (op_regions G op) dominanceInfos.

(** [DominanceInfoBase::recalculate] on a function: the member
    [dominanceInfos] after the call. *)
Definition recalculate (function : Function) : gmap Region Tree :=
  let dominanceInfos : gmap Region Tree := ∅ in
  let dominanceInfos :=
    try_emplace (fn_body function)
                (tree_recalculate IsPostDom (fn_body function))
                dominanceInfos in
  fold_left recalculateOp (fn_walk function) dominanceInfos.

Variable dominanceInfos : gmap Region Tree.

(** The outcome of the [do ... while] loop of [properlyDominates]: the walk
    left through the top, or stopped at [bAncestor] whose block lies in
    [regionA]. *)
Inductive WalkResult :=
| ExitTop
| Reached (bAncestor : Op).

Fixpoint walkUp (fuel : nat) (regionA regionB : Region) : option WalkResult :=
  match fuel with
  | O => None
  | S fuel' =>
      match region_containingOp G regionB with
      | None => Some ExitTop
      | Some bAncestor =>
          let regionB' := block_parent G (op_block G bAncestor) in
          if negb (Nat.eqb regionA regionB') then walkUp fuel' regionA regionB'
          else Some (Reached bAncestor)
      end
  end.

(** The end of [properlyDominates]: the dominator tree of [regionA], or
    true when there is none. *)
Definition standardDominance (regionA : Region) (a b : Block) : bool :=
  match dominanceInfos !! regionA with
  | None => true
  | Some baseInfo => tree_properlyDominates baseInfo a b
  end.

(** [DominanceInfoBase<IsPostDom>::properlyDominates] on two blocks. *)
Definition properlyDominates (fuel : nat) (a b : Block) : option bool :=
  if Nat.eqb a b then Some false
  else
    let regionA := block_parent G a in
    let regionB := block_parent G b in
    if negb (Nat.eqb regionA regionB) then
      match walkUp fuel regionA regionB with
      | None => None
      | Some ExitTop => Some IsPostDom
      | Some (Reached bAncestor) =>
          let b := op_block G bAncestor in
          if Nat.eqb a b then Some true
          else Some (standardDominance regionA a b)
      end
    else Some (standardDominance regionA a b).

(** Modelled from the spec: [dominates] on two blocks, of [Dominance.h];
    "properly" excludes [a = b]. *)
Definition dominates (fuel : nat) (a b : Block) : option bool :=
  if Nat.eqb a b then Some true else properlyDominates fuel a b.

(** The walk of [properlyDominates] as a relation: from [regionB] up
    through the block of each containing operation, until [regionA] is
    reached or there is no containing operation. *)
Inductive Climb (regionA : Region) : Region -> WalkResult -> Prop :=
| climb_top regionB :
    region_containingOp G regionB = None ->
    Climb regionA regionB ExitTop
| climb_reached regionB bAncestor :
    region_containingOp G regionB = Some bAncestor ->
    block_parent G (op_block G bAncestor) = regionA ->
    Climb regionA regionB (Reached bAncestor)
| climb_step regionB bAncestor result :
    region_containingOp G regionB = Some bAncestor ->
    block_parent G (op_block G bAncestor) <> regionA ->
    Climb regionA (block_parent G (op_block G bAncestor)) result ->
    Climb regionA regionB result.

Lemma walkUp_Climb depth regionA :
  Nesting G depth ->
  forall fuel regionB,
    depth regionB < fuel ->
    exists result,
      walkUp fuel regionA regionB = Some result /\
      Climb regionA regionB result.
Proof.
  intros Hnest. induction fuel as [|fuel IH]; intros regionB Hfuel; [lia|].
  simpl. destruct (region_containingOp G regionB) as [bAncestor|] eqn:Hop.
  - destruct (Nat.eqb_spec regionA (block_parent G (op_block G bAncestor)))
      as [Heq|Hne]; simpl.
    + exists (Reached bAncestor). split; [reflexivity|].
      apply climb_reached; auto.
    + pose proof (Hnest _ _ Hop) as Hlt.
      destruct (IH (block_parent G (op_block G bAncestor)) ltac:(lia))
        as (result & Hwalk & Hclimb).
      exists result. split; [assumption|].
      eapply climb_step; eauto.
  - exists ExitTop. split; [reflexivity|]. constructor. assumption.
Qed.

(** A walk that reaches [regionA] has gone strictly up. *)
Lemma Climb_depth depth regionA regionB bAncestor :
  Nesting G depth ->
  Climb regionA regionB (Reached bAncestor) ->
  block_parent G (op_block G bAncestor) = regionA /\
  depth regionA < depth regionB.
Proof.
  intros Hnest Hclimb.
  remember (Reached bAncestor) as result eqn:Hres.
  induction Hclimb as [regionB Hop|regionB anc Hop Hreg
                      |regionB anc result Hop Hreg Hclimb IH].
  - discriminate.
  - injection Hres as ->. split; [assumption|].
    apply Hnest in Hop. rewrite Hreg in Hop. assumption.
  - destruct (IH Hres) as [Hblock Hlt]. split; [assumption|].
    apply Hnest in Hop. lia.
Qed.

End DominanceInfoBase.

Arguments Function : clear implicits.

(** *** Dominance between blocks of different regions *)

(** C7: for two blocks in different regions the query walks up from the
    region of [b]; when the walk leaves through the top the answer is
    [IsPostDom] (true for post-dominance, false for dominance); when it
    stops at an ancestor whose block is [a] the answer is true; otherwise
    the answer is true when the region of [a] has no dominator tree, and
    that of the tree on [a] and the block of the ancestor when it has
    one. *)
Theorem properlyDominates_across_regions {Tree} `{DominatorTreeBase Tree}
    (G : Graph) (IsPostDom : bool) (dominanceInfos : gmap Region Tree)
    (depth : Region -> nat) (fuel : nat) (a b : Block) :
  Nesting G depth ->
  depth (block_parent G b) < fuel ->
  block_parent G a <> block_parent G b ->
  exists result,
    Climb G (block_parent G a) (block_parent G b) result /\
    match result with
    | ExitTop =>
        properlyDominates G IsPostDom dominanceInfos fuel a b = Some IsPostDom
    | Reached bAncestor =>
        (op_block G bAncestor = a ->
         properlyDominates G IsPostDom dominanceInfos fuel a b = Some true) /\
        (dominanceInfos !! block_parent G a = None ->
         properlyDominates G IsPostDom dominanceInfos fuel a b = Some true) /\
        (forall baseInfo,
            op_block G bAncestor <> a ->
            dominanceInfos !! block_parent G a = Some baseInfo ->
            properlyDominates G IsPostDom dominanceInfos fuel a b
            = Some (tree_properlyDominates baseInfo a (op_block G bAncestor)))
    end.
Proof.
  intros Hnest Hfuel Hregions.
  destruct (walkUp_Climb G depth (block_parent G a) Hnest fuel
              (block_parent G b) Hfuel) as (result & Hwalk & Hclimb).
  exists result. split; [assumption|].
  assert (Hab : Nat.eqb a b = false).
  { apply Nat.eqb_neq. intros ->. contradiction. }
  unfold properlyDominates. rewrite Hab.
  apply Nat.eqb_neq in Hregions. rewrite Hregions. simpl. rewrite Hwalk.
  destruct result as [|bAncestor]; [reflexivity|].
  split; [|split].
  - intros <-. rewrite Nat.eqb_refl. reflexivity.
  - intros Hnone. unfold standardDominance. rewrite Hnone.
    destruct (Nat.eqb a (op_block G bAncestor)); reflexivity.
  - intros baseInfo Hne Hsome. unfold standardDominance. rewrite Hsome.
    destruct (Nat.eqb_spec a (op_block G bAncestor)); [congruence|reflexivity].
Qed.

(** *** Dominance between operations *)

Section DominanceInfo.
Context {Tree : Type} `{DominatorTreeBase Tree}.
Variable G : Graph.
Variable dominanceInfos : gmap Region Tree.

(** Modelled from the spec: [dominates] on two operations, of
    [Dominance.h], [a == b || properlyDominates(a, b)]: "properly" excludes
    [a = b]. *)
Definition dominatesOpWith (properly : Op -> Op -> option bool) (a b : Op)
  : option bool :=
  if Nat.eqb a b then Some true else properly a b.

(** [DominanceInfo::properlyDominates] on two operations.  The recursion
    through [dominates] is bounded by [fuel], which also bounds the walks
    up the regions. *)
Fixpoint properlyDominatesOp (fuel : nat) (a b : Op) : option bool :=
  match fuel with
  | O => None
  | S fuel' =>
      let aBlock := op_block G a in
      let bBlock := op_block G b in
      if Nat.eqb aBlock bBlock then Some (isBeforeInBlock G a b)
      else
        match findAncestorInstInBlock G (S fuel') aBlock b with
        | None => None
        | Some (Some bAncestor) =>
            dominatesOpWith (properlyDominatesOp fuel') a bAncestor
        | Some None =>
            properlyDominates G false dominanceInfos (S fuel') aBlock bBlock
        end
  end.

Definition dominatesOp (fuel : nat) (a b : Op) : option bool :=
  dominatesOpWith (properlyDominatesOp fuel) a b.

End DominanceInfo.

(** The operations of a function sit in the body or in a region of another
    operation of the function, and the block of each is one of the blocks
    of its region. *)
Record FunctionWF (G : Graph) (function : Function) : Prop := {
  wf_region : forall op,
    In op (fn_walk function) ->
    op_region G op = fn_body function \/
    exists parent, In parent (fn_walk function) /\
                   In (op_region G op) (op_regions G parent);
  wf_block : forall op,
    In op (fn_walk function) ->
    In (op_block G op) (region_blocks G (op_region G op))
}.

(** The dominator tree built for dominance ([IsPostDom = false]) answers
    as the dominance relation of the control flow of its region. *)
Definition TreeCorrect {Tree} `{DominatorTreeBase Tree} (G : Graph) : Prop :=
  forall region entry rest a b,
    region_blocks G region = entry :: rest ->
    (tree_properlyDominates (tree_recalculate false region) a b = true <->
     ProperlyDominatesSpec G entry a b).

(** The block of [op] is reachable from the entry block of its region. *)
Definition OpReachable (G : Graph) (op : Op) : Prop :=
  exists entry rest,
    region_blocks G (op_region G op) = entry :: rest /\
    Reachable G entry (op_block G op).

Section Recalculate.
Context {Tree : Type} `{DominatorTreeBase Tree}.
Variable G : Graph.
Variable IsPostDom : bool.

(** Every entry of the map is the tree of its key. *)
Definition TreesOfKeys (infos : gmap Region Tree) : Prop :=
  forall region tree,
    infos !! region = Some tree -> tree = tree_recalculate IsPostDom region.

Lemma try_emplace_TreesOfKeys region infos :
  TreesOfKeys infos ->
  TreesOfKeys (try_emplace region (tree_recalculate IsPostDom region) infos).
Proof.
  intros Hinv r t. unfold try_emplace.
  destruct (infos !! region) eqn:Hregion; [apply Hinv|].
  destruct (decide (region = r)) as [Heq|Hne].
  - subst r. rewrite lookup_insert_eq. intros [= <-]. reflexivity.
  - rewrite lookup_insert_ne by assumption. apply Hinv.
Qed.

Lemma fold_left_keeps {A V} (f : gmap nat V -> A -> gmap nat V) l :
  (forall m x k v, m !! k = Some v -> f m x !! k = Some v) ->
  forall m k v, m !! k = Some v -> fold_left f l m !! k = Some v.
Proof.
  intros Hf. induction l as [|x l IH]; intros m k v Hk; simpl; auto.
Qed.

Lemma fold_left_present {A V} (f : gmap nat V -> A -> gmap nat V) l x k :
  (forall m x k v, m !! k = Some v -> f m x !! k = Some v) ->
  In x l ->
  (forall m, is_Some (f m x !! k)) ->
  forall m, is_Some (fold_left f l m !! k).
Proof.
  intros Hf Hin Hx. induction l as [|y l IH]; intros m; [destruct Hin|].
  simpl. destruct Hin as [->|Hin].
  - destruct (Hx m) as [v Hv]. exists v.
    apply fold_left_keeps; assumption.
  - apply IH. assumption.
Qed.

Lemma fold_left_invariant {A V} (P : gmap nat V -> Prop)
    (f : gmap nat V -> A -> gmap nat V) l :
  (forall m x, P m -> P (f m x)) ->
  forall m, P m -> P (fold_left f l m).
Proof.
  intros Hf. induction l as [|x l IH]; intros m Hm; simpl; auto.
Qed.

Lemma recalculateRegion_keeps infos region k v :
  infos !! k = Some v -> recalculateRegion G IsPostDom infos region !! k = Some v.
Proof.
  intros Hk. unfold recalculateRegion.
  destruct (isEmpty (region_blocks G region)); [assumption|].
  apply try_emplace_keeps. assumption.
Qed.

Lemma recalculateOp_keeps infos op k v :
  infos !! k = Some v -> recalculateOp G IsPostDom infos op !! k = Some v.
Proof.
  apply fold_left_keeps. intros. apply recalculateRegion_keeps. assumption.
Qed.

Lemma recalculateOp_present infos op region :
  In region (op_regions G op) ->
  region_blocks G region <> [] ->
  is_Some (recalculateOp G IsPostDom infos op !! region).
Proof.
  intros Hin Hne. unfold recalculateOp.
  apply (fold_left_present _ _ region); [|assumption|].
  - intros. apply recalculateRegion_keeps. assumption.
  - intros m. unfold recalculateRegion.
    destruct (region_blocks G region); [contradiction|]. simpl.
    apply try_emplace_present.
Qed.

Lemma recalculate_TreesOfKeys function :
  TreesOfKeys (recalculate G IsPostDom function).
Proof.
  unfold recalculate. apply fold_left_invariant.
  - intros m op Hm. unfold recalculateOp. apply fold_left_invariant; [|exact Hm].
    intros m' region Hm'. unfold recalculateRegion.
    destruct (isEmpty (region_blocks G region)); [assumption|].
    apply try_emplace_TreesOfKeys. assumption.
  - apply try_emplace_TreesOfKeys. intros region tree.
    rewrite lookup_empty. discriminate.
Qed.

(** After [recalculate] the region of every operation of the function has
    its dominator tree. *)
Lemma recalculate_lookup function op :
  FunctionWF G function ->
  In op (fn_walk function) ->
  recalculate G IsPostDom function !! op_region G op
  = Some (tree_recalculate IsPostDom (op_region G op)).
Proof.
  intros Hwf Hin.
  assert (is_Some (recalculate G IsPostDom function !! op_region G op))
    as [tree Htree].
  { unfold recalculate.
    destruct (wf_region _ _ Hwf op Hin) as [Hbody|(parent & Hparent & Hreg)].
    - rewrite Hbody.
      destruct (try_emplace_present (fn_body function)
                  (tree_recalculate IsPostDom (fn_body function))
                  (∅ : gmap Region Tree)) as [tree Htree].
      exists tree. apply fold_left_keeps; [|assumption].
      intros. apply recalculateOp_keeps. assumption.
    - apply (fold_left_present _ _ parent); [|assumption|].
      + intros. apply recalculateOp_keeps. assumption.
      + intros m. apply recalculateOp_present; [assumption|].
        pose proof (wf_block _ _ Hwf op Hin) as Hblock.
        destruct (region_blocks G (op_region G op)); [destruct Hblock|].
        discriminate. }
  rewrite Htree. f_equal.
  exact (recalculate_TreesOfKeys function _ _ Htree).
Qed.

End Recalculate.

(** When the blocks of [a] and [b] differ and the region of [a] has its
    tree, the query on operations returns; it can only answer true when the
    region of [a] lies strictly above that of [b], or when both blocks are
    in one region and the tree says that the block of [a] properly
    dominates that of [b]. *)
Lemma properlyDominatesOp_true {Tree} `{DominatorTreeBase Tree}
    (G : Graph) (infos : gmap Region Tree) (depth : Region -> nat)
    (fuel : nat) (a b : Op) (tree : Tree) :
  Nesting G depth ->
  depth (op_region G b) < fuel -> 1 < fuel ->
  op_block G a <> op_block G b ->
  infos !! op_region G a = Some tree ->
  exists answer,
    properlyDominatesOp G infos fuel a b = Some answer /\
    (answer = true ->
     depth (op_region G a) < depth (op_region G b) \/
     (op_region G a = op_region G b /\
      tree_properlyDominates tree (op_block G a) (op_block G b) = true)).
Proof.
  intros Hnest Hfuel Hfuel2 Hblocks Htree.
  destruct fuel as [|fuel]; [lia|]. simpl.
  destruct (Nat.eqb_spec (op_block G a) (op_block G b)) as [?|_];
    [contradiction|].
  change (if Nat.eqb (op_block G b) (op_block G a) then Some (Some b)
          else match getParentOp G b with
               | Some currInst =>
                   findAncestorInstInBlock G fuel (op_block G a) currInst
               | None => Some None
               end)
    with (findAncestorInstInBlock G (S fuel) (op_block G a) b).
  destruct (findAncestorInstInBlock_spec G depth (op_block G a) Hnest
              (S fuel) b Hfuel) as [(anc & -> & Hanc)|(-> & _)].
  - assert (Hdepth : depth (op_region G a) < depth (op_region G b)).
    { pose proof (AncestorInBlock_block _ _ _ _ Hanc) as Hblock.
      destruct (AncestorInBlock_depth G depth _ _ _ Hnest Hanc) as [->|Hlt].
      - congruence.
      - unfold op_region in *. rewrite Hblock in Hlt. assumption. }
    unfold dominatesOpWith. destruct (Nat.eqb a anc).
    + eauto.
    + destruct fuel as [|fuel]; [lia|]. simpl.
      rewrite (AncestorInBlock_block _ _ _ _ Hanc), Nat.eqb_refl. eauto.
  - unfold properlyDominates.
    destruct (Nat.eqb_spec (op_block G a) (op_block G b)) as [?|_];
      [contradiction|].
    fold (op_region G a). fold (op_region G b).
    destruct (Nat.eqb_spec (op_region G a) (op_region G b)) as [Heq|Hne];
      simpl.
    + unfold standardDominance. fold (op_region G a). rewrite Htree.
      eexists. split; [reflexivity|]. intros Htrue. right. auto.
    + destruct (walkUp_Climb G depth (op_region G a) Hnest (S fuel)
                  (op_region G b) Hfuel) as (result & Hwalk & Hclimb).
      simpl in Hwalk. rewrite Hwalk.
      destruct result as [|bAncestor].
      * eexists. split; [reflexivity|]. discriminate.
      * destruct (Climb_depth G depth _ _ _ Hnest Hclimb) as [_ Hlt].
        destruct (Nat.eqb (op_block G a) (op_block G bAncestor)); eauto.
Qed.

(** Two operations in two distinct blocks of one region: the query is
    answered by the tree of the region. *)
Lemma properlyDominatesOp_siblings {Tree} `{DominatorTreeBase Tree}
    (G : Graph) (infos : gmap Region Tree) (depth : Region -> nat)
    (fuel : nat) (a b : Op) (tree : Tree) :
  Nesting G depth ->
  depth (op_region G b) < fuel -> 1 < fuel ->
  op_block G a <> op_block G b ->
  op_region G a = op_region G b ->
  infos !! op_region G a = Some tree ->
  properlyDominatesOp G infos fuel a b
  = Some (tree_properlyDominates tree (op_block G a) (op_block G b)).
Proof.
  intros Hnest Hfuel Hfuel2 Hblocks Hregion Htree.
  destruct fuel as [|fuel]; [lia|]. simpl.
  destruct (Nat.eqb_spec (op_block G a) (op_block G b)) as [?|_];
    [contradiction|].
  change (if Nat.eqb (op_block G b) (op_block G a) then Some (Some b)
          else match getParentOp G b with
               | Some currInst =>
                   findAncestorInstInBlock G fuel (op_block G a) currInst
               | None => Some None
               end)
    with (findAncestorInstInBlock G (S fuel) (op_block G a) b).
  destruct (findAncestorInstInBlock_spec G depth (op_block G a) Hnest
              (S fuel) b Hfuel) as [(anc & _ & Hanc)|(-> & _)].
  - exfalso.
    pose proof (AncestorInBlock_block _ _ _ _ Hanc) as Hblock.
    destruct (AncestorInBlock_depth G depth _ _ _ Hnest Hanc) as [->|Hlt].
    + congruence.
    + unfold op_region in *. rewrite Hblock, Hregion in Hlt. lia.
  - unfold properlyDominates.
    destruct (Nat.eqb_spec (op_block G a) (op_block G b)) as [?|_];
      [contradiction|].
    fold (op_region G a). fold (op_region G b).
    rewrite <- Hregion, Nat.eqb_refl. simpl.
    unfold standardDominance. fold (op_region G a). rewrite Htree.
    reflexivity.
Qed.

(** Two operations in two distinct blocks of one region, neither of which
    is reachable from the entry block of the region. *)
Definition UnreachableSiblings (G : Graph) (a b : Op) : Prop :=
  op_region G a = op_region G b /\
  (op_block G a <> op_block G b) /\
  ~ OpReachable G a /\ ~ OpReachable G b.

(** C8, as amended: after [recalculate] on a function, the dominance
    queries on two operations of the function return, and for two distinct
    operations they are not both true, unless the operations lie in two
    distinct blocks of one region that are both unreachable from the entry
    block of the region; for such a pair both queries are true.  Moreover
    no operation and no block properly dominates itself. *)
Theorem properlyDominatesOp_asymmetric {Tree} `{DominatorTreeBase Tree}
    (G : Graph) (function : Function) (depth : Region -> nat)
    (fuel : nat) (a b : Op) :
  Nesting G depth ->
  FunctionWF G function ->
  TreeCorrect G ->
  In a (fn_walk function) -> In b (fn_walk function) ->
  depth (op_region G a) < fuel -> depth (op_region G b) < fuel -> 1 < fuel ->
  let infos := recalculate G false function in
  exists ab ba,
    properlyDominatesOp G infos fuel a b = Some ab /\
    properlyDominatesOp G infos fuel b a = Some ba /\
    (a <> b -> ~ UnreachableSiblings G a b -> ~ (ab = true /\ ba = true)) /\
    (UnreachableSiblings G a b -> ab = true /\ ba = true) /\
    properlyDominatesOp G infos fuel a a = Some false /\
    properlyDominates G false infos fuel (op_block G a) (op_block G a)
    = Some false.
Proof.
  intros Hnest Hwf Htrees Ha Hb Hfa Hfb Hfuel infos.
  assert (Hself : properlyDominatesOp G infos fuel a a = Some false).
  { destruct fuel as [|fuel']; [lia|]. simpl.
    rewrite Nat.eqb_refl. unfold isBeforeInBlock.
    rewrite Nat.ltb_irrefl. reflexivity. }
  assert (Hblock : properlyDominates G false infos fuel
                     (op_block G a) (op_block G a) = Some false).
  { unfold properlyDominates. rewrite Nat.eqb_refl. reflexivity. }
  destruct (Nat.eq_dec (op_block G a) (op_block G b)) as [Hsame|Hdiff].
  - exists (isBeforeInBlock G a b), (isBeforeInBlock G b a).
    assert (Hab : properlyDominatesOp G infos fuel a b
                  = Some (isBeforeInBlock G a b)).
    { destruct fuel as [|fuel']; [lia|]. simpl.
      rewrite Hsame, Nat.eqb_refl. reflexivity. }
    assert (Hba : properlyDominatesOp G infos fuel b a
                  = Some (isBeforeInBlock G b a)).
    { destruct fuel as [|fuel']; [lia|]. simpl.
      rewrite Hsame, Nat.eqb_refl. reflexivity. }
    split; [assumption|]. split; [assumption|].
    split; [|split; [|split; assumption]].
    + clear Hab Hba. intros _ _ [Hab Hba]. unfold isBeforeInBlock in *.
      apply Nat.ltb_lt in Hab. apply Nat.ltb_lt in Hba. lia.
    + intros (_ & Hblocks & _). contradiction.
  - pose proof (recalculate_lookup G false function a Hwf Ha) as Hinfo_a.
    pose proof (recalculate_lookup G false function b Hwf Hb) as Hinfo_b.
    destruct (properlyDominatesOp_true G infos depth fuel a b _ Hnest Hfb
                Hfuel Hdiff Hinfo_a) as (ab & Hab & Hab_true).
    destruct (properlyDominatesOp_true G infos depth fuel b a _ Hnest Hfa
                Hfuel (not_eq_sym Hdiff) Hinfo_b) as (ba & Hba & Hba_true).
    exists ab, ba.
    split; [assumption|]. split; [assumption|].
    split; [|split; [|split; assumption]].
    + intros _ Hsiblings [-> ->].
      destruct (Hab_true eq_refl) as [Hlt|[Hregion Hdom_ab]];
        destruct (Hba_true eq_refl) as [Hlt'|[Hregion' Hdom_ba]];
        try lia; try (rewrite Hregion in *; lia);
        try (rewrite Hregion' in *; lia).
      pose proof (wf_block _ _ Hwf a Ha) as Hblocks.
      destruct (region_blocks G (op_region G a)) as [|entry rest] eqn:Hentry;
        [destruct Hblocks|].
      rewrite <- Hregion in Hdom_ba.
      apply (Htrees _ _ _ _ _ Hentry) in Hdom_ab.
      apply (Htrees _ _ _ _ _ Hentry) in Hdom_ba.
      apply Hsiblings. split; [assumption|]. split; [assumption|].
      split; intros (entry' & rest' & Hentry' & Hr).
      * rewrite Hentry in Hentry'. injection Hentry' as <- <-.
        apply (ProperlyDominatesSpec_asymmetric G entry
                 (op_block G a) (op_block G b)); auto.
      * rewrite <- Hregion, Hentry in Hentry'. injection Hentry' as <- <-.
        apply (ProperlyDominatesSpec_asymmetric G entry
                 (op_block G a) (op_block G b)); auto.
    + intros (Hregion & _ & Hunreach_a & Hunreach_b).
      rewrite (properlyDominatesOp_siblings G infos depth fuel a b _ Hnest
                 Hfb Hfuel Hdiff Hregion Hinfo_a) in Hab.
      rewrite (properlyDominatesOp_siblings G infos depth fuel b a _ Hnest
                 Hfa Hfuel (not_eq_sym Hdiff) (eq_sym Hregion) Hinfo_b) in Hba.
      injection Hab as <-. injection Hba as <-.
      pose proof (wf_block _ _ Hwf a Ha) as Hblocks.
      destruct (region_blocks G (op_region G a)) as [|entry rest] eqn:Hentry;
        [destruct Hblocks|].
      split.
      * apply (Htrees _ _ _ _ _ Hentry). split; [assumption|].
        intros visited Hpath. exfalso. apply Hunreach_b.
        exists entry, rest. rewrite <- Hregion. split; [assumption|].
        exists visited. assumption.
      * rewrite <- Hregion. apply (Htrees _ _ _ _ _ Hentry).
        split; [apply not_eq_sym; assumption|].
        intros visited Hpath. exfalso. apply Hunreach_a.
        exists entry, rest. split; [assumption|].
        exists visited. assumption.
Qed.

(** *** A concrete function

    The body, region [0], has the blocks [0] and [1], the first branching
    to the second.  Block [0] holds the operations [10; 11; 12], block [1]
    the operation [13].  Operation [11] holds the region [1], whose only
    block [2] holds the operations [20; 21].  Each operation defines one
    value, numbered as the operation; the value [10] is used by [20] and
    [12], the value [20] by [21]. *)
Definition exampleGraph : Graph := {|
  op_block := fun op =>
    match op with
    | 10 | 11 | 12 => 0 | 13 => 1 | 20 | 21 => 2 | _ => 3
    end;
  op_orderIndex := fun op =>
    match op with
    | 10 => 0 | 11 => 1 | 12 => 2 | 13 => 0 | 20 => 0 | 21 => 1 | _ => 0
    end;
  op_results := fun op => [op];
  op_regions := fun op => match op with 11 => [1] | _ => [] end;
  block_parent := fun block =>
    match block with 0 | 1 => 0 | 2 => 1 | _ => 2 end;
  block_operations := fun block =>
    match block with
    | 0 => [10; 11; 12] | 1 => [13] | 2 => [20; 21] | _ => []
    end;
  region_containingOp := fun region =>
    match region with 1 => Some 11 | _ => None end;
  region_blocks := fun region =>
    match region with 0 => [0; 1] | 1 => [2] | _ => [] end;
  value_users := fun value =>
    match value with 10 => [20; 12] | 20 => [21] | _ => [] end;
  block_successors := fun block => match block with 0 => [1] | _ => [] end
|}.

Definition exampleDepth (region : Region) : nat :=
  match region with 1 => 1 | _ => 0 end.

Lemma exampleGraph_Nesting : Nesting exampleGraph exampleDepth.
Proof.
  intros region op. destruct region as [|[|region]]; simpl; try discriminate.
  intros [= <-]. simpl. lia.
Qed.

(** A dominator tree given by its relation: the tree of region [0] knows
    that block [0] properly dominates block [1] (and block [1] properly
    post-dominates block [0]); a block that no path from the entry reaches
    is properly dominated by every other block. *)
Definition TableTree : Type := bool * Region.

Definition tableEntry (region : Region) : Block :=
  match region with 0 => 0 | 1 => 2 | _ => 3 end.

Definition tableProperlyDominates (tree : TableTree) (a b : Block) : bool :=
  let (post, region) := tree in
  negb (Nat.eqb a b) &&
  match region with
  | 0 => if post then Nat.eqb a 1 && Nat.eqb b 0
         else negb (Nat.eqb b 0) && (negb (Nat.eqb b 1) || Nat.eqb a 0)
  | _ => negb (Nat.eqb b (tableEntry region))
  end.

#[global] Instance TableTree_DominatorTreeBase : DominatorTreeBase TableTree := {|
  tree_recalculate := fun post region => (post, region);
  tree_properlyDominates := tableProperlyDominates
|}.

Definition exampleFunction : Function :=
  {| fn_body := 0; fn_walk := [10; 20; 21; 11; 12; 13] |}.

Lemma properlyDominates_across_regions_witness :
  exists result,
    Climb exampleGraph 0 1 result /\
    match result with
    | ExitTop =>
        properlyDominates exampleGraph false
          (recalculate exampleGraph false exampleFunction) 5 0 2 = Some false
    | Reached bAncestor =>
        (op_block exampleGraph bAncestor = 0 ->
         properlyDominates exampleGraph false
           (recalculate exampleGraph false exampleFunction) 5 0 2 = Some true) /\
        (recalculate exampleGraph false exampleFunction !! 0 = None ->
         properlyDominates exampleGraph false
           (recalculate exampleGraph false exampleFunction) 5 0 2 = Some true) /\
        (forall baseInfo,
            op_block exampleGraph bAncestor <> 0 ->
            recalculate exampleGraph false exampleFunction !! 0 = Some baseInfo ->
            properlyDominates exampleGraph false
              (recalculate exampleGraph false exampleFunction) 5 0 2
            = Some (tree_properlyDominates baseInfo 0
                      (op_block exampleGraph bAncestor)))
    end.
Proof.
  apply (properlyDominates_across_regions exampleGraph false
           (recalculate exampleGraph false exampleFunction) exampleDepth 5 0 2).
  - exact exampleGraph_Nesting.
  - simpl. lia.
  - simpl. discriminate.
Defined.

Example block_0_dominates_nested_block_2 :
  properlyDominates exampleGraph false
    (recalculate exampleGraph false exampleFunction) 5 0 2 = Some true.
Proof. reflexivity. Qed.

Example nested_block_2_does_not_dominate_block_0 :
  properlyDominates exampleGraph false
    (recalculate exampleGraph false exampleFunction) 5 2 0 = Some false
  /\ properlyDominates exampleGraph true
       (recalculate exampleGraph true exampleFunction) 5 2 0 = Some true.
Proof. split; reflexivity. Qed.

Lemma exampleGraph_paths visited b :
  Path exampleGraph 0 visited b ->
  (visited = [0] /\ b = 0) \/ (visited = [0; 1] /\ b = 1).
Proof.
  induction 1 as [|visited b succ _ IH Hsucc]; [auto|].
  destruct IH as [[-> ->]|[-> ->]]; simpl in Hsucc.
  - destruct Hsucc as [<-|[]]. auto.
  - destruct Hsucc.
Qed.

Lemma exampleGraph_TreeCorrect : TreeCorrect exampleGraph.
Proof.
  intros region entry rest a b Hblocks.
  destruct region as [|[|region]]; simpl in Hblocks; try discriminate;
    injection Hblocks as <- <-; simpl; unfold ProperlyDominatesSpec.
  - destruct (Nat.eqb_spec a b) as [Hab|Hab]; simpl;
      [split; [discriminate|tauto]|].
    destruct (Nat.eqb_spec b 0) as [->|Hb0]; simpl.
    + split; [discriminate|]. intros [_ Hall].
      destruct (Hall [0] (path_entry _ _)) as [<-|[]]. contradiction.
    + destruct (Nat.eqb_spec b 1) as [->|Hb1]; simpl.
      * destruct (Nat.eqb_spec a 0) as [->|Ha0].
        -- split; [|reflexivity]. intros _. split; [assumption|].
           intros visited Hpath.
           destruct (exampleGraph_paths _ _ Hpath) as [[_ ?]|[-> _]];
             [discriminate|left; reflexivity].
        -- split; [discriminate|]. intros [_ Hall].
           assert (Path exampleGraph 0 ([0] ++ [1]) 1) as Hpath.
           { apply (path_step _ _ _ 0); [constructor|left; reflexivity]. }
           destruct (Hall _ Hpath) as [<-|[<-|[]]]; contradiction.
      * split; [|reflexivity]. intros _. split; [assumption|].
        intros visited Hpath.
        destruct (exampleGraph_paths _ _ Hpath) as [[_ ?]|[_ ?]]; contradiction.
  - destruct (Nat.eqb_spec a b) as [Hab|Hab]; simpl;
      [split; [discriminate|tauto]|].
    destruct (Nat.eqb_spec b 2) as [->|Hb2]; simpl.
    + split; [discriminate|]. intros [_ Hall].
      destruct (Hall [2] (path_entry _ _)) as [<-|[]]. contradiction.
    + split; [|reflexivity]. intros _. split; [assumption|].
      intros visited Hpath.
      apply Path_no_successors in Hpath; [|reflexivity].
      destruct Hpath as [_ ?]. contradiction.
Qed.

Lemma exampleGraph_FunctionWF : FunctionWF exampleGraph exampleFunction.
Proof.
  split; intros op Hin; simpl in Hin;
    repeat (destruct Hin as [<-|Hin]; [simpl; auto 10|]); try destruct Hin.
  - right. exists 11. simpl. auto 10.
  - right. exists 11. simpl. auto 10.
Qed.

(** Operation [10] of the entry block properly dominates operation [13]
    of block [1], and not the other way round: the two are distinct, and
    the block of [10] is the entry block, which is reachable. *)
Lemma properlyDominatesOp_asymmetric_witness :
  (10 <> 13 /\ ~ UnreachableSiblings exampleGraph 10 13) /\
  exists ab ba,
    properlyDominatesOp exampleGraph
      (recalculate exampleGraph false exampleFunction) 5 10 13 = Some ab /\
    properlyDominatesOp exampleGraph
      (recalculate exampleGraph false exampleFunction) 5 13 10 = Some ba /\
    (10 <> 13 -> ~ UnreachableSiblings exampleGraph 10 13 ->
     ~ (ab = true /\ ba = true)) /\
    (UnreachableSiblings exampleGraph 10 13 -> ab = true /\ ba = true) /\
    properlyDominatesOp exampleGraph
      (recalculate exampleGraph false exampleFunction) 5 10 10 = Some false /\
    properlyDominates exampleGraph false
      (recalculate exampleGraph false exampleFunction) 5
      (op_block exampleGraph 10) (op_block exampleGraph 10) = Some false.
Proof.
  split.
  { split; [discriminate|]. intros (_ & _ & Hunreachable & _).
    apply Hunreachable. exists 0, [1]. split; [reflexivity|].
    exists [0]. constructor. }
  apply (properlyDominatesOp_asymmetric exampleGraph exampleFunction
           exampleDepth 5 10 13).
  - exact exampleGraph_Nesting.
  - exact exampleGraph_FunctionWF.
  - exact exampleGraph_TreeCorrect.
  - simpl. auto 10.
  - simpl. auto 10.
  - simpl. lia.
  - simpl. lia.
  - lia.
Defined.

Example op_10_dominates_op_13 :
  properlyDominatesOp exampleGraph
    (recalculate exampleGraph false exampleFunction) 5 10 13 = Some true /\
  properlyDominatesOp exampleGraph
    (recalculate exampleGraph false exampleFunction) 5 13 10 = Some false /\
  properlyDominatesOp exampleGraph
    (recalculate exampleGraph false exampleFunction) 5 11 20 = Some true /\
  properlyDominatesOp exampleGraph
    (recalculate exampleGraph false exampleFunction) 5 20 11 = Some false.
Proof. repeat split. Qed.

(** *** A function with unreachable blocks

    The body, region [2], has the blocks [3], [4] and [5], none of which
    has a successor: the blocks [4] and [5] are not reachable from the
    entry block [3].  They hold the operations [30], [40] and [50]. *)
Definition unreachableGraph : Graph := {|
  op_block := fun op => match op with 30 => 3 | 40 => 4 | 50 => 5 | _ => 6 end;
  op_orderIndex := fun _ => 0;
  op_results := fun op => [op];
  op_regions := fun _ => [];
  block_parent := fun block => match block with 3 | 4 | 5 => 2 | _ => 3 end;
  block_operations := fun block =>
    match block with 3 => [30] | 4 => [40] | 5 => [50] | _ => [] end;
  region_containingOp := fun _ => None;
  region_blocks := fun region => match region with 2 => [3; 4; 5] | _ => [] end;
  value_users := fun _ => [];
  block_successors := fun _ => []
|}.

Definition unreachableFunction : Function :=
  {| fn_body := 2; fn_walk := [30; 40; 50] |}.

Lemma unreachableGraph_TreeCorrect : TreeCorrect unreachableGraph.
Proof.
  intros region entry rest a b Hblocks.
  destruct region as [|[|[|region]]]; simpl in Hblocks; try discriminate.
  injection Hblocks as <- <-. simpl. unfold ProperlyDominatesSpec.
  destruct (Nat.eqb_spec a b) as [Hab|Hab]; simpl;
    [split; [discriminate|tauto]|].
  destruct (Nat.eqb_spec b 3) as [->|Hb3]; simpl.
  - split; [discriminate|]. intros [_ Hall].
    destruct (Hall [3] (path_entry _ _)) as [<-|[]]. contradiction.
  - split; [|reflexivity]. intros _. split; [assumption|].
    intros visited Hpath.
    apply Path_no_successors in Hpath; [|reflexivity].
    destruct Hpath as [_ ?]. contradiction.
Qed.

Lemma unreachableGraph_FunctionWF :
  FunctionWF unreachableGraph unreachableFunction.
Proof.
  split; intros op Hin; simpl in Hin;
    repeat (destruct Hin as [<-|Hin]; [simpl; auto 10|]); destruct Hin.
Qed.

(** The operations [40] and [50] are such a pair: two distinct blocks of the
    body, neither reachable from its entry block. *)
Example ops_40_50_unreachable_siblings :
  UnreachableSiblings unreachableGraph 40 50.
Proof.
  split; [reflexivity|]. split; [simpl; discriminate|].
  split; intros (entry & rest & Hentry & visited & Hpath);
    simpl in Hentry; injection Hentry as <- <-;
    apply Path_no_successors in Hpath; try reflexivity;
    destruct Hpath as [_ ?]; discriminate.
Qed.

(** C8, as stated, fails on two operations in two unreachable blocks of
    one region: no path reaches either block, so each block is properly
    dominated by the other, and both queries answer true. *)
Lemma unreachable_blocks_dominate_each_other :
  Nesting unreachableGraph (fun _ => 0) /\
  FunctionWF unreachableGraph unreachableFunction /\
  TreeCorrect unreachableGraph /\
  In 40 (fn_walk unreachableFunction) /\
  In 50 (fn_walk unreachableFunction) /\
  40 <> 50 /\
  properlyDominatesOp unreachableGraph
    (recalculate unreachableGraph false unreachableFunction) 5 40 50
  = Some true /\
  properlyDominatesOp unreachableGraph
    (recalculate unreachableGraph false unreachableFunction) 5 50 40
  = Some true.
Proof.
  split; [intros region op; discriminate|].
  split; [exact unreachableGraph_FunctionWF|].
  split; [exact unreachableGraph_TreeCorrect|].
  simpl. repeat split; auto; discriminate.
Qed.

End Dominance.

(** ** [lib/Analysis/LoopAnalysis.cpp]: validity of operation-wise shifts *)

Module InstwiseShift.
Import MathExtras IRGraph DenseMap TripCount.
Local Open Scope Z_scope.

Section InstwiseShift.
Variable G : Graph.

(** [llvm::enumerate]: each element with its position. *)
Definition enumerate {A} (l : list A) : list (nat * A) :=
  combine (seq 0 (length l)) l.

(** The loop over the users of one result.  [Some false] is the
    [return false] of the function, [Some true] the normal end of the
    loop, [None] the failed [assert] on the map (or the exhaustion of
    [fuel] in the search for the ancestor). *)
Fixpoint usersLoop (fuel : nat) (forBody : Block) (forBodyShift : gmap Op Z)
    (shift : Z) (users : list Op) : option bool :=
  match users with
  | [] => Some true
  | user :: rest =>
      match findAncestorInstInBlock G fuel forBody user with
      | None => None
      | Some None => usersLoop fuel forBody forBodyShift shift rest
      | Some (Some ancInst) =>
          match forBodyShift !! ancInst with
          | None => None
          | Some ancShift =>
              if negb (shift =? ancShift) then Some false
              else usersLoop fuel forBody forBodyShift shift rest
          end
      end
  end.

(** The loop over the results of one operation. *)
Fixpoint resultsLoop (fuel : nat) (forBody : Block) (forBodyShift : gmap Op Z)
    (shift : Z) (results : list Value) : option bool :=
  match results with
  | [] => Some true
  | result :: rest =>
      match usersLoop fuel forBody forBodyShift shift
                      (value_users G result) with
      | Some true => resultsLoop fuel forBody forBodyShift shift rest
      | other => other
      end
  end.

(** The loop over the operations of the body, last operation first;
    [it] is the position in the reversed list. *)
Fixpoint opsLoop (fuel : nat) (forBody : Block) (shifts : list Z)
    (enumerated : list (nat * Op)) (forBodyShift : gmap Op Z) : option bool :=
  match enumerated with
  | [] => Some true
  | (it, op) :: rest =>
      let index := (length shifts - it - 1)%nat in
      match shifts !! index with
      | None => None
      | Some shift =>
          let forBodyShift := try_emplace op shift forBodyShift in
          match resultsLoop fuel forBody forBodyShift shift
                            (op_results G op) with
          | Some true => opsLoop fuel forBody shifts rest forBodyShift
          | other => other
          end
      end
  end.

(** [isInstwiseShiftValid]; [None] is a failed assertion. *)
Definition isInstwiseShiftValid (fuel : nat) (forOp : AffineForOp)
    (shifts : list Z) : option bool :=
  let forBody := getBody forOp in
  let operations := block_operations G forBody in
  if negb (Nat.eqb (length shifts) (length operations)) then None
  else opsLoop fuel forBody shifts (enumerate (rev operations)) ∅.

End InstwiseShift.

Section ShiftValid.
Variable G : Graph.
Variable depth : Region -> nat.
Variable fuel : nat.
Variable forBody : Block.
Variable shifts : list Z.

Hypothesis Hnest : Nesting G depth.
Hypothesis Hfuel : forall op, (depth (op_region G op) < fuel)%nat.

Lemma usersLoop_spec (forBodyShift : gmap Op Z) (shift : Z) (users : list Op) :
  (forall user anc,
      In user users -> AncestorInBlock G forBody user anc ->
      is_Some (forBodyShift !! anc)) ->
  exists ok,
    usersLoop G fuel forBody forBodyShift shift users = Some ok /\
    (ok = true <->
     forall user anc,
       In user users -> AncestorInBlock G forBody user anc ->
       forBodyShift !! anc = Some shift).
Proof.
  induction users as [|user rest IH]; intros Hmap; simpl.
  - exists true. split; [reflexivity|]. split; [intros _ ? ? []|reflexivity].
  - destruct IH as (ok & Hrest & Hok).
    { intros u anc Hin. apply Hmap. right. assumption. }
    destruct (findAncestorInstInBlock_spec G depth forBody Hnest fuel user
                (Hfuel user)) as [(anc & -> & Hanc)|(-> & Hnone)].
    + destruct (Hmap user anc (or_introl eq_refl) Hanc) as [ancShift Hshift].
      rewrite Hshift. destruct (Z.eqb_spec shift ancShift) as [<-|Hne]; simpl.
      * exists ok. split; [assumption|]. rewrite Hok. split.
        -- intros Hall u a [<-|Hin] Ha; [|eauto].
           rewrite (AncestorInBlock_functional G _ _ _ _ Ha Hanc). assumption.
        -- intros Hall u a Hin. apply Hall. right. assumption.
      * exists false. split; [reflexivity|]. split; [discriminate|].
        intros Hall. specialize (Hall user anc (or_introl eq_refl) Hanc).
        congruence.
    + exists ok. split; [assumption|]. rewrite Hok. split.
      * intros Hall u a [<-|Hin] Ha; [|eauto]. destruct (Hnone _ Ha).
      * intros Hall u a Hin. apply Hall. right. assumption.
Qed.

Lemma resultsLoop_spec (forBodyShift : gmap Op Z) (shift : Z)
    (results : list Value) :
  (forall result user anc,
      In result results -> In user (value_users G result) ->
      AncestorInBlock G forBody user anc ->
      is_Some (forBodyShift !! anc)) ->
  exists ok,
    resultsLoop G fuel forBody forBodyShift shift results = Some ok /\
    (ok = true <->
     forall result user anc,
       In result results -> In user (value_users G result) ->
       AncestorInBlock G forBody user anc ->
       forBodyShift !! anc = Some shift).
Proof.
  induction results as [|result rest IH]; intros Hmap; simpl.
  - exists true. split; [reflexivity|]. split; [intros _ ? ? ? []|reflexivity].
  - destruct IH as (ok & Hrest & Hok).
    { intros r u anc Hin. apply Hmap. right. assumption. }
    destruct (usersLoop_spec forBodyShift shift (value_users G result))
      as (ok1 & -> & Hok1).
    { intros u anc. apply Hmap. left. reflexivity. }
    destruct ok1.
    + exists ok. split; [assumption|]. rewrite Hok. split.
      * intros Hall r u a [<-|Hin]; [|eauto]. apply Hok1. reflexivity.
      * intros Hall r u a Hin. apply Hall. right. assumption.
    + exists false. split; [reflexivity|]. split; [discriminate|].
      intros Hall. apply Hok1. intros u a. apply Hall. left. reflexivity.
Qed.

Variable ops : list Op.

Hypothesis Hlen : length shifts = length ops.
Hypothesis Hnodup : NoDup ops.

(** Definitions come before uses within the block: the ancestor in the
    block of a user of a result does not come before the operation that
    defines the result. *)
Definition DefBeforeUse : Prop :=
  forall i op result user anc,
    ops !! i = Some op ->
    In result (op_results G op) -> In user (value_users G result) ->
    AncestorInBlock G forBody user anc ->
    exists j, (i <= j)%nat /\ ops !! j = Some anc.

Hypothesis Hdef : DefBeforeUse.

(** The map holds the shifts of the operations from position [k] on. *)
Definition MapOf (k : nat) (m : gmap Op Z) : Prop :=
  forall op shift,
    m !! op = Some shift <->
    exists j, (k <= j)%nat /\ ops !! j = Some op /\ shifts !! j = Some shift.

(** The users in the block of the results of the operation at position [i]
    have the shift of that operation. *)
Definition SameShift (i : nat) : Prop :=
  forall j op result user anc,
    ops !! i = Some op ->
    In result (op_results G op) -> In user (value_users G result) ->
    AncestorInBlock G forBody user anc ->
    ops !! j = Some anc ->
    shifts !! j = shifts !! i.

Lemma MapOf_empty : MapOf (length ops) ∅.
Proof.
  clear Hnest Hfuel Hlen Hnodup Hdef. intros op shift. rewrite lookup_empty. split; [discriminate|].
  intros (j & Hj & Hop & _). apply lookup_lt_Some in Hop. lia.
Qed.

Lemma MapOf_insert k op shift m :
  ops !! k = Some op -> shifts !! k = Some shift ->
  MapOf (S k) m ->
  try_emplace op shift m = <[op := shift]> m /\
  MapOf k (<[op := shift]> m).
Proof.
  intros Hop Hshift Hmap.
  assert (m !! op = None) as Hnone.
  { destruct (m !! op) as [s|] eqn:Hm; [|reflexivity].
    apply Hmap in Hm. destruct Hm as (j & Hj & Hop' & _).
    pose proof (NoDup_lookup _ _ _ _ Hnodup Hop Hop'). lia. }
  split; [apply try_emplace_absent; assumption|].
  intros op' shift'. destruct (decide (op = op')) as [<-|Hne].
  - rewrite lookup_insert_eq. split.
    + intros [= <-]. exists k. auto.
    + intros (j & Hj & Hop' & Hshift').
      pose proof (NoDup_lookup _ _ _ _ Hnodup Hop Hop') as <-. congruence.
  - rewrite lookup_insert_ne by assumption. rewrite (Hmap op' shift'). split.
    + intros (j & Hj & Hrest). exists j. split; [lia|assumption].
    + intros (j & Hj & Hop' & Hshift'). exists j.
      split; [|auto]. destruct (decide (j = k)) as [->|]; [congruence|lia].
Qed.

Lemma opsLoop_spec pre : forall suf m,
  ops = pre ++ suf ->
  MapOf (length pre) m ->
  exists ok,
    opsLoop G fuel forBody shifts
            (combine (seq (length suf) (length pre)) (rev pre)) m = Some ok /\
    (ok = true <-> forall i, (i < length pre)%nat -> SameShift i).
Proof.
  induction pre as [|op pre IH] using rev_ind; intros suf m Hops Hmap.
  - exists true. split; [reflexivity|]. split; [|reflexivity].
    intros _ i Hi. simpl in Hi. lia.
  - rewrite rev_unit, length_app, Nat.add_1_r. simpl seq. simpl combine.
    assert (Hop : ops !! length pre = Some op).
    { rewrite Hops, <- app_assoc. apply list_lookup_middle. reflexivity. }
    assert (Hlt : (length pre < length shifts)%nat).
    { rewrite Hlen. apply lookup_lt_Some in Hop. assumption. }
    destruct (lookup_lt_is_Some_2 shifts (length pre) Hlt) as [shift Hshift].
    assert (Hindex : (length shifts - length suf - 1)%nat = length pre).
    { rewrite Hlen, Hops, !length_app. simpl. lia. }
    rewrite length_app, Nat.add_1_r in Hmap.
    destruct (MapOf_insert _ _ _ _ Hop Hshift Hmap) as [Hemplace Hmap'].
    cbn [opsLoop]. rewrite Hindex, Hshift. cbv zeta. rewrite Hemplace.
    destruct (resultsLoop_spec (<[op := shift]> m) shift (op_results G op))
      as (ok1 & -> & Hok1).
    { intros result user anc Hres Huser Hanc.
      destruct (Hdef _ _ _ _ _ Hop Hres Huser Hanc) as (j & Hj & Hj_op).
      destruct (lookup_lt_is_Some_2 shifts j) as [s Hs].
      { rewrite Hlen. apply lookup_lt_Some in Hj_op. assumption. }
      exists s. apply Hmap'. exists j. auto. }
    assert (Hsame : ok1 = true <-> SameShift (length pre)).
    { rewrite Hok1. split.
      - intros Hall j op' result user anc Hop' Hres Huser Hanc Hj.
        rewrite Hop in Hop'. injection Hop' as <-.
        specialize (Hall result user anc Hres Huser Hanc).
        apply Hmap' in Hall. destruct Hall as (j' & _ & Hj' & Hs').
        pose proof (NoDup_lookup _ _ _ _ Hnodup Hj Hj') as ->. congruence.
      - intros Hall result user anc Hres Huser Hanc.
        destruct (Hdef _ _ _ _ _ Hop Hres Huser Hanc) as (j & Hj & Hj_op).
        apply Hmap'. exists j. split; [assumption|]. split; [assumption|].
        rewrite (Hall j op result user anc Hop Hres Huser Hanc Hj_op).
        assumption. }
    destruct ok1.
    + destruct (IH (op :: suf) (<[op := shift]> m)) as (ok & Hloop & Hok).
      { rewrite Hops, <- app_assoc. reflexivity. }
      { assumption. }
      simpl length in Hloop. exists ok. split; [assumption|].
      rewrite Hok. split.
      * intros Hall i Hi. destruct (decide (i = length pre)) as [->|Hne].
        -- apply Hsame. reflexivity.
        -- apply Hall. lia.
      * intros Hall i Hi. apply Hall. lia.
    + exists false. split; [reflexivity|]. split; [discriminate|].
      intros Hall. apply Hsame, Hall. lia.
Qed.

End ShiftValid.

(** C6: on a body whose definitions come before their uses, the check
    returns, and it returns true exactly when every user, within the body
    block, of a result of a body operation is given the shift of the
    operation that defines the result; the user counts through its
    ancestor in the body block, and a user without such an ancestor is not
    constrained. *)
Theorem isInstwiseShiftValid_iff (G : Graph) (depth : Region -> nat)
    (fuel : nat) (forOp : AffineForOp) (shifts : list Z) :
  let forBody := getBody forOp in
  let ops := block_operations G forBody in
  Nesting G depth ->
  (forall op, (depth (op_region G op) < fuel)%nat) ->
  length shifts = length ops ->
  NoDup ops ->
  DefBeforeUse G forBody ops ->
  exists valid,
    isInstwiseShiftValid G fuel forOp shifts = Some valid /\
    (valid = true <->
     forall i j op result user anc,
       ops !! i = Some op ->
       In result (op_results G op) -> In user (value_users G result) ->
       AncestorInBlock G forBody user anc ->
       ops !! j = Some anc ->
       shifts !! j = shifts !! i).
Proof.
  intros forBody ops Hnest Hfuel Hlen Hnodup Hdef.
  destruct (opsLoop_spec G depth fuel forBody shifts Hnest Hfuel ops Hlen
              Hnodup Hdef ops [] ∅) as (ok & Hloop & Hok).
  - rewrite app_nil_r. reflexivity.
  - apply MapOf_empty.
  - exists ok. split.
    + unfold isInstwiseShiftValid. fold forBody. fold ops.
      rewrite Hlen, Nat.eqb_refl. simpl negb. cbv iota.
      unfold enumerate. rewrite length_rev. exact Hloop.
    + rewrite Hok. unfold SameShift. split.
      * intros Hall i j op result user anc Hop. eapply Hall; [|eassumption].
        apply lookup_lt_Some in Hop. assumption.
      * intros Hall i _ j op result user anc. apply Hall.
Qed.

(** The loop [11] of the concrete function, of body block [2] with the
    operations [20; 21]; the value defined by [20] is used by [21]. *)
Definition exampleLoop : AffineForOp := {|
  getOperation := 11%nat; getLoc := 0%nat; getStep := 1;
  getLowerBoundMap := Affine.getConstantAffineMap 0;
  getUpperBoundMap := Affine.getConstantAffineMap 10;
  getLowerBoundOperands := []; getUpperBoundOperands := [];
  getInductionVar := 0%nat; getBody := 2%nat
|}.

Lemma exampleLoop_DefBeforeUse :
  DefBeforeUse Dominance.exampleGraph 2%nat [20; 21]%nat.
Proof.
  intros i op result user anc Hop Hres Huser Hanc.
  destruct i as [|[|i]]; simpl in Hop; try discriminate;
    injection Hop as <-; simpl in Hres; destruct Hres as [<-|[]];
    simpl in Huser; [|destruct Huser].
  destruct Huser as [<-|[]]. exists 1%nat. split; [lia|].
  assert (AncestorInBlock Dominance.exampleGraph 2 21 21) as Hhere
    by (constructor; reflexivity).
  rewrite (AncestorInBlock_functional _ _ _ _ _ Hanc Hhere). reflexivity.
Qed.

Lemma isInstwiseShiftValid_iff_witness :
  exists valid,
    isInstwiseShiftValid Dominance.exampleGraph 5 exampleLoop [2; 2]
    = Some valid /\
    (valid = true <->
     forall i j op result user anc,
       [20; 21]%nat !! i = Some op ->
       In result (op_results Dominance.exampleGraph op) ->
       In user (value_users Dominance.exampleGraph result) ->
       AncestorInBlock Dominance.exampleGraph 2%nat user anc ->
       [20; 21]%nat !! j = Some anc ->
       [2; 2] !! j = [2; 2] !! i).
Proof.
  apply (isInstwiseShiftValid_iff Dominance.exampleGraph
           Dominance.exampleDepth 5 exampleLoop [2; 2]).
  - exact Dominance.exampleGraph_Nesting.
  - intros op. unfold Dominance.exampleDepth.
    destruct (op_region Dominance.exampleGraph op) as [|[|region]]; lia.
  - reflexivity.
  - apply (bool_decide_unpack _). vm_compute. exact I.
  - exact exampleLoop_DefBeforeUse.
Defined.

Example equal_shifts_are_valid :
  isInstwiseShiftValid Dominance.exampleGraph 5 exampleLoop [2; 2] = Some true.
Proof. reflexivity. Qed.

Example different_shifts_are_invalid :
  isInstwiseShiftValid Dominance.exampleGraph 5 exampleLoop [0; 1] = Some false.
Proof. reflexivity. Qed.

End InstwiseShift.

(** ** Trip counts: the constant trip count and its divisor

    Further properties of [getConstantTripCount] and
    [getLargestDivisorOfTripCount] of [lib/Analysis/LoopAnalysis.cpp], and
    of the way they use [buildTripCountMapAndOperands]. *)

Module TripCountFacts.
Import MathExtras Affine TripCount.
Local Open Scope Z_scope.

(** The divisor [getLargestDivisorOfTripCount] takes for a constant
    result. *)
Definition constantDivisor (value : Z) : Z :=
  if to_uint64 value =? 0 then UINT64_MAX else to_uint64 value.

Lemma constantLoop_constants vs : forall t,
  constantLoop (map AffineConstantExpr vs) (Some t)
  = Some (Some (fold_left Z.min (map to_uint64 vs) t)).
Proof.
  induction vs as [|v vs IH]; intros t; simpl; [reflexivity|].
  apply IH.
Qed.

Lemma constantLoop_not_constant results : forall e tripCount,
  In e results -> (forall v, e <> AffineConstantExpr v) ->
  constantLoop results tripCount = None.
Proof.
  induction results as [|r rest IH]; intros e tripCount Hin Hne.
  - destruct Hin.
  - destruct Hin as [->|Hin].
    + destruct e; simpl; try reflexivity. exfalso. eapply Hne. reflexivity.
    + destruct r; simpl; try reflexivity.
      destruct tripCount; eapply IH; eassumption.
Qed.

Lemma constants_or_not (results : list AffineExpr) :
  (exists vs, results = map AffineConstantExpr vs) \/
  (exists e, In e results /\ forall v, e <> AffineConstantExpr v).
Proof.
  induction results as [|r rest [[vs ->]|(e & Hin & Hne)]].
  - left. exists []. reflexivity.
  - destruct r as [p|p|v|k l r'].
    + right. eexists. split; [left; reflexivity|discriminate].
    + right. eexists. split; [left; reflexivity|discriminate].
    + left. exists (v :: vs). reflexivity.
    + right. eexists. split; [left; reflexivity|discriminate].
  - right. exists e. split; [right; assumption|assumption].
Qed.

Lemma fold_min_le l : forall t,
  fold_left Z.min l t <= t /\ forall x, In x l -> fold_left Z.min l t <= x.
Proof.
  induction l as [|y l IH]; intros t; simpl.
  - split; [lia|intros x []].
  - destruct (IH (Z.min t y)) as [Ht Hl]. split; [lia|].
    intros x [<-|Hin]; [lia|auto].
Qed.

Lemma fold_min_in l : forall t,
  fold_left Z.min l t = t \/ In (fold_left Z.min l t) l.
Proof.
  induction l as [|y l IH]; intros t; simpl; [left; reflexivity|].
  destruct (IH (Z.min t y)) as [Heq|Hin]; [|right; right; assumption].
  rewrite Heq. destruct (Z.min_spec t y) as [[_ ->]|[_ ->]]; auto.
Qed.

(** The loop of [getConstantTripCount] on a list of results: the minimum
    of the constants, as [uint64_t] values, when all the results are
    constants and there is one at least. *)
Lemma constantLoop_minimum results :
  exists tripCount,
    match constantLoop results None with Some t => t | None => None end
    = tripCount /\
    forall n, tripCount = Some n <->
      (exists v, In (AffineConstantExpr v) results /\ n = to_uint64 v) /\
      (forall e, In e results ->
         exists v, e = AffineConstantExpr v /\ n <= to_uint64 v).
Proof.
  eexists. split; [reflexivity|]. intros n.
  destruct (constants_or_not results) as [[vs ->]|(e & Hin & Hne)].
  - destruct vs as [|v0 vs].
    + simpl. split; [discriminate|]. intros [(v & [] & _) _].
    + change (constantLoop (map AffineConstantExpr (v0 :: vs)) None)
        with (constantLoop (map AffineConstantExpr vs) (Some (to_uint64 v0))).
      rewrite constantLoop_constants.
      set (m := fold_left Z.min (map to_uint64 vs) (to_uint64 v0)).
      assert (exists v, In v (v0 :: vs) /\ m = to_uint64 v) as (vm & Hvm & Hm).
      { destruct (fold_min_in (map to_uint64 vs) (to_uint64 v0)) as [Heq|Hin].
        - exists v0. split; [left; reflexivity|exact Heq].
        - apply in_map_iff in Hin as (v & Hv & Hin).
          exists v. split; [right; assumption|]. symmetry. exact Hv. }
      assert (forall v, In v (v0 :: vs) -> m <= to_uint64 v) as Hle.
      { destruct (fold_min_le (map to_uint64 vs) (to_uint64 v0)) as [H0 Hl].
        intros v [<-|Hin]; [exact H0|]. apply Hl. apply in_map. assumption. }
      split.
      * intros [= <-]. split.
        -- exists vm. split; [|assumption].
           apply (in_map AffineConstantExpr) in Hvm. exact Hvm.
        -- intros e Hin. apply in_map_iff in Hin as (v & <- & Hin).
           exists v. split; [reflexivity|auto].
      * intros [(v & Hv & ->) Hall]. f_equal.
        apply in_map_iff in Hv as (v' & [= ->] & Hv).
        destruct (Hall (AffineConstantExpr vm)) as (v'' & [= <-] & Hn).
        { apply (in_map AffineConstantExpr) in Hvm. exact Hvm. }
        specialize (Hle v Hv). lia.
  - rewrite (constantLoop_not_constant results e None Hin Hne).
    split; [discriminate|]. intros [_ Hall].
    destruct (Hall e Hin) as (v & -> & _). exfalso. eapply Hne. reflexivity.
Qed.

Lemma gcd_list_divide l x : In x l -> (gcd_list l | x).
Proof.
  induction l as [|y l IH]; intros Hin; [destruct Hin|]. simpl.
  destruct Hin as [->|Hin].
  - apply Z.gcd_divide_l.
  - eapply Z.divide_trans; [apply Z.gcd_divide_r|auto].
Qed.

Lemma gcd_list_positive l :
  l <> [] -> Forall (fun x => 0 < x) l -> 0 < gcd_list l.
Proof.
  intros Hne Hpos. destruct Hpos as [|x l Hx _]; [congruence|]. simpl.
  pose proof (Z.gcd_nonneg x (gcd_list l)) as Hnn.
  destruct (Z.eq_dec (Z.gcd x (gcd_list l)) 0) as [Hz|Hnz]; [|lia].
  apply Z.gcd_eq_0_l in Hz. lia.
Qed.

Lemma constantDivisor_range v : 0 < constantDivisor v <= UINT64_MAX.
Proof.
  unfold constantDivisor. pose proof (to_uint64_range v) as Hr.
  unfold in_uint64, UINT64_MAX in *.
  destruct (Z.eqb_spec (to_uint64 v) 0); lia.
Qed.

Section Facts.
Context {IR : Type} `{AffineIR IR}.

(** On constant results the divisor loop needs nothing of the known
    divisors of the other expressions. *)
Lemma divisorLoop_constants vs : forall g,
  in_uint64 g ->
  divisorLoop (map AffineConstantExpr vs) (Some g)
  = Some (Some (Z.gcd g (gcd_list (map constantDivisor vs)))).
Proof.
  induction vs as [|v vs IH]; intros g Hg; simpl.
  - rewrite Z.gcd_0_r, Z.abs_eq by (destruct Hg; lia). reflexivity.
  - fold (constantDivisor v).
    assert (in_uint64 (constantDivisor v)) as Hv.
    { pose proof (constantDivisor_range v). unfold in_uint64. lia. }
    rewrite GreatestCommonDivisor64_gcd by assumption.
    rewrite IH by (auto using gcd_in_uint64).
    rewrite Z.gcd_assoc. reflexivity.
Qed.

(** The constant-bounds path of [buildTripCountMapAndOperands], run. *)
Lemma build_constant_bounds_run (forOp : AffineForOp) lb ub operands (ir : IR) :
  hasConstantBounds forOp = true ->
  getConstantLowerBound forOp = Some lb ->
  getConstantUpperBound forOp = Some ub ->
  buildTripCountMapAndOperands forOp operands ir
  = match ceilDiv (if wrap64 (ub - lb) <? 0 then 0 else wrap64 (ub - lb))
                  (getStep forOp) with
    | Some tripCount => Some ((getConstantAffineMap tripCount, []), ir)
    | None => None
    end.
Proof.
  intros Hconst Hlb Hub. unfold buildTripCountMapAndOperands.
  rewrite Hconst. unfold bind, lift_option, ret. rewrite Hlb, Hub.
  destruct (ceilDiv _ _); reflexivity.
Qed.

(** X1: whenever the trip-count map is expressible, [getConstantTripCount]
    answers [n] exactly when every result of the map is a constant and [n]
    is the least of them, read as [uint64_t] values; it answers "unknown"
    as soon as one result is not a constant.  The IR is left as
    [buildTripCountMapAndOperands] left it. *)
Theorem getConstantTripCount_minimum (forOp : AffineForOp) (ir ir' : IR)
    (d s : nat) (results : list AffineExpr) (operands : list Value) :
  buildTripCountMapAndOperands forOp [] ir
  = Some ((Map d s results, operands), ir') ->
  exists tripCount,
    getConstantTripCount forOp ir = Some (tripCount, ir') /\
    forall n, tripCount = Some n <->
      (exists v, In (AffineConstantExpr v) results /\ n = to_uint64 v) /\
      (forall e, In e results ->
         exists v, e = AffineConstantExpr v /\ n <= to_uint64 v).
Proof.
  intros Hbuild.
  destruct (constantLoop_minimum results) as (tripCount & Heq & Hspec).
  exists tripCount. split; [|exact Hspec].
  unfold getConstantTripCount, bind. rewrite Hbuild. simpl.
  unfold ret. rewrite Heq. reflexivity.
Qed.

(** The constant-bounds path when [ub - lb] is representable: the
    trip count is the ceiling of the quotient, clamped to zero, and fits a
    non-negative [int64_t]. *)
Lemma build_constant_bounds_ceil (forOp : AffineForOp) lb ub operands (ir : IR) :
  hasConstantBounds forOp = true ->
  getConstantLowerBound forOp = Some lb ->
  getConstantUpperBound forOp = Some ub ->
  1 <= getStep forOp <= INT64_MAX ->
  in_int64 (ub - lb) ->
  exists c, is_ceil (ub - lb) (getStep forOp) c /\
    0 <= Z.max 0 c <= INT64_MAX /\
    (ub - lb <= 0 -> Z.max 0 c = 0) /\
    (0 < ub - lb -> 0 < c) /\
    buildTripCountMapAndOperands forOp operands ir
    = Some ((getConstantAffineMap (Z.max 0 c), []), ir).
Proof.
  intros Hconst Hlb Hub Hstep Hspan.
  rewrite (build_constant_bounds_run forOp lb ub operands ir Hconst Hlb Hub).
  rewrite (wrap64_id _ Hspan).
  destruct (Z.ltb_spec (ub - lb) 0) as [Hneg|Hpos].
  - exists (- ((lb - ub) / getStep forOp)).
    assert (ceilDiv 0 (getStep forOp) = Some 0) as ->.
    { unfold ceilDiv. destruct (Z.ltb_spec (getStep forOp) 1); [lia|].
      rewrite Z.rem_0_l, Z.quot_0_l by lia. reflexivity. }
    pose proof (Z.div_mod (lb - ub) (getStep forOp) ltac:(lia)) as Hdm.
    pose proof (Z.mod_pos_bound (lb - ub) (getStep forOp) ltac:(lia)) as Hm.
    assert (0 <= (lb - ub) / getStep forOp) by (apply Z.div_pos; lia).
    split; [unfold is_ceil; nia|].
    rewrite Z.max_l by lia. unfold INT64_MAX.
    repeat split; try lia.
  - destruct (ceilDiv_is_ceil (ub - lb) (getStep forOp)) as (q & -> & Hq & Hq0).
    + unfold in_int64 in Hspan. lia.
    + lia.
    + exists q. split; [assumption|]. rewrite Z.max_r by lia.
      unfold in_int64 in Hspan. unfold is_ceil in Hq.
      repeat split; try lia; try nia.
Qed.

(** X2: for a loop with the constant bounds [lb] and [ub] and a positive
    step, when [ub - lb] is representable, the constant trip count is
    known: it is [ceil((ub - lb) / step)], or zero when the loop is empty,
    and the IR is unchanged. *)
Theorem getConstantTripCount_constant_bounds (forOp : AffineForOp)
    (lb ub : Z) (ir : IR) :
  hasConstantBounds forOp = true ->
  getConstantLowerBound forOp = Some lb ->
  getConstantUpperBound forOp = Some ub ->
  1 <= getStep forOp <= INT64_MAX ->
  in_int64 (ub - lb) ->
  exists c, is_ceil (ub - lb) (getStep forOp) c /\
    getConstantTripCount forOp ir = Some (Some (Z.max 0 c), ir).
Proof.
  intros Hconst Hlb Hub Hstep Hspan.
  destruct (build_constant_bounds_ceil forOp lb ub [] ir Hconst Hlb Hub Hstep
              Hspan) as (c & Hc & Hrange & _ & _ & Hbuild).
  exists c. split; [assumption|].
  unfold getConstantTripCount, bind. rewrite Hbuild. simpl. unfold ret.
  rewrite to_uint64_id; [reflexivity|].
  unfold INT64_MAX in Hrange. unfold in_uint64, UINT64_MAX. lia.
Qed.

(** X3: whenever the constant trip count of a loop is known, the largest
    divisor reported for the same loop is positive and divides it: a loop
    unrolled by that factor has no remainder iterations. *)
Theorem largest_divisor_divides_trip_count (forOp : AffineForOp)
    (ir ir' : IR) (n : Z) :
  getConstantTripCount forOp ir = Some (Some n, ir') ->
  exists divisor,
    getLargestDivisorOfTripCount forOp ir = Some (divisor, ir') /\
    0 < divisor /\ (divisor | n).
Proof.
  unfold getConstantTripCount, getLargestDivisorOfTripCount, bind.
  destruct (buildTripCountMapAndOperands forOp [] ir)
    as [[[map operands] ir1]|]; [|discriminate].
  simpl. destruct map as [|d s results]; simpl; [discriminate|].
  unfold ret. intros [= Hloop <-].
  destruct (constants_or_not results) as [[vs ->]|(e & Hin & Hne)].
  - destruct vs as [|v0 vs]; [discriminate Hloop|].
    simpl map in *. cbn [constantLoop] in Hloop.
    rewrite constantLoop_constants in Hloop. injection Hloop as Hn.
    cbn [length Nat.leb assert_ divisorLoop].
    change (thisGcd (AffineConstantExpr v0)) with (constantDivisor v0).
    rewrite divisorLoop_constants.
    2:{ pose proof (constantDivisor_range v0). unfold in_uint64. lia. }
    change (Z.gcd (constantDivisor v0) (gcd_list (map constantDivisor vs)))
      with (gcd_list (map constantDivisor (v0 :: vs))).
    eexists. split; [reflexivity|]. split.
    + apply gcd_list_positive; [discriminate|].
      apply List.Forall_forall. intros x Hx.
      apply in_map_iff in Hx as (v & <- & _). apply constantDivisor_range.
    + assert (exists v, In v (v0 :: vs) /\ n = to_uint64 v) as (v & Hv & ->).
      { subst n.
        destruct (fold_min_in (map to_uint64 vs) (to_uint64 v0)) as [Heq|Hin].
        - exists v0. split; [left; reflexivity|exact Heq].
        - apply in_map_iff in Hin as (v & Hv & Hin).
          exists v. split; [right; assumption|]. symmetry. exact Hv. }
      destruct (Z.eq_dec (to_uint64 v) 0) as [Hz|Hnz].
      * rewrite Hz. apply Z.divide_0_r.
      * replace (to_uint64 v) with (constantDivisor v).
        -- apply gcd_list_divide. apply in_map. exact Hv.
        -- unfold constantDivisor.
           destruct (Z.eqb_spec (to_uint64 v) 0); [contradiction|reflexivity].
  - rewrite (constantLoop_not_constant results e None Hin Hne) in Hloop.
    discriminate Hloop.
Qed.

(** X4: when the bounds are not both constants and the lower bound map
    does not have exactly one result, the trip count is not expressible:
    the map is null, the caller's operands and the IR are untouched, no
    operation is created, the constant trip count is unknown and the
    largest divisor is 1. *)
Theorem inexpressible_trip_count (forOp : AffineForOp)
    (operands : list Value) (ir : IR) :
  hasConstantBounds forOp = false ->
  getNumResults (getLowerBoundMap forOp) <> 1%nat ->
  buildTripCountMapAndOperands forOp operands ir
  = Some ((NullMap, operands), ir) /\
  getConstantTripCount forOp ir = Some (None, ir) /\
  getLargestDivisorOfTripCount forOp ir = Some (1, ir).
Proof.
  intros Hconst Hlb.
  assert (forall ops, buildTripCountMapAndOperands forOp ops ir
                      = Some ((NullMap, ops), ir)) as Hbuild.
  { intros ops. unfold buildTripCountMapAndOperands. rewrite Hconst.
    destruct (Nat.eqb_spec (getNumResults (getLowerBoundMap forOp)) 1);
      [contradiction|reflexivity]. }
  split; [apply Hbuild|].
  unfold getConstantTripCount, getLargestDivisorOfTripCount, bind.
  rewrite Hbuild. split; reflexivity.
Qed.

(** X5: whenever the trip-count map is expressible and every known divisor
    is a positive [uint64_t], the largest divisor reported is a positive
    [uint64_t] that divides the divisor of every result: it is never
    zero. *)
Theorem largest_divisor_positive (forOp : AffineForOp) (ir ir' : IR)
    (d s : nat) (results : list AffineExpr) (operands : list Value) :
  (forall e, 1 <= getLargestKnownDivisor e <= UINT64_MAX) ->
  buildTripCountMapAndOperands forOp [] ir
  = Some ((Map d s results, operands), ir') ->
  results <> [] ->
  exists divisor,
    getLargestDivisorOfTripCount forOp ir = Some (divisor, ir') /\
    1 <= divisor <= UINT64_MAX /\
    forall e x, In e results -> ResultDivisor e x -> (divisor | x).
Proof.
  intros Hdiv Hbuild Hne.
  assert (forall e, in_uint64 (getLargestKnownDivisor e)) as Hdiv'.
  { intros e. specialize (Hdiv e). unfold in_uint64. lia. }
  assert (forall e, 0 < thisGcd e) as Hpos.
  { intros e. destruct e; simpl; try (specialize (Hdiv' e));
      try (match goal with |- 0 < getLargestKnownDivisor ?x =>
                             specialize (Hdiv x); lia end).
    apply constantDivisor_range. }
  exists (gcd_list (map thisGcd results)). split; [|split].
  - unfold getLargestDivisorOfTripCount, bind. rewrite Hbuild. simpl.
    destruct results as [|e rest]; [congruence|]. simpl.
    unfold assert_, bind, lift_option. simpl.
    rewrite divisorLoop_Some by (auto using thisGcd_range). reflexivity.
  - assert (0 < gcd_list (map thisGcd results)).
    { apply gcd_list_positive.
      - destruct results; [congruence|discriminate].
      - apply List.Forall_forall. intros x Hx.
        apply in_map_iff in Hx as (e & <- & _). apply Hpos. }
    assert (in_uint64 (gcd_list (map thisGcd results))) as Hr.
    { apply gcd_list_in_uint64. apply List.Forall_forall. intros x Hx.
      apply in_map_iff in Hx as (e & <- & _). apply thisGcd_range, Hdiv'. }
    unfold in_uint64 in Hr. lia.
  - intros e x Hin Hx.
    assert (x = thisGcd e) as ->.
    { destruct Hx; simpl; try reflexivity.
      - destruct (Z.eqb_spec (to_uint64 value) 0); [reflexivity|contradiction].
      - destruct (Z.eqb_spec (to_uint64 value) 0); [contradiction|reflexivity]. }
    apply gcd_list_divide. apply in_map. exact Hin.
Qed.

(** X26: for a loop with constant bounds and a positive step, when
    [ub - lb] is representable, the largest divisor of the trip count is
    the trip count itself, [ceil((ub - lb) / step)], when the loop runs at
    least once, and [2^64 - 1] when it does not run; the IR is
    unchanged. *)
Theorem largest_divisor_constant_bounds (forOp : AffineForOp)
    (lb ub : Z) (ir : IR) :
  hasConstantBounds forOp = true ->
  getConstantLowerBound forOp = Some lb ->
  getConstantUpperBound forOp = Some ub ->
  1 <= getStep forOp <= INT64_MAX ->
  in_int64 (ub - lb) ->
  (ub <= lb -> getLargestDivisorOfTripCount forOp ir = Some (UINT64_MAX, ir)) /\
  (lb < ub ->
   exists c, is_ceil (ub - lb) (getStep forOp) c /\
     getLargestDivisorOfTripCount forOp ir = Some (c, ir)).
Proof.
  intros Hconst Hlb Hub Hstep Hspan.
  destruct (build_constant_bounds_ceil forOp lb ub [] ir Hconst Hlb Hub Hstep
              Hspan) as (c & Hc & Hrange & Hempty & Hruns & Hbuild).
  assert (getLargestDivisorOfTripCount forOp ir
          = Some (constantDivisor (Z.max 0 c), ir)) as Hrun.
  { unfold getLargestDivisorOfTripCount, bind. rewrite Hbuild. reflexivity. }
  assert (to_uint64 (Z.max 0 c) = Z.max 0 c) as Hu.
  { apply to_uint64_id. unfold INT64_MAX in Hrange.
    unfold in_uint64, UINT64_MAX. lia. }
  split.
  - intros Hle. rewrite Hrun. unfold constantDivisor.
    rewrite Hu, Hempty by lia. reflexivity.
  - intros Hlt. exists c. split; [assumption|]. rewrite Hrun.
    unfold constantDivisor. rewrite Hu.
    specialize (Hruns ltac:(lia)). rewrite Z.max_r by lia.
    destruct (Z.eqb_spec c 0); [lia|reflexivity].
Qed.

End Facts.

(** A loop whose lower bound is the maximum of two expressions. *)
Definition maxLowerBound_example : AffineForOp := {|
  getOperation := 0%nat; getLoc := 0%nat; getStep := 1;
  getLowerBoundMap := Map 1 0 [AffineDimExpr 0; AffineConstantExpr 0];
  getUpperBoundMap := getConstantAffineMap 10;
  getLowerBoundOperands := [2%nat]; getUpperBoundOperands := [];
  getInductionVar := 1%nat; getBody := 0%nat
|}.

Lemma getConstantTripCount_minimum_witness :
  exists tripCount,
    getConstantTripCount (constantLoop_example 0 10 1) ([] : ListIR)
    = Some (tripCount, []) /\
    forall n, tripCount = Some n <->
      (exists v, In (AffineConstantExpr v) [AffineConstantExpr 10]
                 /\ n = to_uint64 v) /\
      (forall e, In e [AffineConstantExpr 10] ->
         exists v, e = AffineConstantExpr v /\ n <= to_uint64 v).
Proof.
  apply (getConstantTripCount_minimum (constantLoop_example 0 10 1)
           ([] : ListIR) [] 0 0 [AffineConstantExpr 10] []).
  reflexivity.
Defined.

Lemma getConstantTripCount_constant_bounds_witness :
  exists c, is_ceil (10 - 0) 3 c /\
    getConstantTripCount (constantLoop_example 0 10 3) ([] : ListIR)
    = Some (Some (Z.max 0 c), []).
Proof.
  apply (getConstantTripCount_constant_bounds (constantLoop_example 0 10 3)
           0 10 ([] : ListIR)).
  - reflexivity.
  - reflexivity.
  - reflexivity.
  - simpl. unfold INT64_MAX. lia.
  - unfold in_int64, INT64_MIN, INT64_MAX. lia.
Defined.

Example trip_count_0_10_3 :
  getConstantTripCount (constantLoop_example 0 10 3) ([] : ListIR)
  = Some (Some 4, []).
Proof. reflexivity. Qed.

Lemma largest_divisor_divides_trip_count_witness :
  exists divisor,
    getLargestDivisorOfTripCount (constantLoop_example 0 12 1) ([] : ListIR)
    = Some (divisor, []) /\ 0 < divisor /\ (divisor | 12).
Proof.
  apply (largest_divisor_divides_trip_count (constantLoop_example 0 12 1)
           ([] : ListIR) [] 12).
  reflexivity.
Defined.

Lemma inexpressible_trip_count_witness :
  buildTripCountMapAndOperands maxLowerBound_example [7%nat] ([] : ListIR)
  = Some ((NullMap, [7%nat]), []) /\
  getConstantTripCount maxLowerBound_example ([] : ListIR) = Some (None, []) /\
  getLargestDivisorOfTripCount maxLowerBound_example ([] : ListIR)
  = Some (1, []).
Proof.
  apply (inexpressible_trip_count maxLowerBound_example [7%nat] ([] : ListIR)).
  - reflexivity.
  - simpl. lia.
Defined.

Lemma largest_divisor_positive_witness :
  exists divisor,
    getLargestDivisorOfTripCount (constantLoop_example 0 12 1) ([] : ListIR)
    = Some (divisor, []) /\
    1 <= divisor <= UINT64_MAX /\
    forall e x, In e [AffineConstantExpr 12] -> ResultDivisor e x ->
                (divisor | x).
Proof.
  apply (largest_divisor_positive (constantLoop_example 0 12 1)
           ([] : ListIR) [] 0 0 [AffineConstantExpr 12] []).
  - intros e. simpl. unfold UINT64_MAX. lia.
  - reflexivity.
  - discriminate.
Defined.

Lemma largest_divisor_constant_bounds_witness :
  exists c, is_ceil (10 - 0) 3 c /\
    getLargestDivisorOfTripCount (constantLoop_example 0 10 3) ([] : ListIR)
    = Some (c, []).
Proof.
  destruct (largest_divisor_constant_bounds (constantLoop_example 0 10 3)
              0 10 ([] : ListIR)) as [_ Hruns].
  - reflexivity.
  - reflexivity.
  - reflexivity.
  - simpl. unfold INT64_MAX. lia.
  - unfold in_int64, INT64_MIN, INT64_MAX. lia.
  - apply Hruns. lia.
Defined.

Example empty_loop_divisor :
  getLargestDivisorOfTripCount (constantLoop_example 10 4 1) ([] : ListIR)
  = Some (2 ^ 64 - 1, []).
Proof. reflexivity. Qed.

End TripCountFacts.

(** ** Access analysis and vectorizability: further properties

    Properties of [getInvariantAccesses], [isContiguousAccess] and the two
    [isVectorizableLoopBody] of [lib/Analysis/LoopAnalysis.cpp]. *)

Module LoopAnalysisFacts.
Import MathExtras Affine TripCount LoopAnalysis.
Local Open Scope Z_scope.

Section Facts.
Context `{LoopIR}.

Lemma Invariant_not_Varies iv index :
  Invariant iv index -> Varies iv index -> False.
Proof.
  intros Hinv Hvar. destruct (Hinv []) as [d1 H1]. destruct (Hvar []) as [d2 H2].
  congruence.
Qed.

Lemma isAccessInvariant_true iv index diags diags' :
  isForInductionVar iv = true -> IndexTyped index ->
  isAccessInvariant iv index diags = Some (true, diags') ->
  Invariant iv index.
Proof.
  intros Hiv Hty Hrun.
  destruct (Invariant_or_Varies iv index Hiv Hty) as [Hinv|Hvar]; [assumption|].
  destruct (Hvar diags) as [d Hd]. congruence.
Qed.

Lemma classify iv indices :
  isForInductionVar iv = true -> Forall IndexTyped indices ->
  Forall (fun index => Invariant iv index \/ Varies iv index) indices.
Proof.
  intros Hiv Hty. eapply Forall_impl; [exact Hty|].
  intros index Hindex. apply Invariant_or_Varies; assumption.
Qed.

(** X6: [getInvariantAccesses] returns exactly the set of the indices that
    are invariant along the induction variable: every member is one of the
    indices given, and an index is left out only if it varies. *)
Theorem getInvariantAccesses_spec (iv : Value) (indices : list Value) :
  isForInductionVar iv = true ->
  Forall IndexTyped indices ->
  forall diags, exists res diags',
    getInvariantAccesses iv indices diags = Some (res, diags') /\
    forall v, v ∈ res <-> In v indices /\ Invariant iv v.
Proof.
  intros Hiv Hty. induction Hty as [|val rest Hval Hrest IH]; intros diags.
  - exists ∅, diags. split; [reflexivity|]. intros v. split.
    + intros Hin. apply not_elem_of_empty in Hin. destruct Hin.
    + intros [[] _].
  - simpl. destruct (Invariant_or_Varies iv val Hiv Hval) as [Hinv|Hvar].
    + destruct (Hinv diags) as [d1 Hrun].
      destruct (IH d1) as (res & d2 & Hres & Hspec).
      exists ({[ val ]} ∪ res), d2. split.
      * rewrite (bind_Some _ _ _ _ _ Hrun), (bind_Some _ _ _ _ _ Hres).
        reflexivity.
      * intros v. rewrite elem_of_union, elem_of_singleton, Hspec. split.
        -- intros [->|[Hin Hv]]; split; auto.
        -- intros [[->|Hin] Hv]; auto.
    + destruct (Hvar diags) as [d1 Hrun].
      destruct (IH d1) as (res & d2 & Hres & Hspec).
      exists res, d2. split.
      * rewrite (bind_Some _ _ _ _ _ Hrun), (bind_Some _ _ _ _ _ Hres).
        reflexivity.
      * intros v. rewrite Hspec. split.
        -- intros [Hin Hv]. split; [right|]; assumption.
        -- intros [[->|Hin] Hv]; [|auto].
           exfalso. eapply Invariant_not_Varies; eassumption.
Qed.

(** A list of indices has no varying index, exactly one, or two at
    least. *)
Lemma index_shapes iv (l : list Value) :
  Forall (fun index => Invariant iv index \/ Varies iv index) l ->
  Forall (Invariant iv) l \/
  (exists pre x post,
      l = pre ++ x :: post /\
      Forall (Invariant iv) pre /\ Varies iv x /\ Forall (Invariant iv) post) \/
  (exists l1 x l2 y l3,
      l = l1 ++ x :: l2 ++ y :: l3 /\ Varies iv x /\ Varies iv y).
Proof.
  induction 1 as [|h l Hh _ IH]; [left; constructor|].
  destruct Hh as [Hinv|Hvar].
  - destruct IH as [Hall|[(pre & x & post & -> & Hpre & Hx & Hpost)
                         |(l1 & x & l2 & y & l3 & -> & Hx & Hy)]].
    + left. constructor; assumption.
    + right. left. exists (h :: pre), x, post. repeat split; auto.
    + right. right. exists (h :: l1), x, l2, y, l3. repeat split; auto.
  - destruct IH as [Hall|[(pre & x & post & -> & Hpre & Hx & Hpost)
                         |(l1 & x & l2 & y & l3 & -> & Hx & Hy)]].
    + right. left. exists [], h, l. repeat split; auto.
    + right. right. exists [], h, pre, x, post. repeat split; auto.
    + right. right. exists [], h, (l1 ++ x :: l2), y, l3.
      repeat split; auto. simpl. rewrite <- app_assoc. reflexivity.
Qed.

Section Contiguous.
Variable iv : Value.
Variable memoryOp : Op.
Variable memRefDim : Z.
Variable diags : Diags.

Let indices := getIndices memoryOp.
Let layoutMap := getAffineMaps (getMemRefType memoryOp).

Hypothesis Hlayout : nonTrivialLayout layoutMap = false.
Hypothesis Hlen : Z.of_nat (length indices) <= INT_MAX.

Lemma contiguous_none_vary :
  Forall (Invariant iv) indices ->
  exists diags',
    isContiguousAccess iv memoryOp memRefDim diags = Some ((true, -1), diags').
Proof.
  intros Hinv. unfold isContiguousAccess. fold layoutMap indices.
  rewrite Hlayout.
  destruct (indicesLoop_invariant iv indices Hinv 0 (-1) diags)
    as [diags' Hloop].
  rewrite (bind_Some _ _ _ _ _ Hloop). simpl. unfold ret. eauto.
Qed.

Lemma contiguous_one_varies pre index post :
  indices = pre ++ index :: post ->
  Forall (Invariant iv) pre -> Varies iv index -> Forall (Invariant iv) post ->
  exists diags',
    isContiguousAccess iv memoryOp memRefDim diags
    = Some ((true, Z.of_nat (length post)), diags').
Proof.
  intros Heq Hpre Hv Hpost. unfold isContiguousAccess. fold layoutMap indices.
  rewrite Hlayout.
  assert (Hlen' : Z.of_nat (length indices)
                  = Z.of_nat (length pre) + 1 + Z.of_nat (length post)).
  { rewrite Heq, length_app. simpl. lia. }
  destruct (indicesLoop_unique iv pre index post 0 diags)
    as [diags' Hloop]; try assumption; try lia.
  rewrite <- Heq, Z.add_0_l in Hloop.
  rewrite (bind_Some _ _ _ _ _ Hloop).
  destruct (Z.eqb_spec (Z.of_nat (length pre)) (-1)); [lia|].
  unfold ret. exists diags'. do 3 f_equal.
  unfold INT_MAX in Hlen.
  rewrite (to_unsigned_id (Z.of_nat (length indices))) by lia.
  rewrite (to_int_id (Z.of_nat (length pre) + 1))
    by (unfold INT_MAX; lia).
  rewrite (to_unsigned_id (Z.of_nat (length pre) + 1)) by lia.
  rewrite to_unsigned_id by lia.
  rewrite to_int_id by (unfold INT_MAX; lia). lia.
Qed.

Lemma contiguous_two_vary l1 x l2 y l3 :
  Forall (fun index => Invariant iv index \/ Varies iv index) indices ->
  indices = l1 ++ x :: l2 ++ y :: l3 ->
  Varies iv x -> Varies iv y ->
  exists diags',
    isContiguousAccess iv memoryOp memRefDim diags
    = Some ((false, memRefDim), diags').
Proof.
  intros Hcls Heq Hx Hy. unfold isContiguousAccess. fold layoutMap indices.
  rewrite Hlayout. rewrite Heq in Hcls.
  destruct (indicesLoop_two iv l1 x l2 y l3 0 diags Hcls Hx Hy)
    as [diags' Hloop]; [lia| |].
  - assert (Z.of_nat (length l1) < Z.of_nat (length indices)); [|lia].
    rewrite Heq, length_app. simpl. lia.
  - rewrite <- Heq in Hloop.
    rewrite (bind_Some _ _ _ _ _ Hloop). unfold ret. eauto.
Qed.

End Contiguous.

(** X7: what an answer of [isContiguousAccess] means.  A true answer is
    given only to an access with a trivial layout and at most one varying
    index: the dimension reported is [-1] when every index is invariant,
    and otherwise the number of indices after the only varying one.  A
    false answer leaves [*memRefDim] as it was and means that the layout is
    not trivial or that two indices vary. *)
Theorem isContiguousAccess_sound (iv : Value) (memoryOp : Op)
    (memRefDim : Z) (diags : Diags) (ok : bool) (dim : Z) (diags' : Diags) :
  let indices := getIndices memoryOp in
  let layoutMap := getAffineMaps (getMemRefType memoryOp) in
  isForInductionVar iv = true ->
  Forall IndexTyped indices ->
  Z.of_nat (length indices) <= INT_MAX ->
  isContiguousAccess iv memoryOp memRefDim diags = Some ((ok, dim), diags') ->
  (ok = true ->
   TrivialLayout layoutMap /\
   ((dim = -1 /\ Forall (Invariant iv) indices) \/
    (exists pre index post,
        indices = pre ++ index :: post /\
        Forall (Invariant iv) pre /\ Varies iv index /\
        Forall (Invariant iv) post /\ dim = Z.of_nat (length post)))) /\
  (ok = false ->
   dim = memRefDim /\
   (~ TrivialLayout layoutMap \/
    exists l1 x l2 y l3,
      indices = l1 ++ x :: l2 ++ y :: l3 /\ Varies iv x /\ Varies iv y)).
Proof.
  intros indices layoutMap Hiv Hty Hlen Hrun.
  destruct (nonTrivialLayout layoutMap) eqn:Hnt.
  - assert (~ TrivialLayout layoutMap) as Hnot.
    { intros Ht. apply nonTrivialLayout_false in Ht. congruence. }
    unfold isContiguousAccess in Hrun. fold layoutMap in Hrun.
    rewrite Hnt in Hrun. unfold bind, emit, modify, ret in Hrun.
    injection Hrun as <- <- <-. split; [discriminate|]. auto.
  - assert (TrivialLayout layoutMap) as Htriv
      by (apply nonTrivialLayout_false; assumption).
    pose proof (classify iv indices Hiv Hty) as Hcls.
    destruct (index_shapes iv indices Hcls)
      as [Hall|[(pre & x & post & Heq & Hpre & Hx & Hpost)
               |(l1 & x & l2 & y & l3 & Heq & Hx & Hy)]].
    + destruct (contiguous_none_vary iv memoryOp memRefDim diags Hnt Hall)
        as [d Hd].
      rewrite Hd in Hrun. injection Hrun as <- <- <-.
      split; [|discriminate]. intros _. split; [assumption|]. left. auto.
    + destruct (contiguous_one_varies iv memoryOp memRefDim diags Hnt Hlen
                  pre x post Heq Hpre Hx Hpost) as [d Hd].
      rewrite Hd in Hrun. injection Hrun as <- <- <-.
      split; [|discriminate]. intros _. split; [assumption|]. right.
      exists pre, x, post. repeat split; assumption.
    + destruct (contiguous_two_vary iv memoryOp memRefDim diags Hnt Hlen
                  l1 x l2 y l3 Hcls Heq Hx Hy) as [d Hd].
      rewrite Hd in Hrun. injection Hrun as <- <- <-.
      split; [discriminate|]. intros _. split; [reflexivity|]. right.
      exists l1, x, l2, y, l3. repeat split; assumption.
Qed.

(** *** The loop body *)

Lemma isEmpty_filter {A} (f : A -> bool) (l : list A) :
  isEmpty (List.filter f l) = true <-> forall c, In c l -> f c = false.
Proof.
  induction l as [|a l IH]; simpl.
  - split; [intros _ c []|reflexivity].
  - destruct (f a) eqn:Hfa; simpl.
    + split; [discriminate|]. intros Hall.
      rewrite (Hall a) in Hfa by (left; reflexivity). discriminate.
    + rewrite IH. split.
      * intros Hall c [<-|Hin]; auto.
      * intros Hall c Hin. apply Hall. right. assumption.
Qed.

Lemma isEmpty_filter_false {A} (f : A -> bool) (l : list A) :
  isEmpty (List.filter f l) = false -> exists c, In c l /\ f c = true.
Proof.
  induction l as [|a l IH]; simpl; [discriminate|].
  destruct (f a) eqn:Hfa.
  - intros _. exists a. auto.
  - intros Hl. destruct (IH Hl) as (c & Hin & Hc). exists c. auto.
Qed.

(** The three filters of [isVectorizableLoopBodyWithOpCond] that reject a
    loop, together. *)
Definition vetoes (c : Op) : bool :=
  isa AffineIfOp c
  || (negb (Nat.eqb (getNumRegions c) 0) &&
      negb (isa AffineIfOp c || isa AffineForOp_ c))
  || isVectorTransferReadOrWrite c.

Lemma vetoes_Veto c : vetoes c = true <-> Veto c.
Proof.
  unfold vetoes, Veto, isVectorTransferReadOrWrite.
  destruct (isa AffineIfOp c), (isa AffineForOp_ c),
    (isa VectorTransferReadOp c), (isa VectorTransferWriteOp c),
    (Nat.eqb_spec (getNumRegions c) 0); simpl; split; intros Hv;
    try reflexivity; try discriminate; try tauto;
    try (destruct Hv as [?|[(? & ? & ?)|[?|?]]]; congruence).
Qed.

Lemma loadAndStoresLoop_plain loop l : forall memRefDim diags,
  loadAndStoresLoop loop None l memRefDim diags
  = Some ((forallb (fun op => negb (isVectorElement op)) l, memRefDim), diags).
Proof.
  induction l as [|op rest IH]; intros memRefDim diags; simpl; [reflexivity|].
  destruct (isVectorElement op); simpl; [reflexivity|apply IH].
Qed.

(** The checks on the whole walk pass exactly when no operation of the
    walk vetoes. *)
Lemma conditions_run loop isVectorizableOp memRefDim diags :
  (forall c, In c (walk (getOperation loop)) -> vetoes c = false) ->
  isVectorizableLoopBodyWithOpCond loop isVectorizableOp memRefDim diags
  = loadAndStoresLoop loop isVectorizableOp
      (match_ isLoadOrStore (getOperation loop)) memRefDim diags.
Proof.
  intros Hno. unfold isVectorizableLoopBodyWithOpCond, match_.
  assert (forall f, (forall c, f c = true -> vetoes c = true) ->
            isEmpty (List.filter f (walk (getOperation loop))) = true) as Hf.
  { intros f Hfv. apply isEmpty_filter. intros c Hin.
    destruct (f c) eqn:Hfc; [|reflexivity].
    pose proof (Hno c Hin) as Hc. rewrite (Hfv c Hfc) in Hc. discriminate Hc. }
  rewrite (Hf (isa AffineIfOp)).
  2:{ intros c Hc. unfold vetoes. rewrite Hc. reflexivity. }
  cbn [negb].
  rewrite (Hf (fun op => negb (Nat.eqb (getNumRegions op) 0) &&
                         negb (isa AffineIfOp op || isa AffineForOp_ op))).
  2:{ intros c Hc. unfold vetoes. rewrite Hc. apply orb_true_iff. left.
      apply orb_true_r. }
  cbn [negb].
  rewrite (Hf isVectorTransferReadOrWrite).
  2:{ intros c Hc. unfold vetoes. rewrite Hc. apply orb_true_r. }
  reflexivity.
Qed.

Lemma conditions_veto loop isVectorizableOp memRefDim diags c :
  In c (walk (getOperation loop)) -> vetoes c = true ->
  isVectorizableLoopBodyWithOpCond loop isVectorizableOp memRefDim diags
  = Some ((false, memRefDim), diags).
Proof.
  intros Hin Hc. unfold isVectorizableLoopBodyWithOpCond, match_.
  destruct (isEmpty (List.filter (isa AffineIfOp) (walk (getOperation loop))))
    eqn:Hif; [|reflexivity].
  cbn [negb].
  match goal with
  | |- context [isEmpty (List.filter ?f (walk (getOperation loop)))] =>
      destruct (isEmpty (List.filter f (walk (getOperation loop)))) eqn:Hreg
  end; [|reflexivity].
  cbn [negb].
  destruct (isEmpty (List.filter isVectorTransferReadOrWrite
                       (walk (getOperation loop)))) eqn:Hvt; [|reflexivity].
  exfalso.
  pose proof (proj1 (isEmpty_filter _ _) Hif c Hin) as H1.
  pose proof (proj1 (isEmpty_filter _ _) Hreg c Hin) as H2.
  pose proof (proj1 (isEmpty_filter _ _) Hvt c Hin) as H3.
  simpl in H2. unfold vetoes in Hc. rewrite H1, H3 in Hc.
  rewrite H1 in H2. simpl in Hc, H2. rewrite H2 in Hc. discriminate.
Qed.

Lemma vetoes_somewhere (l : list Op) :
  (forall c, In c l -> vetoes c = false) \/
  (exists c, In c l /\ vetoes c = true).
Proof.
  induction l as [|a l [Hno|(c & Hin & Hc)]].
  - left. intros c [].
  - destruct (vetoes a) eqn:Ha.
    + right. exists a. split; [left; reflexivity|exact Ha].
    + left. intros c [<-|Hin]; [exact Ha|exact (Hno c Hin)].
  - right. exists c. split; [right; exact Hin|exact Hc].
Qed.

(** X8: the check without a per-operation condition always answers, emits
    nothing, and answers true exactly when no operation under the loop
    vetoes (no conditional, no unrecognized operation with regions, no
    vector transfer) and no load or store under it accesses a memref of
    vectors. *)
Theorem isVectorizableLoopBody_iff (loop : AffineForOp) (diags : Diags) :
  exists b,
    isVectorizableLoopBody loop diags = Some (b, diags) /\
    (b = true <->
     forall c, In c (walk (getOperation loop)) ->
       ~ Veto c /\
       (isLoadOrStore c = true -> isVectorElement c = false)).
Proof.
  unfold isVectorizableLoopBody.
  destruct (vetoes_somewhere (walk (getOperation loop)))
    as [Hno|(c & Hin & Hc)].
  - eexists. split.
    + unfold bind. rewrite (conditions_run _ _ _ _ Hno).
      rewrite loadAndStoresLoop_plain. reflexivity.
    + simpl. rewrite forallb_forall. unfold match_. split.
      * intros Hall c Hin. split.
        -- intros Hv. apply vetoes_Veto in Hv.
           rewrite (Hno c Hin) in Hv. discriminate.
        -- intros Hls. apply negb_true_iff. apply Hall.
           apply filter_In. auto.
      * intros Hall c Hin. apply filter_In in Hin as [Hin Hls].
        apply negb_true_iff. apply (Hall c Hin). assumption.
  - exists false. split.
    + unfold bind. rewrite (conditions_veto _ _ _ _ c Hin Hc). reflexivity.
    + split; [discriminate|]. intros Hall.
      destruct (Hall c Hin) as [Hnv _]. exfalso. apply Hnv.
      apply vetoes_Veto. assumption.
Qed.

(** The loop over the loads and stores when it answers true: every one of
    them passed the condition, and [*memRefDim] holds what the condition
    wrote for the last of them. *)
Lemma loadAndStoresLoop_true loop (f : VectorizableOpFun) l :
  forall memRefDim diags dim diags',
  loadAndStoresLoop loop (Some f) l memRefDim diags = Some ((true, dim), diags') ->
  Forall (fun op =>
            isVectorElement op = false /\
            exists dimIn ds dimOut ds',
              f loop op dimIn ds = Some ((true, dimOut), ds')) l /\
  (l = [] -> dim = memRefDim) /\
  (forall pre last, l = pre ++ [last] ->
     exists dimIn ds ds', f loop last dimIn ds = Some ((true, dim), ds')).
Proof.
  induction l as [|op rest IH]; intros memRefDim diags dim diags' Hrun.
  - simpl in Hrun. injection Hrun as <- <-.
    split; [constructor|]. split; [reflexivity|].
    intros pre last Heq. destruct pre; discriminate.
  - simpl in Hrun. destruct (isVectorElement op) eqn:Hvec; [discriminate|].
    unfold bind in Hrun.
    destruct (f loop op memRefDim diags) as [[[ok d1] ds1]|] eqn:Hf;
      [|discriminate].
    simpl in Hrun. destruct ok; [|discriminate]. simpl in Hrun.
    destruct (IH _ _ _ _ Hrun) as (Hall & Hnil & Hlast).
    split; [|split].
    + constructor; [|assumption]. split; [exact Hvec|]. eauto.
    + discriminate.
    + intros pre last Heq. destruct pre as [|p pre].
      * simpl in Heq. injection Heq as Hop Hrest. subst op rest.
        rewrite (Hnil eq_refl). eauto.
      * simpl in Heq. injection Heq as _ Hrest. eapply Hlast. exact Hrest.
Qed.

Lemma dim_true_run loop memRefDim diags dim diags' :
  isVectorizableLoopBody_dim loop memRefDim diags = Some ((true, dim), diags') ->
  (forall c, In c (walk (getOperation loop)) -> vetoes c = false) /\
  loadAndStoresLoop loop
    (Some (fun loop op memRefDim =>
             isContiguousAccess (getInductionVar loop) op memRefDim))
    (match_ isLoadOrStore (getOperation loop)) memRefDim diags
  = Some ((true, dim), diags').
Proof.
  unfold isVectorizableLoopBody_dim. intros Hrun.
  destruct (vetoes_somewhere (walk (getOperation loop)))
    as [Hno|(c & Hin & Hc)].
  - split; [assumption|]. rewrite <- (conditions_run _ _ _ _ Hno). exact Hrun.
  - rewrite (conditions_veto _ _ _ _ c Hin Hc) in Hrun. discriminate.
Qed.

(** X9: a loop that the check with the contiguity condition accepts is
    accepted by the check without it, and each of its loads and stores is
    an access that [isContiguousAccess] accepts. *)
Theorem isVectorizableLoopBody_dim_accepts (loop : AffineForOp)
    (memRefDim : Z) (diags : Diags) (dim : Z) (diags' : Diags) :
  isVectorizableLoopBody_dim loop memRefDim diags = Some ((true, dim), diags') ->
  (forall diags0, isVectorizableLoopBody loop diags0 = Some (true, diags0)) /\
  (forall op, In op (walk (getOperation loop)) -> isLoadOrStore op = true ->
     exists dimIn ds dimOut ds',
       isContiguousAccess (getInductionVar loop) op dimIn ds
       = Some ((true, dimOut), ds')).
Proof.
  intros Hrun. destruct (dim_true_run _ _ _ _ _ Hrun) as [Hno Hloop].
  destruct (loadAndStoresLoop_true _ _ _ _ _ _ _ Hloop) as (Hall & _ & _).
  rewrite List.Forall_forall in Hall. split.
  - intros diags0. unfold isVectorizableLoopBody, bind.
    rewrite (conditions_run _ _ _ _ Hno), loadAndStoresLoop_plain.
    unfold ret. simpl. do 2 f_equal. apply forallb_forall.
    intros op Hin. apply negb_true_iff. apply (Hall op Hin).
  - intros op Hin Hls. apply (Hall op). unfold match_. apply filter_In. auto.
Qed.

(** X10: when the check with the contiguity condition accepts a loop, the
    dimension it leaves in [*memRefDim] is the one reported for the last
    load or store of the walk, whatever was reported for the others; a
    loop without loads and stores leaves [*memRefDim] as it was. *)
Theorem memRefDim_of_last_access (loop : AffineForOp)
    (memRefDim : Z) (diags : Diags) (dim : Z) (diags' : Diags) :
  isVectorizableLoopBody_dim loop memRefDim diags = Some ((true, dim), diags') ->
  (match_ isLoadOrStore (getOperation loop) = [] -> dim = memRefDim) /\
  (forall pre last,
     match_ isLoadOrStore (getOperation loop) = pre ++ [last] ->
     exists dimIn ds ds',
       isContiguousAccess (getInductionVar loop) last dimIn ds
       = Some ((true, dim), ds')).
Proof.
  intros Hrun. destruct (dim_true_run _ _ _ _ _ Hrun) as [Hno Hloop].
  destruct (loadAndStoresLoop_true _ _ _ _ _ _ _ Hloop) as (_ & Hnil & Hlast).
  split; assumption.
Qed.

(** *** Diagnostics *)

(** The remark of [isAccessInvariant] on one of [indices]: it is attached
    to the first of the several [affine.apply] operations reachable from
    the index. *)
Definition CompositionRemark (indices : list Value) (d : Diagnostic) : Prop :=
  severity d = Remark /\
  exists index first second rest,
    In index indices /\
    getReachableAffineApplyOps [index] = first :: second :: rest /\
    diagOp d = first.

Lemma CompositionRemark_incl indices indices' d :
  (forall index, In index indices -> In index indices') ->
  CompositionRemark indices d -> CompositionRemark indices' d.
Proof.
  intros Hincl (Hsev & index & first & second & rest & Hin & Hops & Hop).
  split; [assumption|]. exists index, first, second, rest. auto.
Qed.

Lemma isAccessInvariant_appends iv index diags b diags' :
  isAccessInvariant iv index diags = Some (b, diags') ->
  exists added,
    diags' = diags ++ added /\
    Forall (CompositionRemark [index]) added /\
    (length added <= 1)%nat.
Proof.
  unfold isAccessInvariant, bind, assert_, emit, modify, ret.
  destruct (isForInductionVar iv); [|discriminate].
  destruct (isaIndexType (getType index)); [|discriminate].
  destruct (getReachableAffineApplyOps [index]) as [|first [|second rest]]
    eqn:Hops; simpl.
  - intros [= _ <-]. exists []. rewrite app_nil_r.
    split; [reflexivity|]. split; [constructor|simpl; lia].
  - intros [= _ <-]. exists []. rewrite app_nil_r.
    split; [reflexivity|]. split; [constructor|simpl; lia].
  - intros [= _ <-]. eexists. split; [reflexivity|].
    split; [|simpl; lia].
    constructor; [|constructor]. split; [reflexivity|].
    exists index, first, second, rest.
    split; [left; reflexivity|]. split; [assumption|reflexivity].
Qed.

Lemma indicesLoop_appends iv indices : forall dim unique diags r diags',
  indicesLoop iv indices dim unique diags = Some (r, diags') ->
  exists added,
    diags' = diags ++ added /\
    Forall (CompositionRemark indices) added /\
    (length added <= length indices)%nat.
Proof.
  induction indices as [|index rest IH]; intros dim unique diags r diags'.
  - simpl. unfold ret. intros [= _ <-]. exists []. rewrite app_nil_r.
    split; [reflexivity|]. split; [constructor|simpl; lia].
  - simpl. unfold bind.
    destruct (isAccessInvariant iv index diags) as [[inv d1]|] eqn:Hinv;
      [|discriminate].
    destruct (isAccessInvariant_appends _ _ _ _ _ Hinv)
      as (a1 & -> & Ha1 & Hlen1).
    assert (Hhere : Forall (CompositionRemark (index :: rest)) a1).
    { eapply Forall_impl; [exact Ha1|]. intros d.
      apply CompositionRemark_incl. intros i [<-|[]]. left. reflexivity. }
    assert (forall dim' unique',
               indicesLoop iv rest dim' unique' (diags ++ a1)
               = Some (r, diags') ->
               exists added,
                 diags' = diags ++ added /\
                 Forall (CompositionRemark (index :: rest)) added /\
                 (length added <= S (length rest))%nat) as Hrest.
    { intros dim' unique' Hrun.
      destruct (IH _ _ _ _ _ Hrun) as (a2 & -> & Ha2 & Hlen2).
      exists (a1 ++ a2). rewrite app_assoc. split; [reflexivity|].
      split.
      - apply Forall_app. split; [assumption|].
        eapply Forall_impl; [exact Ha2|]. intros d.
        apply CompositionRemark_incl. intros i Hi. right. assumption.
      - rewrite length_app. lia. }
    destruct inv; simpl.
    + apply Hrest.
    + destruct (negb (unique =? -1)); [|apply Hrest].
      unfold ret. intros [= _ <-]. exists a1.
      split; [reflexivity|]. split; [assumption|lia].
Qed.

(** X27: [isContiguousAccess] only adds to the diagnostics: what was
    emitted before is kept, in order.  For an access whose layout is not
    trivial it answers false, leaves [*memRefDim] as it was and adds
    exactly one diagnostic, the error "NYI: non-trivial layoutMap" on the
    access.  For an access whose layout is trivial it adds no error:
    whenever it returns, it has added remarks only, at most one for each
    index, each on the first of the several [affine.apply] operations
    reachable from an index of the access. *)
Theorem isContiguousAccess_diagnostics (iv : Value) (memoryOp : Op)
    (memRefDim : Z) (diags : Diags) :
  (~ TrivialLayout (getAffineMaps (getMemRefType memoryOp)) ->
   isContiguousAccess iv memoryOp memRefDim diags
   = Some ((false, memRefDim),
           diags ++ [emitError memoryOp "NYI: non-trivial layoutMap"])) /\
  (TrivialLayout (getAffineMaps (getMemRefType memoryOp)) ->
   forall ok dim diags',
     isContiguousAccess iv memoryOp memRefDim diags = Some ((ok, dim), diags') ->
     exists added,
       diags' = diags ++ added /\
       Forall (CompositionRemark (getIndices memoryOp)) added /\
       (length added <= length (getIndices memoryOp))%nat).
Proof.
  unfold isContiguousAccess. split.
  - intros Hlayout.
    destruct (nonTrivialLayout (getAffineMaps (getMemRefType memoryOp)))
      eqn:Htest.
    + reflexivity.
    + apply nonTrivialLayout_false in Htest. contradiction.
  - intros Hlayout ok dim diags'.
    apply nonTrivialLayout_false in Hlayout. rewrite Hlayout.
    unfold bind.
    destruct (indicesLoop iv (getIndices memoryOp) 0 (-1) diags)
      as [[unique d1]|] eqn:Hloop; [|discriminate].
    destruct (indicesLoop_appends _ _ _ _ _ _ _ Hloop)
      as (added & -> & Hadded & Hlen).
    intros Hrun. exists added.
    assert (diags' = diags ++ added) as ->.
    { destruct unique as [u|]; [destruct (u =? -1)|]; unfold ret in Hrun;
        injection Hrun as _ _ <-; reflexivity. }
    split; [reflexivity|]. split; assumption.
Qed.

End Facts.

(** A loop, [300], over a load, [301], of indices [1; 0] and a store, [302],
    of indices [0; 1]; the induction variable is the value [0]. *)
Definition contiguousIR : LoopIR := {|
  getType := fun _ => IndexType;
  isForInductionVar := fun v => Nat.eqb v 0;
  getReachableAffineApplyOps := fun _ => [];
  isFunctionOf := fun _ _ _ => false;
  classof := fun op =>
    match op with
    | 300%nat => AffineForOp_
    | 301%nat => LoadOp
    | 302%nat => StoreOp
    | _ => OtherOp
    end;
  getNumRegions := fun op => match op with 300%nat => 1%nat | _ => 0%nat end;
  walk := fun op =>
    match op with
    | 300%nat => [301; 302; 300]%nat
    | _ => [op]
    end;
  getMemRefType := fun _ => {| getAffineMaps := []; getElementType := FloatType |};
  getIndices := fun op =>
    match op with
    | 301%nat => [1; 0]%nat
    | 302%nat => [0; 1]%nat
    | _ => []
    end
|}.

Lemma getInvariantAccesses_spec_witness :
  exists res diags',
    getInvariantAccesses (H:=contiguousIR) 0%nat [1; 0]%nat [] = Some (res, diags')
    /\ forall v, v ∈ res <-> In v [1; 0]%nat /\ Invariant (H:=contiguousIR) 0%nat v.
Proof.
  apply (getInvariantAccesses_spec (H:=contiguousIR) 0%nat [1; 0]%nat).
  - reflexivity.
  - repeat constructor.
Defined.

(** The store [302] is contiguous along dimension [1]: its first index
    alone varies. *)
Lemma isContiguousAccess_sound_witness :
  TrivialLayout [] /\
  ((1 = -1 /\ Forall (Invariant (H:=contiguousIR) 0%nat) [0; 1]%nat) \/
   (exists pre index post,
       [0; 1]%nat = pre ++ index :: post /\
       Forall (Invariant (H:=contiguousIR) 0%nat) pre /\
       Varies (H:=contiguousIR) 0%nat index /\
       Forall (Invariant (H:=contiguousIR) 0%nat) post /\
       1 = Z.of_nat (length post))).
Proof.
  destruct (isContiguousAccess_sound (H:=contiguousIR) 0%nat 302%nat 7 []
              true 1 []) as [Htrue _].
  - reflexivity.
  - repeat constructor.
  - simpl. unfold INT_MAX. lia.
  - reflexivity.
  - apply Htrue. reflexivity.
Defined.

Lemma isVectorizableLoopBody_dim_accepts_witness :
  (forall diags0,
      isVectorizableLoopBody (H:=contiguousIR) (loop_example 300%nat) diags0
      = Some (true, diags0)) /\
  (forall op, In op [301; 302; 300]%nat ->
     isLoadOrStore (H:=contiguousIR) op = true ->
     exists dimIn ds dimOut ds',
       isContiguousAccess (H:=contiguousIR) 0%nat op dimIn ds
       = Some ((true, dimOut), ds')).
Proof.
  apply (isVectorizableLoopBody_dim_accepts (H:=contiguousIR)
           (loop_example 300%nat) 7 [] 1 []).
  reflexivity.
Defined.

(** The load is contiguous along dimension [0] and the store along
    dimension [1]: the loop reports [1], the dimension of the store. *)
Lemma memRefDim_of_last_access_witness :
  exists dimIn ds ds',
    isContiguousAccess (H:=contiguousIR) 0%nat 302%nat dimIn ds
    = Some ((true, 1), ds').
Proof.
  destruct (memRefDim_of_last_access (H:=contiguousIR)
              (loop_example 300%nat) 7 [] 1 []) as [_ Hlast].
  - reflexivity.
  - apply (Hlast [301%nat] 302%nat). reflexivity.
Defined.

Example load_301_is_contiguous_along_0 :
  isContiguousAccess (H:=contiguousIR) 0%nat 301%nat 7 [] = Some ((true, 0), []).
Proof. reflexivity. Qed.

(** Two more accesses under the induction variable [0]: the load [303]
    reads a memref whose layout map transposes its two dimensions; the
    load [304] reads a memref without layout map, and two [affine.apply]
    operations, [310] and [311], are reachable from its index [5]. *)
Definition layoutIR : LoopIR := {|
  getType := fun _ => IndexType;
  isForInductionVar := fun v => Nat.eqb v 0;
  getReachableAffineApplyOps := fun values =>
    match values with
    | [5%nat] => [310; 311]%nat
    | _ => []
    end;
  isFunctionOf := fun _ _ _ => false;
  classof := fun _ => LoadOp;
  getNumRegions := fun _ => 0%nat;
  walk := fun op => [op];
  getMemRefType := fun op =>
    match op with
    | 303%nat =>
        {| getAffineMaps := [Map 2 0 [AffineDimExpr 1; AffineDimExpr 0]];
           getElementType := FloatType |}
    | _ => {| getAffineMaps := []; getElementType := FloatType |}
    end;
  getIndices := fun op =>
    match op with
    | 303%nat => [1; 0]%nat
    | 304%nat => [5]%nat
    | _ => []
    end
|}.

(** The load [303] is refused for its layout: one error on [303] is added
    to what had been emitted, and [*memRefDim] keeps its value [7]. *)
Lemma isContiguousAccess_diagnostics_witness :
  ~ TrivialLayout (getAffineMaps (getMemRefType (LoopIR:=layoutIR) 303%nat)) /\
  isContiguousAccess (H:=layoutIR) 0%nat 303%nat 7 [emitRemark 9%nat "earlier"]
  = Some ((false, 7),
          [emitRemark 9%nat "earlier"]
          ++ [emitError 303%nat "NYI: non-trivial layoutMap"]).
Proof.
  assert (Hlayout : ~ TrivialLayout
                      (getAffineMaps (getMemRefType (LoopIR:=layoutIR) 303%nat))).
  { intros Htrivial. apply nonTrivialLayout_false in Htrivial.
    vm_compute in Htrivial. discriminate. }
  split; [exact Hlayout|].
  apply (proj1 (isContiguousAccess_diagnostics (H:=layoutIR) 0%nat 303%nat 7
                  [emitRemark 9%nat "earlier"])).
  exact Hlayout.
Defined.

(** The load [304] has a trivial layout: the remark on [310] is all it
    adds, and it is accepted as varying along its only index. *)
Example load_304_adds_one_remark :
  isContiguousAccess (H:=layoutIR) 0%nat 304%nat 7 []
  = Some ((true, 0),
          [emitRemark 310%nat
             "CompositionAffineMapsPass must have been run: there should be at most one AffineApplyOp, returning false conservatively."]).
Proof. reflexivity. Qed.

End LoopAnalysisFacts.

(** ** Dominance: the other queries of [lib/Analysis/Dominance.cpp]

    [recalculate] on an operation, [properlyDominates] on a value and an
    operation, [properlyPostDominates], and further properties of the
    queries on blocks and operations. *)

Module DominanceFacts.
Import IRGraph DenseMap Dominance.

Section Recalculate.
Context {Tree : Type} `{DominatorTreeBase Tree}.
Variable G : Graph.
Variable IsPostDom : bool.

(** [DominanceInfoBase::recalculate] on an operation: the member
    [dominanceInfos] after the call.  [walk] lists the operations that
    [op->walk] visits, the operations nested under [op] and [op] itself. *)
Definition recalculateOperation (walk : list Op) : gmap Region Tree :=
  let dominanceInfos : gmap Region Tree := ∅ in
  fold_left (recalculateOp G IsPostDom) walk dominanceInfos.

(** A region that [recalculate] visits under the operations of a walk and
    gives a tree to: a region of one of them that is not empty. *)
Definition VisitedRegion (walk : list Op) (region : Region) : Prop :=
  exists op, In op walk /\ In region (op_regions G op) /\
             region_blocks G region <> [].

Lemma try_emplace_lookup {V} key (value : V) (m : gmap nat V) k v :
  try_emplace key value m !! k = Some v -> m !! k = Some v \/ k = key.
Proof.
  unfold try_emplace. destruct (m !! key) eqn:Hkey; [auto|].
  destruct (decide (key = k)) as [->|Hne]; [auto|].
  rewrite lookup_insert_ne by assumption. auto.
Qed.

Lemma recalculateRegion_lookup infos region k v :
  recalculateRegion G IsPostDom infos region !! k = Some v ->
  infos !! k = Some v \/ (k = region /\ region_blocks G region <> []).
Proof.
  unfold recalculateRegion.
  destruct (region_blocks G region) as [|block rest] eqn:Hblocks; simpl;
    [auto|].
  intros Hk. apply try_emplace_lookup in Hk as [Hk| ->]; [auto|].
  right. split; [reflexivity|discriminate].
Qed.

Lemma recalculateOp_lookup op k v : forall infos,
  recalculateOp G IsPostDom infos op !! k = Some v ->
  infos !! k = Some v \/
  (In k (op_regions G op) /\ region_blocks G k <> []).
Proof.
  unfold recalculateOp.
  induction (op_regions G op) as [|region regions IH]; intros infos; simpl;
    [auto|].
  intros Hk. apply IH in Hk as [Hk|[Hin Hne]]; [|auto].
  apply recalculateRegion_lookup in Hk as [Hk|[-> Hne]]; auto.
Qed.

Lemma walk_lookup walk k v : forall infos,
  fold_left (recalculateOp G IsPostDom) walk infos !! k = Some v ->
  infos !! k = Some v \/ VisitedRegion walk k.
Proof.
  induction walk as [|op walk IH]; intros infos; simpl; [auto|].
  intros Hk. apply IH in Hk as [Hk|(op' & Hin & Hreg & Hne)].
  - apply recalculateOp_lookup in Hk as [Hk|[Hreg Hne]]; [auto|].
    right. exists op. split; [left; reflexivity|split; assumption].
  - right. exists op'. split; [right; assumption|split; assumption].
Qed.

Lemma walk_present walk k infos :
  VisitedRegion walk k ->
  is_Some (fold_left (recalculateOp G IsPostDom) walk infos !! k).
Proof.
  intros (op & Hin & Hreg & Hne).
  apply (fold_left_present _ _ op); [|assumption|].
  - intros. apply recalculateOp_keeps. assumption.
  - intros m. apply recalculateOp_present; assumption.
Qed.

Lemma walk_TreesOfKeys walk infos :
  TreesOfKeys IsPostDom infos ->
  TreesOfKeys IsPostDom (fold_left (recalculateOp G IsPostDom) walk infos).
Proof.
  apply fold_left_invariant.
  intros m op Hm. unfold recalculateOp. apply fold_left_invariant; [|exact Hm].
  intros m' region Hm'. unfold recalculateRegion.
  destruct (isEmpty (region_blocks G region)); [assumption|].
  apply try_emplace_TreesOfKeys. assumption.
Qed.

(** X13: after [recalculate] on a function the regions that have a
    dominator tree are the body of the function, empty or not, and the
    regions of the operations of the walk that are not empty, and no
    others; after [recalculate] on an operation they are the non-empty
    regions of the operations of the walk alone.  The tree of a region is
    the one computed for that region. *)
Theorem recalculate_domain (function : Function) (walk : list Op)
    (region : Region) :
  (is_Some (recalculate G IsPostDom function !! region) <->
   region = fn_body function \/ VisitedRegion (fn_walk function) region) /\
  (is_Some (recalculateOperation walk !! region) <->
   VisitedRegion walk region) /\
  (forall tree,
      recalculate G IsPostDom function !! region = Some tree \/
      recalculateOperation walk !! region = Some tree ->
      tree = tree_recalculate IsPostDom region).
Proof.
  split; [|split].
  - unfold recalculate. split.
    + intros [tree Htree]. apply walk_lookup in Htree as [Htree|Hvisited];
        [|auto].
      apply try_emplace_lookup in Htree as [Htree|Heq]; [|auto].
      rewrite lookup_empty in Htree. discriminate.
    + intros [->|Hvisited]; [|apply walk_present; assumption].
      destruct (try_emplace_present (fn_body function)
                  (tree_recalculate IsPostDom (fn_body function))
                  (∅ : gmap Region Tree)) as [tree Htree].
      exists tree. apply fold_left_keeps; [|assumption].
      intros. apply recalculateOp_keeps. assumption.
  - unfold recalculateOperation. split.
    + intros [tree Htree]. apply walk_lookup in Htree as [Htree|Hvisited];
        [|assumption].
      rewrite lookup_empty in Htree. discriminate.
    + apply walk_present.
  - intros tree [Htree|Htree].
    + exact (recalculate_TreesOfKeys G IsPostDom function _ _ Htree).
    + revert Htree. apply walk_TreesOfKeys.
      intros r t. rewrite lookup_empty. discriminate.
Qed.

End Recalculate.

(** *** Walks up the regions *)

Section Walks.
Variable G : Graph.
Variable depth : Region -> nat.
Hypothesis Hnest : Nesting G depth.

Lemma Climb_functional regionA regionB r1 r2 :
  Climb G regionA regionB r1 -> Climb G regionA regionB r2 -> r1 = r2.
Proof.
  intros H1. revert r2.
  induction H1 as [regionB Hop|regionB anc Hop Hreg
                  |regionB anc result Hop Hreg _ IH]; intros r2 H2;
    inversion H2 as [? Hop'|? anc' Hop' Hreg'|? anc' ? Hop' Hreg' Hrec];
    subst; try congruence.
  rewrite Hop in Hop'. injection Hop' as <-. apply IH, Hrec.
Qed.

(** The walk of [findAncestorInstInBlock] and the walk of
    [properlyDominates] go up the same chain: from an operation nested
    under a block, the walk towards the region of the block stops at the
    ancestor in the block. *)
Lemma AncestorInBlock_Climb block op anc :
  AncestorInBlock G block op anc ->
  op_block G op <> block ->
  Climb G (block_parent G block) (op_region G op) (Reached anc).
Proof.
  induction 1 as [op Hop|op parent anc Hop Hparent Hrec IH]; intros Hne;
    [contradiction|].
  unfold getParentOp in Hparent. fold (op_region G op) in Hparent.
  destruct (Nat.eq_dec (op_block G parent) block) as [Heq|Hne'].
  - assert (anc = parent) as ->.
    { inversion Hrec; subst; [reflexivity|contradiction]. }
    apply climb_reached; [assumption|]. rewrite Heq. reflexivity.
  - eapply climb_step; [eassumption| |apply IH; assumption].
    pose proof (AncestorInBlock_block _ _ _ _ Hrec) as Hblock.
    destruct (AncestorInBlock_depth G depth _ _ _ Hnest Hrec) as [->|Hlt];
      [contradiction|].
    unfold op_region in Hlt. rewrite Hblock in Hlt. intros Heq.
    rewrite Heq in Hlt. lia.
Qed.

(** An operation strictly nested under a block lies in a deeper region. *)
Lemma nested_deeper block op anc :
  AncestorInBlock G block op anc -> op_block G op <> block ->
  depth (block_parent G block) < depth (op_region G op).
Proof.
  intros Hanc Hne.
  pose proof (AncestorInBlock_block _ _ _ _ Hanc) as Hblock.
  destruct (AncestorInBlock_depth G depth _ _ _ Hnest Hanc) as [->|Hlt];
    [contradiction|].
  unfold op_region in Hlt. rewrite Hblock in Hlt. assumption.
Qed.

(** Towards a region that is not above, the walk leaves through the top:
    the answer on blocks is [IsPostDom]. *)
Lemma properlyDominates_not_above {Tree} `{DominatorTreeBase Tree}
    IsPostDom (infos : gmap Region Tree) fuel a b :
  depth (block_parent G b) < fuel ->
  depth (block_parent G b) < depth (block_parent G a) ->
  properlyDominates G IsPostDom infos fuel a b = Some IsPostDom.
Proof.
  intros Hfuel Hlt. unfold properlyDominates.
  destruct (Nat.eqb_spec a b) as [->|_]; [lia|].
  destruct (Nat.eqb_spec (block_parent G a) (block_parent G b)) as [Heq|_];
    [rewrite Heq in Hlt; lia|]. simpl.
  destruct (walkUp_Climb G depth (block_parent G a) Hnest fuel
              (block_parent G b) Hfuel) as (result & -> & Hclimb).
  destruct result as [|anc]; [reflexivity|].
  destruct (Climb_depth G depth _ _ _ Hnest Hclimb) as [_ Hlt']. lia.
Qed.

(** There is no ancestor to find in a block of a region that is not
    above. *)
Lemma findAncestorInstInBlock_not_above fuel block op :
  depth (op_region G op) < fuel ->
  depth (op_region G op) < depth (block_parent G block) ->
  findAncestorInstInBlock G fuel block op = Some None.
Proof.
  intros Hfuel Hlt.
  destruct (findAncestorInstInBlock_spec G depth block Hnest fuel op Hfuel)
    as [(anc & _ & Hanc)|[Hfind _]]; [|assumption].
  pose proof (AncestorInBlock_block _ _ _ _ Hanc) as Hblock.
  destruct (AncestorInBlock_depth G depth _ _ _ Hnest Hanc) as [->|Hlt'].
  - unfold op_region in Hlt. rewrite Hblock in Hlt. lia.
  - unfold op_region in Hlt, Hlt'. rewrite Hblock in Hlt'. lia.
Qed.

End Walks.

(** *** Blocks of different regions *)

(** X14: of two blocks in different regions at most one properly
    dominates the other, whatever dominator trees have been computed, even
    none: the answer can be true only towards a region nested more
    deeply. *)
Theorem properlyDominates_regions_asymmetric {Tree} `{DominatorTreeBase Tree}
    (G : Graph) (dominanceInfos : gmap Region Tree) (depth : Region -> nat)
    (fuel : nat) (a b : Block) :
  Nesting G depth ->
  depth (block_parent G a) < fuel -> depth (block_parent G b) < fuel ->
  block_parent G a <> block_parent G b ->
  exists ab ba,
    properlyDominates G false dominanceInfos fuel a b = Some ab /\
    properlyDominates G false dominanceInfos fuel b a = Some ba /\
    (ab = true -> depth (block_parent G a) < depth (block_parent G b)) /\
    (ba = true -> depth (block_parent G b) < depth (block_parent G a)) /\
    ~ (ab = true /\ ba = true).
Proof.
  intros Hnest Hfa Hfb Hregions.
  assert (forall x y,
            depth (block_parent G y) < fuel ->
            block_parent G x <> block_parent G y ->
            exists r, properlyDominates G false dominanceInfos fuel x y = Some r
                      /\ (r = true ->
                          depth (block_parent G x) < depth (block_parent G y)))
    as Hone.
  { intros x y Hfuel Hne. unfold properlyDominates.
    destruct (Nat.eqb_spec x y) as [->|_]; [contradiction|].
    destruct (Nat.eqb_spec (block_parent G x) (block_parent G y)) as [?|_];
      [contradiction|]. simpl.
    destruct (walkUp_Climb G depth (block_parent G x) Hnest fuel
                (block_parent G y) Hfuel) as (result & -> & Hclimb).
    destruct result as [|anc].
    - eexists. split; [reflexivity|discriminate].
    - destruct (Climb_depth G depth _ _ _ Hnest Hclimb) as [_ Hlt].
      destruct (Nat.eqb x (op_block G anc)); eauto. }
  destruct (Hone a b Hfb Hregions) as (ab & Hab & Hab_true).
  destruct (Hone b a Hfa (not_eq_sym Hregions)) as (ba & Hba & Hba_true).
  exists ab, ba. repeat split; try assumption.
  intros [Htrue Htrue']. specialize (Hab_true Htrue).
  specialize (Hba_true Htrue'). lia.
Qed.

(** *** Operations and the operations nested in their regions *)

Section Operations.
Context {Tree : Type} `{DominatorTreeBase Tree}.
Variable G : Graph.
Variable dominanceInfos : gmap Region Tree.

Lemma properlyDominatesOp_unfold fuel a b :
  properlyDominatesOp G dominanceInfos (S fuel) a b
  = if Nat.eqb (op_block G a) (op_block G b)
    then Some (isBeforeInBlock G a b)
    else match findAncestorInstInBlock G (S fuel) (op_block G a) b with
         | None => None
         | Some (Some bAncestor) =>
             dominatesOpWith (properlyDominatesOp G dominanceInfos fuel)
                             a bAncestor
         | Some None =>
             properlyDominates G false dominanceInfos (S fuel)
               (op_block G a) (op_block G b)
         end.
Proof. reflexivity. Qed.

(** Modelled from the spec: [postDominates] on two operations, of
    [Dominance.h], the mirror of [dominates]:
    [a == b || properlyPostDominates(a, b)]. *)
Definition postDominatesWith (properly : Op -> Op -> option bool) (a b : Op)
  : option bool :=
  if Nat.eqb a b then Some true else properly a b.

(** [PostDominanceInfo::properlyPostDominates].  The query on blocks is
    that of [DominanceInfoBase] with [IsPostDom = true]. *)
Fixpoint properlyPostDominates (fuel : nat) (a b : Op) : option bool :=
  match fuel with
  | O => None
  | S fuel' =>
      let aBlock := op_block G a in
      let bBlock := op_block G b in
      if Nat.eqb aBlock bBlock then Some (isBeforeInBlock G b a)
      else
        match findAncestorInstInBlock G (S fuel') (op_block G a) b with
        | None => None
        | Some (Some bAncestor) =>
            postDominatesWith (properlyPostDominates fuel') a bAncestor
        | Some None =>
            properlyDominates G true dominanceInfos (S fuel') aBlock bBlock
        end
  end.

Definition postDominates (fuel : nat) (a b : Op) : option bool :=
  postDominatesWith (properlyPostDominates fuel) a b.

Lemma properlyPostDominates_unfold fuel a b :
  properlyPostDominates (S fuel) a b
  = if Nat.eqb (op_block G a) (op_block G b)
    then Some (isBeforeInBlock G b a)
    else match findAncestorInstInBlock G (S fuel) (op_block G a) b with
         | None => None
         | Some (Some bAncestor) =>
             postDominatesWith (properlyPostDominates fuel) a bAncestor
         | Some None =>
             properlyDominates G true dominanceInfos (S fuel)
               (op_block G a) (op_block G b)
         end.
Proof. reflexivity. Qed.

(** The values of the IR: [Value::getDefiningOp], the operation whose
    result the value is, null for a block argument, and
    [BlockArgument::getOwner], the block of a block argument. *)
Record Values := {
  getDefiningOp : Value -> option Op;
  getOwner : Value -> Block
}.

(** [DominanceInfo::properlyDominates] on a value and an operation. *)
Definition properlyDominatesValue (V : Values) (fuel : nat) (a : Value)
    (b : Op) : option bool :=
  match getDefiningOp V a with
  | Some aInst => properlyDominatesOp G dominanceInfos fuel aInst b
  | None =>
      dominates G false dominanceInfos fuel (getOwner V a) (op_block G b)
  end.

Variable depth : Region -> nat.
Hypothesis Hnest : Nesting G depth.

Lemma findAncestorInstInBlock_nested fuel block op anc :
  depth (op_region G op) < fuel ->
  AncestorInBlock G block op anc ->
  findAncestorInstInBlock G fuel block op = Some (Some anc).
Proof.
  intros Hfuel Hanc.
  destruct (findAncestorInstInBlock_spec G depth block Hnest fuel op Hfuel)
    as [(anc' & Hfind & Hanc')|[_ Hnone]].
  - rewrite Hfind.
    rewrite (AncestorInBlock_functional G _ _ _ _ Hanc Hanc'). reflexivity.
  - destruct (Hnone _ Hanc).
Qed.

Lemma nested_blocks_differ a b :
  a <> b -> AncestorInBlock G (op_block G a) b a ->
  op_block G b <> op_block G a.
Proof.
  intros Hab Hanc Heq. inversion Hanc; subst; congruence.
Qed.

(** X15: an operation properly dominates every operation nested in its
    regions, at any depth, and none of them properly dominates it,
    whatever dominator trees have been computed. *)
Theorem operation_dominates_nested (fuel : nat) (a b : Op) :
  depth (op_region G b) < fuel ->
  a <> b ->
  AncestorInBlock G (op_block G a) b a ->
  properlyDominatesOp G dominanceInfos fuel a b = Some true /\
  properlyDominatesOp G dominanceInfos fuel b a = Some false.
Proof.
  intros Hfuel Hab Hanc.
  pose proof (nested_blocks_differ a b Hab Hanc) as Hblocks.
  pose proof (nested_deeper G depth Hnest _ _ _ Hanc Hblocks) as Hdeeper.
  fold (op_region G a) in Hdeeper.
  destruct fuel as [|fuel]; [lia|]. split.
  - rewrite properlyDominatesOp_unfold.
    destruct (Nat.eqb_spec (op_block G a) (op_block G b)) as [?|_];
      [congruence|].
    rewrite (findAncestorInstInBlock_nested _ _ _ _ Hfuel Hanc).
    unfold dominatesOpWith. rewrite Nat.eqb_refl. reflexivity.
  - rewrite properlyDominatesOp_unfold.
    destruct (Nat.eqb_spec (op_block G b) (op_block G a)) as [?|_];
      [congruence|].
    rewrite (findAncestorInstInBlock_not_above G depth Hnest);
      [|unfold op_region in *; lia|assumption].
    apply (properlyDominates_not_above G depth Hnest);
      unfold op_region in *; lia.
Qed.

(** X16: an operation and an operation nested in its regions properly
    post-dominate each other: the mirrored query is not antisymmetric,
    because a walk that leaves through the top answers true.  Within one
    block [a] properly post-dominates [b] exactly when [b] properly
    dominates [a]. *)
Theorem properlyPostDominates_nested (fuel : nat) (a b : Op) :
  depth (op_region G b) < fuel ->
  a <> b ->
  (AncestorInBlock G (op_block G a) b a ->
   properlyPostDominates fuel a b = Some true /\
   properlyPostDominates fuel b a = Some true) /\
  (op_block G a = op_block G b ->
   properlyPostDominates fuel a b = properlyDominatesOp G dominanceInfos fuel b a
   /\ properlyPostDominates fuel a b = Some (isBeforeInBlock G b a)).
Proof.
  intros Hfuel Hab. destruct fuel as [|fuel]; [lia|]. split.
  - intros Hanc.
    pose proof (nested_blocks_differ a b Hab Hanc) as Hblocks.
    pose proof (nested_deeper G depth Hnest _ _ _ Hanc Hblocks) as Hdeeper.
    fold (op_region G a) in Hdeeper. split.
    + rewrite properlyPostDominates_unfold.
      destruct (Nat.eqb_spec (op_block G a) (op_block G b)) as [?|_];
        [congruence|].
      rewrite (findAncestorInstInBlock_nested _ _ _ _ Hfuel Hanc).
      unfold postDominatesWith. rewrite Nat.eqb_refl. reflexivity.
    + rewrite properlyPostDominates_unfold.
      destruct (Nat.eqb_spec (op_block G b) (op_block G a)) as [?|_];
        [congruence|].
      rewrite (findAncestorInstInBlock_not_above G depth Hnest);
        [|unfold op_region in *; lia|assumption].
      apply (properlyDominates_not_above G depth Hnest);
        unfold op_region in *; lia.
  - intros Hsame.
    rewrite properlyPostDominates_unfold, properlyDominatesOp_unfold.
    rewrite Hsame, Nat.eqb_refl. split; reflexivity.
Qed.

(** X17: a block argument properly dominates every operation of its own
    block, the first one included, and every operation nested under one of
    them; the result of an operation does not properly dominate the
    operation that defines it. *)
Theorem block_argument_dominates (V : Values) (fuel : nat) (a : Value)
    (b anc : Op) :
  depth (op_region G b) < fuel ->
  (getDefiningOp V a = None ->
   AncestorInBlock G (getOwner V a) b anc ->
   properlyDominatesValue V fuel a b = Some true) /\
  (getDefiningOp V a = Some b ->
   properlyDominatesValue V fuel a b = Some false).
Proof.
  intros Hfuel. unfold properlyDominatesValue. split.
  - intros -> Hanc. unfold dominates.
    destruct (Nat.eqb_spec (getOwner V a) (op_block G b)) as [_|Hne];
      [reflexivity|].
    apply not_eq_sym in Hne.
    pose proof (nested_deeper G depth Hnest _ _ _ Hanc Hne) as Hdeeper.
    pose proof (AncestorInBlock_Climb G depth Hnest _ _ _ Hanc Hne) as Hclimb.
    unfold properlyDominates.
    destruct (Nat.eqb_spec (getOwner V a) (op_block G b)) as [?|_];
      [congruence|].
    fold (op_region G b).
    destruct (Nat.eqb_spec (block_parent G (getOwner V a)) (op_region G b))
      as [Heq|_]; [rewrite Heq in Hdeeper; lia|]. simpl.
    destruct (walkUp_Climb G depth (block_parent G (getOwner V a)) Hnest fuel
                (op_region G b) Hfuel) as (result & -> & Hclimb').
    rewrite (Climb_functional G _ _ _ _ Hclimb' Hclimb).
    rewrite (AncestorInBlock_block _ _ _ _ Hanc), Nat.eqb_refl. reflexivity.
  - intros ->. destruct fuel as [|fuel]; [lia|].
    rewrite properlyDominatesOp_unfold, Nat.eqb_refl.
    unfold isBeforeInBlock. rewrite Nat.ltb_irrefl. reflexivity.
Qed.

End Operations.

(** The values of the concrete function: each operation defines the value
    of its number; the value [100] is the argument of the entry block. *)
Definition exampleValues : Values := {|
  getDefiningOp := fun v => if Nat.eqb v 100 then None else Some v;
  getOwner := fun _ => 0
|}.

Lemma op_20_nested_in_op_11 : AncestorInBlock exampleGraph 0 20 11.
Proof.
  apply (ancestor_up _ _ 20 11 11); [discriminate|reflexivity|].
  constructor. reflexivity.
Qed.

Lemma properlyDominates_regions_asymmetric_witness :
  exists ab ba,
    properlyDominates exampleGraph false (∅ : gmap Region TableTree) 5 0 2
    = Some ab /\
    properlyDominates exampleGraph false (∅ : gmap Region TableTree) 5 2 0
    = Some ba /\
    (ab = true -> exampleDepth 0 < exampleDepth 1) /\
    (ba = true -> exampleDepth 1 < exampleDepth 0) /\
    ~ (ab = true /\ ba = true).
Proof.
  apply (properlyDominates_regions_asymmetric exampleGraph
           (∅ : gmap Region TableTree) exampleDepth 5 0 2).
  - exact exampleGraph_Nesting.
  - simpl. lia.
  - simpl. lia.
  - simpl. discriminate.
Defined.

Lemma operation_dominates_nested_witness :
  properlyDominatesOp exampleGraph (∅ : gmap Region TableTree) 5 11 20
  = Some true /\
  properlyDominatesOp exampleGraph (∅ : gmap Region TableTree) 5 20 11
  = Some false.
Proof.
  apply (operation_dominates_nested exampleGraph (∅ : gmap Region TableTree)
           exampleDepth exampleGraph_Nesting 5 11 20).
  - simpl. lia.
  - discriminate.
  - exact op_20_nested_in_op_11.
Defined.

Lemma properlyPostDominates_nested_witness :
  properlyPostDominates exampleGraph (∅ : gmap Region TableTree) 5 11 20
  = Some true /\
  properlyPostDominates exampleGraph (∅ : gmap Region TableTree) 5 20 11
  = Some true.
Proof.
  destruct (properlyPostDominates_nested exampleGraph
              (∅ : gmap Region TableTree) exampleDepth exampleGraph_Nesting
              5 11 20) as [Hnested _].
  - simpl. lia.
  - discriminate.
  - apply Hnested. exact op_20_nested_in_op_11.
Defined.

Example op_12_post_dominates_op_10 :
  properlyPostDominates exampleGraph
    (recalculate exampleGraph true exampleFunction) 5 12 10 = Some true /\
  properlyPostDominates exampleGraph
    (recalculate exampleGraph true exampleFunction) 5 10 12 = Some false /\
  properlyPostDominates exampleGraph
    (recalculate exampleGraph true exampleFunction) 5 13 10 = Some true.
Proof. repeat split. Qed.

Lemma block_argument_dominates_witness :
  properlyDominatesValue exampleGraph (∅ : gmap Region TableTree)
    exampleValues 5 100 20 = Some true.
Proof.
  destruct (block_argument_dominates exampleGraph (∅ : gmap Region TableTree)
              exampleDepth exampleGraph_Nesting exampleValues 5 100 20 11)
    as [Hargument _].
  - simpl. lia.
  - apply Hargument; [reflexivity|exact op_20_nested_in_op_11].
Defined.

Example argument_100_dominates_op_10 :
  properlyDominatesValue exampleGraph
    (recalculate exampleGraph false exampleFunction) exampleValues 5 100 10
  = Some true /\
  properlyDominatesValue exampleGraph
    (recalculate exampleGraph false exampleFunction) exampleValues 5 10 20
  = Some true /\
  properlyDominatesValue exampleGraph
    (recalculate exampleGraph false exampleFunction) exampleValues 5 20 10
  = Some false.
Proof. repeat split. Qed.

End DominanceFacts.

(** ** Operation-wise shifts: further properties of [isInstwiseShiftValid] *)

Module InstwiseShiftFacts.
Import MathExtras IRGraph DenseMap TripCount InstwiseShift.
Local Open Scope Z_scope.

Lemma lookup_map {A B} (f : A -> B) (l : list A) : forall i,
  map f l !! i = option_map f (l !! i).
Proof.
  induction l as [|a l IH]; intros [|i]; simpl; try reflexivity. apply IH.
Qed.

Section Facts.
Variable G : Graph.
Variable depth : Region -> nat.
Variable fuel : nat.
Variable forOp : AffineForOp.

Let forBody := getBody forOp.
Let ops := block_operations G forBody.

Hypothesis Hnest : Nesting G depth.
Hypothesis Hfuel : forall op, (depth (op_region G op) < fuel)%nat.
Hypothesis Hnodup : NoDup ops.
Hypothesis Hdef : DefBeforeUse G forBody ops.

(** The check run on a list of shifts of the right length. *)
Lemma isInstwiseShiftValid_SameShift (shifts : list Z) :
  length shifts = length ops ->
  exists valid,
    isInstwiseShiftValid G fuel forOp shifts = Some valid /\
    (valid = true <->
     forall i, (i < length ops)%nat -> SameShift G forBody shifts ops i).
Proof.
  intros Hlen.
  destruct (opsLoop_spec G depth fuel forBody shifts Hnest Hfuel ops Hlen
              Hnodup Hdef ops [] ∅) as (ok & Hloop & Hok).
  - rewrite app_nil_r. reflexivity.
  - apply MapOf_empty.
  - exists ok. split; [|exact Hok].
    unfold isInstwiseShiftValid. fold forBody. fold ops.
    rewrite Hlen, Nat.eqb_refl. simpl negb. cbv iota.
    unfold enumerate. rewrite length_rev. exact Hloop.
Qed.

(** X11: shifting every operation of the body by the same amount is always
    valid. *)
Theorem uniform_shifts_are_valid (shifts : list Z) (s : Z) :
  length shifts = length ops ->
  (forall i x, shifts !! i = Some x -> x = s) ->
  isInstwiseShiftValid G fuel forOp shifts = Some true.
Proof.
  intros Hlen Huniform.
  destruct (isInstwiseShiftValid_SameShift shifts Hlen) as (valid & -> & Hvalid).
  f_equal. apply Hvalid.
  intros i _ j op result user anc Hop _ _ _ Hanc.
  assert (forall k o, ops !! k = Some o -> shifts !! k = Some s) as Hs.
  { intros k o Hk. apply lookup_lt_Some in Hk. rewrite <- Hlen in Hk.
    destruct (lookup_lt_is_Some_2 shifts k Hk) as [x Hx].
    rewrite Hx. f_equal. eapply Huniform. eassumption. }
  rewrite (Hs _ _ Hop), (Hs _ _ Hanc). reflexivity.
Qed.

(** X12: the answer depends only on which operations share a shift, not
    on the amounts: renaming the shifts by an injective function, such as
    adding a constant to all of them, does not change it. *)
Theorem relabelled_shifts_are_as_valid (shifts : list Z) (f : Z -> Z) :
  length shifts = length ops ->
  (forall x y, f x = f y -> x = y) ->
  isInstwiseShiftValid G fuel forOp (map f shifts)
  = isInstwiseShiftValid G fuel forOp shifts
  /\ exists valid, isInstwiseShiftValid G fuel forOp shifts = Some valid.
Proof.
  intros Hlen Hinj.
  destruct (isInstwiseShiftValid_SameShift shifts Hlen) as (valid & Hrun & Hvalid).
  destruct (isInstwiseShiftValid_SameShift (map f shifts))
    as (valid' & Hrun' & Hvalid').
  { rewrite length_map. exact Hlen. }
  split; [|eauto]. rewrite Hrun, Hrun'. f_equal.
  assert (forall i, SameShift G forBody (map f shifts) ops i
                    <-> SameShift G forBody shifts ops i) as Hsame.
  { intros i. unfold SameShift. split.
    - intros Hall j op result user anc Hop Hres Huser Hanc Hj.
      specialize (Hall j op result user anc Hop Hres Huser Hanc Hj).
      rewrite !lookup_map in Hall.
      destruct (shifts !! j), (shifts !! i); simpl in Hall;
        try discriminate; try reflexivity.
      injection Hall as Hall. f_equal. apply Hinj. exact Hall.
    - intros Hall j op result user anc Hop Hres Huser Hanc Hj.
      rewrite !lookup_map.
      rewrite (Hall j op result user anc Hop Hres Huser Hanc Hj).
      reflexivity. }
  destruct valid, valid'; try reflexivity.
  - apply Hvalid'. intros i Hi. apply Hsame.
    apply Hvalid; [reflexivity|assumption].
  - symmetry. apply Hvalid. intros i Hi. apply Hsame.
    apply Hvalid'; [reflexivity|assumption].
Qed.

End Facts.

(** X28: when no result of an operation of the body is used within the
    body, directly or through a nested operation, every assignment of
    shifts of the right length is valid. *)
Theorem unused_results_any_shift (G : Graph) (depth : Region -> nat)
    (fuel : nat) (forOp : AffineForOp) (shifts : list Z) :
  let forBody := getBody forOp in
  let ops := block_operations G forBody in
  Nesting G depth ->
  (forall op, (depth (op_region G op) < fuel)%nat) ->
  NoDup ops ->
  length shifts = length ops ->
  (forall op result user anc,
      In op ops -> In result (op_results G op) ->
      In user (value_users G result) ->
      ~ AncestorInBlock G forBody user anc) ->
  isInstwiseShiftValid G fuel forOp shifts = Some true.
Proof.
  intros forBody ops Hnest Hfuel Hnodup Hlen Hunused.
  assert (forall i op, ops !! i = Some op -> In op ops) as Hin.
  { intros i op Hop. apply list_elem_of_In. eapply list_elem_of_lookup_2.
    exact Hop. }
  assert (DefBeforeUse G forBody ops) as Hdef.
  { intros i op result user anc Hop Hres Huser Hanc.
    destruct (Hunused op result user anc (Hin _ _ Hop) Hres Huser Hanc). }
  destruct (isInstwiseShiftValid_SameShift G depth fuel forOp Hnest Hfuel
              Hnodup Hdef shifts Hlen) as (valid & -> & Hvalid).
  f_equal. apply Hvalid.
  intros i _ j op result user anc Hop Hres Huser Hanc.
  destruct (Hunused op result user anc (Hin _ _ Hop) Hres Huser Hanc).
Qed.

(** A loop whose body, block [1] of the concrete function, holds the
    operation [13] alone, whose result is not used. *)
Definition unusedLoop : AffineForOp := {|
  getOperation := 11%nat; getLoc := 0%nat; getStep := 1;
  getLowerBoundMap := Affine.getConstantAffineMap 0;
  getUpperBoundMap := Affine.getConstantAffineMap 10;
  getLowerBoundOperands := []; getUpperBoundOperands := [];
  getInductionVar := 0%nat; getBody := 1%nat
|}.

Lemma exampleLoop_fuel op :
  (Dominance.exampleDepth (op_region Dominance.exampleGraph op) < 5)%nat.
Proof.
  unfold Dominance.exampleDepth.
  destruct (op_region Dominance.exampleGraph op) as [|[|region]]; lia.
Qed.

Lemma exampleLoop_NoDup :
  NoDup (block_operations Dominance.exampleGraph (getBody exampleLoop)).
Proof. apply (bool_decide_unpack _). vm_compute. exact I. Qed.

Lemma uniform_shifts_are_valid_witness :
  isInstwiseShiftValid Dominance.exampleGraph 5 exampleLoop [3; 3] = Some true.
Proof.
  apply (uniform_shifts_are_valid Dominance.exampleGraph
           Dominance.exampleDepth 5 exampleLoop
           Dominance.exampleGraph_Nesting exampleLoop_fuel exampleLoop_NoDup
           exampleLoop_DefBeforeUse [3; 3] 3).
  - reflexivity.
  - intros [|[|i]] x Hx; simpl in Hx; try discriminate;
      injection Hx as <-; reflexivity.
Defined.

Lemma relabelled_shifts_are_as_valid_witness :
  isInstwiseShiftValid Dominance.exampleGraph 5 exampleLoop
    (map (fun x => x + 4) [0; 1])
  = isInstwiseShiftValid Dominance.exampleGraph 5 exampleLoop [0; 1]
  /\ exists valid,
      isInstwiseShiftValid Dominance.exampleGraph 5 exampleLoop [0; 1]
      = Some valid.
Proof.
  apply (relabelled_shifts_are_as_valid Dominance.exampleGraph
           Dominance.exampleDepth 5 exampleLoop
           Dominance.exampleGraph_Nesting exampleLoop_fuel exampleLoop_NoDup
           exampleLoop_DefBeforeUse [0; 1] (fun x => x + 4)).
  - reflexivity.
  - intros x y Hxy. lia.
Defined.

Lemma unused_results_any_shift_witness :
  isInstwiseShiftValid Dominance.exampleGraph 5 unusedLoop [42] = Some true.
Proof.
  apply (unused_results_any_shift Dominance.exampleGraph
           Dominance.exampleDepth 5 unusedLoop [42]).
  - exact Dominance.exampleGraph_Nesting.
  - exact exampleLoop_fuel.
  - apply (bool_decide_unpack _). vm_compute. exact I.
  - reflexivity.
  - intros op result user anc [<-|[]] [<-|[]] [].
Defined.

End InstwiseShiftFacts.

(** ** Traits, properties and verifiers: further properties

    [include/mlir/IR/Operation.h], [include/mlir/IR/OpDefinition.h] and the
    two operations of [include/mlir/IR/Module.h]. *)

Module TraitFacts.
Import OperationSupport OpDefinition.
Local Open Scope Z_scope.

#[global] Instance Trait_eq_dec : EqDecision Trait.
Proof. solve_decision. Defined.

(** [Op::hasTrait]: [llvm::is_one_of] over the traits the operation class
    is declared with. *)
Definition hasTrait (trait : Trait) (traits : list Trait) : bool :=
  existsb (fun t => bool_decide (t = trait)) traits.

(** The trait that declares a property. *)
Definition propertyTrait (p : OperationProperty) : Trait :=
  match p with
  | Commutative => IsCommutative
  | NoSideEffect => HasNoSideEffect
  | Terminator => IsTerminator
  | IsolatedFromAbove => IsIsolatedFromAbove
  end.

(** The traits of [ModuleOp] and [ModuleTerminatorOp], from their class
    declarations. *)
Definition ModuleOp_traits : list Trait :=
  [ZeroOperands; ZeroResult; IsIsolatedFromAbove].
Definition ModuleTerminatorOp_traits : list Trait :=
  [ZeroOperands; ZeroResult; IsTerminator].

(** The traits whose [verifyTrait] is the default of [TraitBase]. *)
Definition hasDefaultVerifier (trait : Trait) : bool :=
  match trait with
  | VariadicOperands | VariadicResults | IsCommutative | HasNoSideEffect => true
  | _ => false
  end.

(** The traits that override [getTraitProperties]. *)
Definition declaresProperty (trait : Trait) : bool :=
  match trait with
  | IsCommutative | HasNoSideEffect | IsTerminator | IsIsolatedFromAbove => true
  | _ => false
  end.

Lemma land_lor_eqb a b c :
  (Z.land (Z.lor a b) c =? 0) = (Z.land a c =? 0) && (Z.land b c =? 0).
Proof.
  rewrite Z.land_lor_distr_l.
  destruct (Z.eqb_spec (Z.lor (Z.land a c) (Z.land b c)) 0) as [Hz|Hnz].
  - apply Z.lor_eq_0_iff in Hz as [-> ->]. reflexivity.
  - destruct (Z.eqb_spec (Z.land a c) 0) as [Ha|Ha];
      destruct (Z.eqb_spec (Z.land b c) 0) as [Hb|Hb]; try reflexivity.
    exfalso. apply Hnz. rewrite Ha, Hb. reflexivity.
Qed.

Lemma trait_bit trait p :
  negb (Z.land (getTraitProperties trait) (propertyBit p) =? 0)
  = bool_decide (trait = propertyTrait p).
Proof. destruct trait, p; reflexivity. Qed.

Lemma BaseProperties_bit traits p :
  negb (Z.land (BaseProperties traits) (propertyBit p) =? 0)
  = hasTrait (propertyTrait p) traits.
Proof.
  induction traits as [|First Rest IH]; simpl.
  - destruct p; reflexivity.
  - rewrite land_lor_eqb, negb_andb, trait_bit, IH. reflexivity.
Qed.

(** X18: the property bits of an operation class say exactly which of the
    four property traits it is declared with.  For an operation registered
    with the properties of its traits, each query answers whether the
    class has the trait: it is commutative exactly when declared
    [IsCommutative], a known terminator exactly when declared
    [IsTerminator], and so on; the bits of distinct traits do not
    interfere. *)
Theorem properties_reflect_traits (op : Operation) (absOp : AbstractOperation)
    (traits : list Trait) :
  getAbstractOperation op = Some absOp ->
  opProperties absOp = getOperationProperties traits ->
  (forall p, hasProperty absOp p = hasTrait (propertyTrait p) traits) /\
  isCommutative op = hasTrait IsCommutative traits /\
  hasNoSideEffect op = hasTrait HasNoSideEffect traits /\
  isKnownTerminator op = hasTrait IsTerminator traits /\
  isKnownNonTerminator op = negb (hasTrait IsTerminator traits) /\
  isKnownIsolatedFromAbove op = hasTrait IsIsolatedFromAbove traits.
Proof.
  intros Habs Hprops.
  assert (forall p, hasProperty absOp p = hasTrait (propertyTrait p) traits)
    as Hbit.
  { intros p. unfold hasProperty. rewrite Hprops. apply BaseProperties_bit. }
  split; [exact Hbit|].
  unfold isCommutative, hasNoSideEffect, isKnownTerminator,
    isKnownNonTerminator, isKnownIsolatedFromAbove, getTerminatorStatus.
  rewrite Habs, !Hbit. simpl.
  repeat split; destruct (hasTrait IsTerminator traits); reflexivity.
Qed.

(** X19: whatever the registration of an operation, it is never both a
    known terminator and a known non-terminator, and it is one of the two
    exactly when its kind is registered. *)
Theorem terminator_status_exclusive (op : Operation) :
  isKnownTerminator op && isKnownNonTerminator op = false /\
  isKnownTerminator op || isKnownNonTerminator op = isRegistered op /\
  (getTerminatorStatus op = TerminatorStatus.Unknown <->
   isRegistered op = false).
Proof.
  unfold isKnownTerminator, isKnownNonTerminator, getTerminatorStatus,
    isRegistered.
  destruct (getAbstractOperation op) as [absOp|].
  - destruct (hasProperty absOp Terminator); simpl;
      repeat split; intros; discriminate.
  - simpl. repeat split; intros; reflexivity.
Qed.

(** The bit [n] of the properties of a list of traits is set when one of
    the traits sets it. *)
Lemma BaseProperties_testbit traits n :
  Z.testbit (BaseProperties traits) n
  = existsb (fun t => Z.testbit (getTraitProperties t) n) traits.
Proof.
  induction traits as [|First Rest IH]; simpl.
  - apply Z.bits_0.
  - rewrite Z.lor_spec, IH. reflexivity.
Qed.

(** X29: the properties of an operation class depend only on which traits
    it is declared with, not on their order or on repetitions, unlike its
    verification, which runs the checks in the order of the
    declaration. *)
Theorem properties_order_independent (traits1 traits2 : list Trait) :
  (forall trait, In trait traits1 <-> In trait traits2) ->
  getOperationProperties traits1 = getOperationProperties traits2.
Proof.
  intros Hsame. unfold getOperationProperties. apply Z.bits_inj. intros n.
  rewrite !BaseProperties_testbit.
  destruct (existsb (fun t => Z.testbit (getTraitProperties t) n) traits1)
    eqn:H1; symmetry.
  - apply existsb_exists in H1 as (t & Hin & Ht).
    apply existsb_exists. exists t. split; [apply Hsame; assumption|assumption].
  - destruct (existsb (fun t => Z.testbit (getTraitProperties t) n) traits2)
      eqn:H2; [|reflexivity].
    apply existsb_exists in H2 as (t & Hin & Ht).
    assert (existsb (fun t => Z.testbit (getTraitProperties t) n) traits1
            = true) as H1'.
    { apply existsb_exists. exists t.
      split; [apply Hsame; assumption|assumption]. }
    congruence.
Qed.

Section Verifier.
Context {IR : Type}.
Variable impl : TraitImpl IR.

Lemma failure_failed r : failure (failed r) = r.
Proof. destruct r; reflexivity. Qed.

Lemma BaseVerifier_cons First Rest op st :
  BaseVerifier impl (First :: Rest) op st
  = (let (r1, st1) := verifyTrait impl First op st in
     if failed r1 then (Failure, st1) else BaseVerifier impl Rest op st1).
Proof.
  simpl. destruct (verifyTrait impl First op st) as [r1 st1].
  destruct (failed r1); [reflexivity|].
  destruct (BaseVerifier impl Rest op st1) as [r2 st2].
  rewrite failure_failed. reflexivity.
Qed.

Lemma BaseVerifier_app l1 l2 op : forall st,
  BaseVerifier impl (l1 ++ l2) op st
  = (let (r1, st1) := BaseVerifier impl l1 op st in
     if failed r1 then (Failure, st1) else BaseVerifier impl l2 op st1).
Proof.
  induction l1 as [|First Rest IH]; intros st.
  - reflexivity.
  - rewrite <- app_comm_cons, !BaseVerifier_cons.
    destruct (verifyTrait impl First op st) as [r1 st1].
    destruct r1; simpl; [apply IH|reflexivity].
Qed.

(** X20: verification composes along the list of traits: checking the
    traits [l1 ++ l2] and then the custom verifier is checking [l1] and
    then, as the custom verifier, the whole verification of [l2]; and with
    no trait at all the result is that of the custom verifier. *)
Theorem verifyInvariants_app (l1 l2 : list Trait) (verify : Verifier IR)
    (op : Op) (st : VerifierState IR) :
  verifyInvariants impl (l1 ++ l2) verify op st
  = verifyInvariants impl l1 (verifyInvariants impl l2 verify) op st /\
  verifyInvariants impl [] verify op st = verify op st.
Proof.
  split.
  - unfold verifyInvariants at 1 2. rewrite BaseVerifier_app.
    destruct (BaseVerifier impl l1 op st) as [r1 st1].
    destruct r1; simpl; [|reflexivity].
    unfold verifyInvariants.
    destruct (BaseVerifier impl l2 op st1) as [r2 st2].
    destruct r2; simpl; [|reflexivity].
    destruct (verify op st2) as [r3 st3]. rewrite !failure_failed.
    reflexivity.
  - unfold verifyInvariants. simpl. destruct (verify op st) as [r st'].
    rewrite failure_failed. reflexivity.
Qed.

(** X21: the traits that only declare a property or a shape of the
    operand and result lists ([VariadicOperands], [VariadicResults],
    [IsCommutative], [HasNoSideEffect]) check nothing: removing them from
    the declaration changes neither the result of the verification nor the
    state it leaves.  Dually, the property bits depend only on the four
    traits that declare a property. *)
Theorem default_verifiers_check_nothing (traits : list Trait)
    (verify : Verifier IR) (op : Op) (st : VerifierState IR) :
  verifyInvariants impl traits verify op st
  = verifyInvariants impl
      (List.filter (fun t => negb (hasDefaultVerifier t)) traits) verify op st
  /\ getOperationProperties traits
     = getOperationProperties (List.filter declaresProperty traits).
Proof.
  split.
  - unfold verifyInvariants.
    assert (forall st0,
              BaseVerifier impl traits op st0
              = BaseVerifier impl
                  (List.filter (fun t => negb (hasDefaultVerifier t)) traits)
                  op st0) as ->; [|reflexivity].
    induction traits as [|First Rest IH]; intros st0; [reflexivity|].
    cbn [List.filter]. destruct (hasDefaultVerifier First) eqn:Hdefault.
    + cbn [negb]. rewrite BaseVerifier_cons, <- IH.
      destruct First; try discriminate Hdefault; reflexivity.
    + cbn [negb]. rewrite !BaseVerifier_cons.
      destruct (verifyTrait impl First op st0) as [r1 st1].
      destruct (failed r1); [reflexivity|apply IH].
  - unfold getOperationProperties.
    induction traits as [|First Rest IH]; [reflexivity|].
    cbn [List.filter BaseProperties].
    destruct (declaresProperty First) eqn:Hdeclares.
    + cbn [BaseProperties]. rewrite IH. reflexivity.
    + rewrite <- IH.
      destruct First; try discriminate Hdeclares; reflexivity.
Qed.

(** Running [isIsolatedFromAbove] on the regions one after the other from
    [st], all of them are isolated and the state left is [st']. *)
Inductive AllIsolated (loc : Location)
  : list Region -> VerifierState IR -> VerifierState IR -> Prop :=
| AllIsolated_nil st : AllIsolated loc [] st st
| AllIsolated_cons region regions st st1 st2 :
    isIsolatedFromAbove impl region loc st = (true, st1) ->
    AllIsolated loc regions st1 st2 ->
    AllIsolated loc (region :: regions) st st2.

Lemma verifyRegionsIsolated_success loc regions : forall st st1,
  AllIsolated loc regions st st1 <->
  verifyRegionsIsolated impl regions loc st = (Success, st1).
Proof.
  induction regions as [|region rest IH]; intros st st1; simpl.
  - split.
    + inversion 1. reflexivity.
    + intros [= <-]. constructor.
  - split.
    + inversion 1 as [|? ? ? st' ? Hfirst Hrest]; subst.
      rewrite Hfirst. simpl. apply IH. assumption.
    + destruct (isIsolatedFromAbove impl region loc st) as [isolated st']
        eqn:Hfirst.
      destruct isolated; simpl; [|discriminate].
      intros Hrest. econstructor; [eassumption|]. apply IH. assumption.
Qed.

Lemma verifyRegionsIsolated_failure loc : forall pre region post st st1 st2,
  AllIsolated loc pre st st1 ->
  isIsolatedFromAbove impl region loc st1 = (false, st2) ->
  verifyRegionsIsolated impl (pre ++ region :: post) loc st = (Failure, st2).
Proof.
  induction pre as [|r pre IH]; intros region post st st1 st2 Hpre Hfail.
  - inversion Hpre; subst. simpl. rewrite Hfail. reflexivity.
  - inversion Hpre as [|? ? ? st' ? Hfirst Hrest]; subst. simpl.
    rewrite Hfirst. simpl. eapply IH; eassumption.
Qed.

(** X22: the check of [IsIsolatedFromAbove] looks at the regions of the
    operation in order and stops at the first one that is not isolated,
    with a failure and in the state that region left: the later regions
    are not looked at.  It succeeds exactly when every region is isolated;
    an operation without regions passes. *)
Theorem isolated_regions_in_order (op : Op) (st : VerifierState IR) :
  let regions := getRegions impl op (irGraph st) in
  let loc := OpDefinition.getLoc impl op (irGraph st) in
  (forall pre region post st1 st2,
      regions = pre ++ region :: post ->
      AllIsolated loc pre st st1 ->
      isIsolatedFromAbove impl region loc st1 = (false, st2) ->
      verifyTrait impl IsIsolatedFromAbove op st = (Failure, st2)) /\
  (forall st1,
      verifyTrait impl IsIsolatedFromAbove op st = (Success, st1) <->
      AllIsolated loc regions st st1) /\
  (regions = [] ->
   verifyTrait impl IsIsolatedFromAbove op st = (Success, st)).
Proof.
  intros regions loc. cbn [verifyTrait]. fold regions. fold loc.
  split; [|split].
  - intros pre region post st1 st2 -> Hpre Hfail.
    eapply verifyRegionsIsolated_failure; eassumption.
  - intros st1. symmetry. apply verifyRegionsIsolated_success.
  - intros ->. reflexivity.
Qed.

End Verifier.

(** A module operation, registered with the properties of its traits. *)
Definition moduleOp_example : Operation := {|
  getName := Registered {| absName := "module";
                           opProperties := getOperationProperties ModuleOp_traits |};
  numResults := 0; numSuccs := 0; numRegions := 1
|}.

Definition moduleTerminatorOp_example : Operation := {|
  getName := Registered {| absName := "module_terminator";
                           opProperties :=
                             getOperationProperties ModuleTerminatorOp_traits |};
  numResults := 0; numSuccs := 0; numRegions := 0
|}.

Lemma properties_reflect_traits_witness :
  (forall p,
      hasProperty {| absName := "module";
                     opProperties := getOperationProperties ModuleOp_traits |} p
      = hasTrait (propertyTrait p) ModuleOp_traits) /\
  isCommutative moduleOp_example = hasTrait IsCommutative ModuleOp_traits /\
  hasNoSideEffect moduleOp_example = hasTrait HasNoSideEffect ModuleOp_traits /\
  isKnownTerminator moduleOp_example = hasTrait IsTerminator ModuleOp_traits /\
  isKnownNonTerminator moduleOp_example
  = negb (hasTrait IsTerminator ModuleOp_traits) /\
  isKnownIsolatedFromAbove moduleOp_example
  = hasTrait IsIsolatedFromAbove ModuleOp_traits.
Proof.
  apply (properties_reflect_traits moduleOp_example
           {| absName := "module";
              opProperties := getOperationProperties ModuleOp_traits |}
           ModuleOp_traits).
  - reflexivity.
  - reflexivity.
Defined.

(** A module is known to be isolated from above and not to be a
    terminator; its terminator is a known terminator. *)
Example moduleOp_properties :
  isKnownIsolatedFromAbove moduleOp_example = true /\
  isKnownNonTerminator moduleOp_example = true /\
  hasNoSideEffect moduleOp_example = false /\
  isKnownTerminator moduleTerminatorOp_example = true /\
  isKnownIsolatedFromAbove moduleTerminatorOp_example = false.
Proof. repeat split. Qed.

(** The arity instance with one region, [5], that is not isolated. *)
Definition isolationImpl : TraitImpl ArityIR := {|
  verifyZeroOperands := verifyZeroOperands arityImpl;
  verifyOneOperand := verifyOneOperand arityImpl;
  verifyNOperands := verifyNOperands arityImpl;
  verifyAtLeastNOperands := verifyAtLeastNOperands arityImpl;
  verifyOperandsAreFloatLike := accept;
  verifyOperandsAreIntegerLike := accept;
  verifySameTypeOperands := accept;
  verifyZeroResult := verifyZeroResult arityImpl;
  verifyOneResult := verifyOneResult arityImpl;
  verifyNResults := verifyNResults arityImpl;
  verifyAtLeastNResults := verifyAtLeastNResults arityImpl;
  verifySameOperandsAndResultShape := accept;
  verifySameOperandsAndResultElementType := accept;
  verifySameOperandsAndResultType := accept;
  verifyResultsAreBoolLike := accept;
  verifyResultsAreFloatLike := accept;
  verifyResultsAreIntegerLike := accept;
  verifyIsTerminator := accept;
  getRegions := fun _ _ => [4%nat; 5%nat; 6%nat];
  OpDefinition.getLoc := fun op _ => op;
  isIsolatedFromAbove := fun region loc st =>
    if Nat.eqb region 5 then
      (false, {| irGraph := irGraph st;
                 diagnostics := diagnostics st
                                ++ [emitError loc "using value defined outside the region"] |})
    else (true, st)
|}.

Example second_region_is_not_isolated :
  verifyTrait isolationImpl IsIsolatedFromAbove 7%nat arityState
  = (Failure,
     {| irGraph := irGraph arityState;
        diagnostics := [emitError 7%nat "using value defined outside the region"] |}).
Proof. reflexivity. Qed.

Lemma properties_order_independent_witness :
  getOperationProperties [IsTerminator; ZeroResult; ZeroOperands; IsTerminator]
  = getOperationProperties ModuleTerminatorOp_traits.
Proof.
  apply (properties_order_independent
           [IsTerminator; ZeroResult; ZeroOperands; IsTerminator]
           ModuleTerminatorOp_traits).
  intros trait. simpl. tauto.
Defined.

End TraitFacts.

(** ** [include/mlir/IR/OpImplementation.h]: the helpers of the custom
       printers and parsers

    [OpAsmPrinter] and [OpAsmParser] are abstract classes: their virtual
    methods are an interface, and the helpers defined in the header are
    written over it.  A printer is a state that holds the output stream;
    a parser is a state that holds the diagnostics. *)

Module OpImplementation.
Import OpDefinition.

Lemma append_assoc (a b c : string) :
  String.append (String.append a b) c = String.append a (String.append b c).
Proof.
  induction a as [|x a IH]; [reflexivity|].
  change (String x (String.append (String.append a b) c)
          = String x (String.append a (String.append b c))).
  f_equal. exact IH.
Qed.

Lemma append_nil_r (a : string) : String.append a "" = a.
Proof.
  induction a as [|x a IH]; [reflexivity|].
  change (String x (String.append a "") = String x a). f_equal. exact IH.
Qed.

(** The concatenation of a list of strings. *)
Definition flatten (l : list string) : string := fold_right String.append EmptyString l.

Lemma concat_comma (rest : list string) : forall first,
  String.concat ", " (first :: rest)
  = String.append first (flatten (map (String.append ", ") rest)).
Proof.
  induction rest as [|second rest IH]; intros first.
  - simpl. rewrite append_nil_r. reflexivity.
  - change (String.concat ", " (first :: second :: rest))
      with (String.append first
              (String.append ", " (String.concat ", " (second :: rest)))).
    rewrite IH. simpl. rewrite !append_assoc. reflexivity.
Qed.

Section Printer.

(** [mlir::Type], compared and printed only; [isa<FunctionType>]; the type
    of a value. *)
Variable Ty : Type.
Variable isaFunctionType : Ty -> bool.
Variable getType : Value -> Ty.

(** The virtual methods of [OpAsmPrinter] that the helpers call, and the
    two ways of writing to [getStream()]: a piece of text, and a type
    ([raw_ostream << Type]). *)
Class OpAsmPrinter (P : Type) := {
  write : string -> P -> P;
  streamType : Ty -> P -> P;
  printOperand : Value -> P -> P;
  printType : Ty -> P -> P
}.

Context {P : Type} `{OpAsmPrinter P}.

(** [interleaveComma] of [mlir/Support/STLExtras.h], which the header
    uses and which is not among the sources, is a parameter: it runs
    [each_fn] on the elements of a container, writing to the stream
    between them. *)
Variable interleaveComma : forall A : Type, list A -> (A -> P -> P) -> P -> P.

(** The loop of [printOperands] after the first operand. *)
Fixpoint printOperandsFrom (rest : list Value) (p : P) : P :=
  match rest with
  | [] => p
  | value :: rest' => printOperandsFrom rest' (printOperand value (write ", " p))
  end.

(** [OpAsmPrinter::printOperands]. *)
Definition printOperands (container : list Value) (p : P) : P :=
  match container with
  | [] => p
  | first :: rest => printOperandsFrom rest (printOperand first p)
  end.

(** [OpAsmPrinter::printOptionalArrowTypeList]. *)
Definition printOptionalArrowTypeList (types : list Ty) (p : P) : P :=
  match types with
  | [] => p
  | first :: _ =>
      let p := write " -> " p in
      let wrapped :=
        negb (Nat.eqb (length types) 1) || isaFunctionType first in
      let p := if wrapped then write "(" p else p in
      let p := interleaveComma Ty types printType p in
      if wrapped then write ")" p else p
  end.

(** What [printFunctionalType] reads of the operation. *)
Record PrintedOperation := {
  getNonSuccessorOperands : list Value;
  getResultTypes : list Ty
}.

(** [OpAsmPrinter::printFunctionalType]. *)
Definition printFunctionalType (op : PrintedOperation) (p : P) : P :=
  let p := write "(" p in
  let p := interleaveComma Value (getNonSuccessorOperands op)
             (fun operand => printType (getType operand)) p in
  let p := write ") -> " p in
  match getResultTypes op with
  | [result] =>
      if negb (isaFunctionType result) then printType result p
      else
        let p := write "(" p in
        let p := interleaveComma Ty (getResultTypes op) streamType p in
        write ")" p
  | _ =>
      let p := write "(" p in
      let p := interleaveComma Ty (getResultTypes op) streamType p in
      write ")" p
  end.

(** What a printer has written: a printer whose methods append to the
    stream, each operand and each type as a text of its own, and for
    which [interleaveComma] separates the elements by [", "]. *)
Variable text : P -> string.
Variable operandText : Value -> string.
Variable typeText : Ty -> string.

Definition Appends : Prop :=
  (forall s p, text (write s p) = String.append (text p) s) /\
  (forall v p, text (printOperand v p) = String.append (text p) (operandText v)) /\
  (forall t p, text (printType t p) = String.append (text p) (typeText t)).

Definition InterleavesComma : Prop :=
  forall (A : Type) (each_fn : A -> P -> P) (eachText : A -> string),
    (forall x p, text (each_fn x p) = String.append (text p) (eachText x)) ->
    forall c p,
      text (interleaveComma A c each_fn p)
      = String.append (text p) (String.concat ", " (map eachText c)).

Lemma printOperandsFrom_text rest : forall p,
  Appends ->
  text (printOperandsFrom rest p)
  = String.append (text p)
      (flatten (map (String.append ", ") (map operandText rest))).
Proof.
  induction rest as [|v rest IH]; intros p Happ; simpl.
  - rewrite append_nil_r. reflexivity.
  - rewrite IH by assumption.
    destruct Happ as (Hwrite & Hoperand & _).
    rewrite Hoperand, Hwrite, !append_assoc. reflexivity.
Qed.

(** X23: on a printer that appends to its stream, [printOperands] writes
    the operands in order, separated by [", "], with no separator before
    the first or after the last, and nothing for an empty list. *)
Theorem printOperands_comma_separated (container : list Value) (p : P) :
  Appends ->
  text (printOperands container p)
  = String.append (text p)
      (String.concat ", " (map operandText container)).
Proof.
  intros Happ. destruct container as [|first rest].
  - simpl. rewrite append_nil_r. reflexivity.
  - cbn [printOperands map]. rewrite printOperandsFrom_text by assumption.
    destruct Happ as (_ & Hoperand & _).
    rewrite Hoperand, append_assoc, concat_comma. reflexivity.
Qed.

(** A type streamed to the raw stream does not go through the virtual
    [printType]: what [raw_ostream << Type] appends is a text of its own,
    which a printer need not print for the type. *)
Variable streamedText : Ty -> string.

Definition Streams : Prop :=
  forall t p, text (streamType t p) = String.append (text p) (streamedText t).

(** Both helpers put the result types between parentheses unless there is
    exactly one and it is not a function type. *)
Definition Wrapped (types : list Ty) : Prop :=
  forall result, types = [result] -> isaFunctionType result = true.

(** X24: on a printer that appends to its stream, [printFunctionalType]
    writes the operand types between parentheses, as [printType] prints
    them, then [" -> "], then the type of the result as [printType] prints
    it when there is one result and it is not a function type, and
    otherwise the result types between parentheses, as the raw stream
    writes them.  For an operation with results this is exactly what
    [printOptionalArrowTypeList] writes for the result types, provided
    that, where the results are put between parentheses, the raw stream
    writes each of them as [printType] prints it; without results it
    writes [" -> ()"] where [printOptionalArrowTypeList] writes nothing. *)
Theorem printFunctionalType_text (op : PrintedOperation) (p : P) :
  Appends -> Streams -> InterleavesComma ->
  let operands :=
    write ")" (interleaveComma Value (getNonSuccessorOperands op)
                 (fun operand => printType (getType operand))
                 (write "(" p)) in
  text operands
  = String.append (text p)
      (String.append "("
         (String.append
            (String.concat ", "
               (map (fun operand => typeText (getType operand))
                    (getNonSuccessorOperands op))) ")"))
  /\
  (forall result,
     getResultTypes op = [result] -> isaFunctionType result = false ->
     text (printFunctionalType op p)
     = String.append (text operands) (String.append " -> " (typeText result))) /\
  (Wrapped (getResultTypes op) ->
   text (printFunctionalType op p)
   = String.append (text operands)
       (String.append " -> ("
          (String.append
             (String.concat ", " (map streamedText (getResultTypes op)))
             ")"))) /\
  (getResultTypes op <> [] ->
   (Wrapped (getResultTypes op) ->
    map streamedText (getResultTypes op) = map typeText (getResultTypes op)) ->
   text (printFunctionalType op p)
   = text (printOptionalArrowTypeList (getResultTypes op) operands)) /\
  (getResultTypes op = [] ->
   text (printFunctionalType op p) = String.append (text operands) " -> ()" /\
   printOptionalArrowTypeList (getResultTypes op) operands = operands).
Proof.
  intros (Hwrite & Hoperand & Htype) Hstream Hinter operands.
  assert (Hoperands : forall c q,
             text (interleaveComma Value c
                     (fun operand => printType (getType operand)) q)
             = String.append (text q)
                 (String.concat ", "
                    (map (fun operand => typeText (getType operand)) c)))
    by (intros; apply Hinter; intros; apply Htype).
  assert (Hprinted : forall c q,
             text (interleaveComma Ty c printType q)
             = String.append (text q) (String.concat ", " (map typeText c)))
    by (intros; apply Hinter; assumption).
  assert (Hstreamed : forall c q,
             text (interleaveComma Ty c streamType q)
             = String.append (text q)
                 (String.concat ", " (map streamedText c)))
    by (intros; apply Hinter; assumption).
  unfold operands. clear operands.
  assert (Hsingle : forall result,
             getResultTypes op = [result] -> isaFunctionType result = false ->
             text (printFunctionalType op p)
             = String.append
                 (text (write ")"
                          (interleaveComma Value (getNonSuccessorOperands op)
                             (fun operand => printType (getType operand))
                             (write "(" p))))
                 (String.append " -> " (typeText result))).
  { intros result Hresults Hisa. unfold printFunctionalType.
    rewrite Hresults, Hisa. cbn [negb].
    repeat first [rewrite Hwrite | rewrite Htype | rewrite Hoperands].
    rewrite !append_assoc. reflexivity. }
  assert (Hwrapped : Wrapped (getResultTypes op) ->
             text (printFunctionalType op p)
             = String.append
                 (text (write ")"
                          (interleaveComma Value (getNonSuccessorOperands op)
                             (fun operand => printType (getType operand))
                             (write "(" p))))
                 (String.append " -> ("
                    (String.append
                       (String.concat ", "
                          (map streamedText (getResultTypes op))) ")"))).
  { intros Hw. unfold printFunctionalType.
    destruct (getResultTypes op) as [|first [|second rest]].
    - repeat first [rewrite Hwrite | rewrite Hstreamed | rewrite Hoperands].
      rewrite !append_assoc. reflexivity.
    - rewrite (Hw first eq_refl). cbn [negb].
      repeat first [rewrite Hwrite | rewrite Hstreamed | rewrite Hoperands].
      rewrite !append_assoc. reflexivity.
    - repeat first [rewrite Hwrite | rewrite Hstreamed | rewrite Hoperands].
      rewrite !append_assoc. reflexivity. }
  split; [|split; [exact Hsingle|split; [exact Hwrapped|split]]].
  - rewrite Hwrite, Hoperands, Hwrite, !append_assoc. reflexivity.
  - intros Hne Hagree.
    destruct (getResultTypes op) as [|first rest] eqn:Hresults;
      [congruence|].
    destruct rest as [|second rest].
    + destruct (isaFunctionType first) eqn:Hisa.
      * assert (Hw : Wrapped [first]) by (intros result [= <-]; exact Hisa).
        rewrite (Hwrapped Hw), (Hagree Hw).
        unfold printOptionalArrowTypeList.
        cbn [length Nat.eqb negb orb]. rewrite Hisa.
        repeat first [rewrite Hwrite | rewrite Hprinted | rewrite Hoperands].
        rewrite !append_assoc. reflexivity.
      * rewrite (Hsingle first eq_refl Hisa).
        unfold printOptionalArrowTypeList.
        cbn [length Nat.eqb negb orb]. rewrite Hisa.
        repeat first [rewrite Hwrite | rewrite Hprinted | rewrite Hoperands].
        cbn [map String.concat]. rewrite !append_assoc. reflexivity.
    + assert (Hw : Wrapped (first :: second :: rest))
        by (intros result; discriminate).
      rewrite (Hwrapped Hw), (Hagree Hw).
      unfold printOptionalArrowTypeList.
      cbn [length Nat.eqb negb orb].
      repeat first [rewrite Hwrite | rewrite Hprinted | rewrite Hoperands].
      rewrite !append_assoc. reflexivity.
  - intros Hnil. split.
    + rewrite Hwrapped by (rewrite Hnil; intros result; discriminate).
      rewrite Hnil. reflexivity.
    + rewrite Hnil. reflexivity.
Qed.

End Printer.

Section Parser.

Variable Ty : Type.

(** [OpAsmParser::OperandType]. *)
Record OperandType := {
  location : Location;
  name : string;
  number : nat
}.

(** A piece streamed into a diagnostic. *)
Inductive MessagePiece :=
| Number (n : nat)
| Text (s : string).

(** The virtual methods of [OpAsmParser] that [resolveOperands] calls:
    [emitError], whose diagnostic converts to a failure, and
    [resolveOperand], which may append to [result]. *)
Class OpAsmParser (S : Type) := {
  emitError : Location -> list MessagePiece -> S -> S;
  resolveOperand :
    OperandType -> Ty -> list Value -> S -> LogicalResult * list Value * S
}.

Context {S : Type} `{OpAsmParser S}.

(** [OpAsmParser::resolveOperands] for operands of one type. *)
Fixpoint resolveOperands (operands : list OperandType) (type : Ty)
    (result : list Value) (s : S) : LogicalResult * list Value * S :=
  match operands with
  | [] => (success, result, s)
  | elt :: rest =>
      let '(r, result, s) := resolveOperand elt type result s in
      if failed r then (failure true, result, s)
      else resolveOperands rest type result s
  end.

(** The loop of the second [resolveOperands] over the indices; [None]
    would be an access out of the bounds of [operands] or [types]. *)
Fixpoint resolveLoop (indices : list nat) (operands : list OperandType)
    (types : list Ty) (result : list Value) (s : S)
  : option (LogicalResult * list Value * S) :=
  match indices with
  | [] => Some (success, result, s)
  | i :: rest =>
      match operands !! i, types !! i with
      | Some operand, Some type =>
          let '(r, result, s) := resolveOperand operand type result s in
          if failed r then Some (failure true, result, s)
          else resolveLoop rest operands types result s
      | _, _ => None
      end
  end.

(** [OpAsmParser::resolveOperands] for operands with a list of types. *)
Definition resolveOperandsTyped (operands : list OperandType)
    (types : list Ty) (loc : Location) (result : list Value) (s : S)
  : option (LogicalResult * list Value * S) :=
  if negb (Nat.eqb (length operands) (length types)) then
    Some (failure true, result,
          emitError loc [Number (length operands);
                         Text " operands present, but expected ";
                         Number (length types)] s)
  else resolveLoop (seq 0 (length operands)) operands types result s.

Lemma resolveLoop_same_type type suf : forall pre result s,
  resolveLoop (seq (length pre) (length suf)) (pre ++ suf)
              (repeat type (length (pre ++ suf))) result s
  = Some (resolveOperands suf type result s).
Proof.
  induction suf as [|elt suf IH]; intros pre result s; [reflexivity|].
  cbn [length seq resolveLoop resolveOperands].
  rewrite list_lookup_middle by reflexivity.
  assert (repeat type (length (pre ++ elt :: suf)) !! length pre = Some type)
    as ->.
  { assert (length pre < length (pre ++ elt :: suf)) as Hlt
      by (rewrite length_app; simpl; lia).
    revert Hlt. generalize (length (pre ++ elt :: suf)) as n.
    generalize (length pre) as k. clear.
    induction k as [|k IH]; intros [|n] Hlt; simpl; try lia; [reflexivity|].
    apply IH. lia. }
  destruct (resolveOperand elt type result s) as [[r result'] s'].
  destruct (failed r); [reflexivity|].
  specialize (IH (pre ++ [elt]) result' s').
  rewrite <- app_assoc, length_app, Nat.add_1_r in IH. exact IH.
Qed.

(** The loop reads [operands] and [types] at its indices only: with the
    indices in bounds it returns. *)
Lemma resolveLoop_in_bounds operands types indices : forall result s,
  Forall (fun i => i < length operands /\ i < length types) indices ->
  exists outcome, resolveLoop indices operands types result s = Some outcome.
Proof.
  induction indices as [|i indices IH]; intros result s Hbounds.
  - eexists. reflexivity.
  - apply Forall_cons in Hbounds. destruct Hbounds as [[Hi Hi'] Hbounds].
    cbn [resolveLoop].
    destruct (lookup_lt_is_Some_2 operands i Hi) as [operand ->].
    destruct (lookup_lt_is_Some_2 types i Hi') as [type ->].
    destruct (resolveOperand operand type result s) as [[r result'] s'].
    destruct (failed r); [eexists; reflexivity|].
    apply IH. assumption.
Qed.

(** The iterations after the first are the loop on the rest of the two
    lists. *)
Lemma resolveLoop_shift operand operands type types indices : forall result s,
  resolveLoop (map Datatypes.S indices) (operand :: operands) (type :: types)
              result s
  = resolveLoop indices operands types result s.
Proof.
  induction indices as [|i indices IH]; intros result s; [reflexivity|].
  cbn [map resolveLoop].
  change ((operand :: operands) !! Datatypes.S i) with (operands !! i).
  change ((type :: types) !! Datatypes.S i) with (types !! i).
  destruct (operands !! i) as [o|]; [|reflexivity].
  destruct (types !! i) as [t|]; [|reflexivity].
  destruct (resolveOperand o t result s) as [[r result'] s'].
  destruct (failed r); [reflexivity|]. apply IH.
Qed.

(** X25: resolving operands against a list of types never reads out of
    bounds: it returns for all lists.  When the numbers of operands and of
    types differ, it fails with one error at [loc] and resolves nothing:
    [result] is untouched.  When they agree, the operands are resolved in
    order, each against the type at its own position, up to the first
    failure: nothing is done for empty lists, and otherwise the first
    operand is resolved against the first type, and, when this succeeds,
    the other operands against the other types.  When every type is the
    same, it does exactly what the overload for a single type does. *)
Theorem resolveOperands_overloads_agree (operands : list OperandType)
    (types : list Ty) (type : Ty) (loc : Location) (result : list Value)
    (s : S) :
  (exists outcome,
     resolveOperandsTyped operands types loc result s = Some outcome) /\
  (length operands <> length types ->
   resolveOperandsTyped operands types loc result s
   = Some (Failure, result,
           emitError loc [Number (length operands);
                          Text " operands present, but expected ";
                          Number (length types)] s)) /\
  resolveOperandsTyped [] [] loc result s = Some (Success, result, s) /\
  (forall operand,
     length operands = length types ->
     resolveOperandsTyped (operand :: operands) (type :: types) loc result s
     = let '(r, result', s') := resolveOperand operand type result s in
       if failed r then Some (Failure, result', s')
       else resolveOperandsTyped operands types loc result' s') /\
  resolveOperandsTyped operands (repeat type (length operands)) loc result s
  = Some (resolveOperands operands type result s).
Proof.
  split; [|split; [|split; [|split]]].
  - unfold resolveOperandsTyped.
    destruct (Nat.eqb_spec (length operands) (length types)) as [Heq|Hne];
      cbn [negb]; [|eexists; reflexivity].
    apply resolveLoop_in_bounds. apply List.Forall_forall.
    intros i Hi. apply in_seq in Hi. lia.
  - intros Hne. unfold resolveOperandsTyped.
    destruct (Nat.eqb_spec (length operands) (length types));
      [contradiction|reflexivity].
  - reflexivity.
  - intros operand Heq. unfold resolveOperandsTyped.
    cbn [length]. rewrite Heq, !Nat.eqb_refl.
    cbn [negb seq resolveLoop lookup list_lookup].
    destruct (resolveOperand operand type result s) as [[r result'] s'].
    destruct (failed r); [reflexivity|].
    rewrite <- seq_shift. apply resolveLoop_shift.
  - unfold resolveOperandsTyped. rewrite repeat_length, Nat.eqb_refl.
    cbn [negb]. apply (resolveLoop_same_type type operands []).
Qed.

End Parser.

(** A printer that is its stream: operands print as [%n], types as their
    names; every value has the type [i32]. *)
Inductive ExampleType := I32 | F32 | FunctionType.

Definition exampleTypeText (t : ExampleType) : string :=
  match t with I32 => "i32" | F32 => "f32" | FunctionType => "() -> ()" end.

Definition exampleOperandText (v : Value) : string :=
  match v with
  | 0 => "%0" | 1 => "%1" | 2 => "%2" | _ => "%x"
  end.

Definition exampleIsaFunctionType (t : ExampleType) : bool :=
  match t with FunctionType => true | _ => false end.

#[global] Instance StringPrinter : OpAsmPrinter ExampleType string := {|
  write := fun s p => String.append p s;
  streamType := fun t p => String.append p (exampleTypeText t);
  printOperand := fun v p => String.append p (exampleOperandText v);
  printType := fun t p => String.append p (exampleTypeText t)
|}.

(** The interleaving of the concrete printer: each element, with [", "]
    written between two elements. *)
Definition exampleInterleaveComma (A : Type) (c : list A)
    (each_fn : A -> string -> string) (p : string) : string :=
  match c with
  | [] => p
  | first :: rest =>
      fold_left (fun p x => each_fn x (String.append p ", ")) rest
                (each_fn first p)
  end.

Lemma StringPrinter_Appends :
  Appends ExampleType (fun p => p) exampleOperandText exampleTypeText.
Proof. repeat split. Qed.

Lemma StringPrinter_InterleavesComma :
  InterleavesComma exampleInterleaveComma (fun p => p).
Proof.
  intros A each_fn eachText Heach c p. destruct c as [|first rest].
  - simpl. rewrite append_nil_r. reflexivity.
  - cbn [exampleInterleaveComma map]. rewrite concat_comma.
    assert (forall q,
              fold_left (fun p x => each_fn x (String.append p ", ")) rest q
              = String.append q
                  (flatten (map (String.append ", ") (map eachText rest))))
      as Hfold.
    { induction rest as [|x rest IH]; intros q; simpl.
      - rewrite append_nil_r. reflexivity.
      - rewrite IH, Heach, !append_assoc. reflexivity. }
    rewrite Hfold, Heach, append_assoc. reflexivity.
Qed.

Definition exampleOperation (results : list ExampleType) : PrintedOperation ExampleType :=
  {| getNonSuccessorOperands := [0; 1]; getResultTypes := results |}.

Lemma printOperands_comma_separated_witness :
  printOperands ExampleType [0; 1; 2] "load "%string = "load %0, %1, %2"%string.
Proof.
  rewrite (printOperands_comma_separated ExampleType (fun p => p)
             exampleOperandText exampleTypeText [0; 1; 2] "load "%string
             StringPrinter_Appends).
  reflexivity.
Defined.

(** A printer that prints the type [i32] by an alias, [!word], while the
    raw stream writes types in full. *)
Definition aliasTypeText (t : ExampleType) : string :=
  match t with I32 => "!word" | F32 => "f32" | FunctionType => "() -> ()" end.

Definition AliasPrinter : OpAsmPrinter ExampleType string := {|
  write := fun s p => String.append p s;
  streamType := fun t p => String.append p (exampleTypeText t);
  printOperand := fun v p => String.append p (exampleOperandText v);
  printType := fun t p => String.append p (aliasTypeText t)
|}.

Lemma AliasPrinter_Appends :
  Appends (H:=AliasPrinter) ExampleType (fun p => p) exampleOperandText
    aliasTypeText.
Proof. repeat split. Qed.

Lemma AliasPrinter_Streams :
  Streams (H:=AliasPrinter) ExampleType (fun p => p) exampleTypeText.
Proof. intros t p. reflexivity. Qed.

Lemma StringPrinter_Streams :
  Streams ExampleType (fun p => p) exampleTypeText.
Proof. intros t p. reflexivity. Qed.

(** With the alias, the operand types are printed as [!word], and the two
    results, put between parentheses, as the raw stream writes them. *)
Lemma printFunctionalType_text_witness :
  Wrapped ExampleType exampleIsaFunctionType [I32; F32] /\
  printFunctionalType (H:=AliasPrinter) ExampleType exampleIsaFunctionType
    (fun _ => I32) exampleInterleaveComma (exampleOperation [I32; F32])
    ""%string
  = "(!word, !word) -> (i32, f32)"%string.
Proof.
  assert (Hwrapped : Wrapped ExampleType exampleIsaFunctionType [I32; F32])
    by (intros result; discriminate).
  split; [exact Hwrapped|].
  destruct (printFunctionalType_text (H:=AliasPrinter) ExampleType
              exampleIsaFunctionType (fun _ => I32) exampleInterleaveComma
              (fun p => p) exampleOperandText aliasTypeText exampleTypeText
              (exampleOperation [I32; F32]) ""%string AliasPrinter_Appends
              AliasPrinter_Streams StringPrinter_InterleavesComma)
    as (_ & _ & Htext & _).
  etransitivity; [exact (Htext Hwrapped)|reflexivity].
Defined.

(** There [printOptionalArrowTypeList] prints the alias: the two helpers
    write the same only when the raw stream writes the wrapped result types
    as the printer prints them. *)
Example alias_in_result_types :
  printOptionalArrowTypeList (H:=AliasPrinter) ExampleType
    exampleIsaFunctionType exampleInterleaveComma [I32; F32]
    "(!word, !word)"%string
  = "(!word, !word) -> (!word, f32)"%string /\
  printFunctionalType (H:=AliasPrinter) ExampleType exampleIsaFunctionType
    (fun _ => I32) exampleInterleaveComma (exampleOperation [I32]) ""%string
  = printOptionalArrowTypeList (H:=AliasPrinter) ExampleType
      exampleIsaFunctionType exampleInterleaveComma [I32]
      "(!word, !word)"%string.
Proof. split; reflexivity. Qed.

Example functional_types :
  printFunctionalType ExampleType exampleIsaFunctionType (fun _ => I32)
    exampleInterleaveComma (exampleOperation [F32]) ""%string
  = "(i32, i32) -> f32"%string /\
  printFunctionalType ExampleType exampleIsaFunctionType (fun _ => I32)
    exampleInterleaveComma (exampleOperation []) ""%string
  = "(i32, i32) -> ()"%string /\
  printFunctionalType ExampleType exampleIsaFunctionType (fun _ => I32)
    exampleInterleaveComma (exampleOperation [FunctionType]) ""%string
  = "(i32, i32) -> (() -> ())"%string /\
  printFunctionalType ExampleType exampleIsaFunctionType (fun _ => I32)
    exampleInterleaveComma (exampleOperation [I32; F32]) ""%string
  = printOptionalArrowTypeList ExampleType exampleIsaFunctionType
      exampleInterleaveComma [I32; F32] "(i32, i32)"%string /\
  printOptionalArrowTypeList ExampleType exampleIsaFunctionType
    exampleInterleaveComma [I32; F32] ""%string
  = " -> (i32, f32)"%string.
Proof. repeat split. Qed.

(** A parser that is its list of diagnostics: an operand resolves to the
    value of its number, except against a function type, where the parser
    reports an error at the operand. *)
#[global] Instance ListParser
  : OpAsmParser ExampleType (list (Location * list MessagePiece)) := {|
  emitError := fun loc pieces s => s ++ [(loc, pieces)];
  resolveOperand := fun operand type result s =>
    if exampleIsaFunctionType type
    then (Failure, result, s ++ [(location operand, [Text "not a value type"])])
    else (Success, result ++ [number operand], s)
|}.

Definition exampleOperand (n : nat) : OperandType :=
  {| location := 40 + n; name := "arg"; number := n |}.

(** Two operands against the types [i32] and [f32]: each is resolved
    against its own type, and both values are appended. *)
Lemma resolveOperands_overloads_agree_witness :
  resolveOperandsTyped ExampleType [exampleOperand 0; exampleOperand 1]
    [I32; F32] 7 [] []
  = Some (Success, [0; 1], []).
Proof.
  destruct (resolveOperands_overloads_agree ExampleType [exampleOperand 1]
              [F32] I32 7 [] []) as (_ & _ & _ & Hcons & _).
  etransitivity; [exact (Hcons (exampleOperand 0) eq_refl)|reflexivity].
Defined.

(** The second operand fails against a function type, and the third is
    not resolved; two operands against three types are refused at [loc]. *)
Example resolveOperands_stops_at_first_failure :
  resolveOperandsTyped ExampleType
    [exampleOperand 0; exampleOperand 1; exampleOperand 2]
    [I32; FunctionType; F32] 7 [] []
  = Some (Failure, [0], [(41, [Text "not a value type"])]) /\
  resolveOperandsTyped ExampleType [exampleOperand 0; exampleOperand 1]
    [I32; FunctionType; F32] 7 [] []
  = Some (Failure, [],
          [(7, [Number 2; Text " operands present, but expected "; Number 3])]).
Proof. split; reflexivity. Qed.

End OpImplementation.
